(** * SanteCI fuzzy search: highlight resolver and [useFuzzySearch] hook

    A shallow embedding of [src/lib/fuzzy/highlight.ts] and
    [src/lib/fuzzy/use-fuzzy-search.ts], with the properties the
    specification states about them.

    Conventions of the embedding:
    - a JavaScript string is the list of its UTF-16 code units;
    - integral JavaScript numbers (offsets, lengths, milliseconds) are [Z];
    - finite non-integral numbers (scores, thresholds) are the rationals
      they denote, so that [>] and [Object.is] are exact on them;
    - an array handed to the hook is a reference together with its
      elements, because React compares dependencies with [Object.is]. *)

From Stdlib Require Import String Ascii.
From Stdlib Require Import List ZArith NArith QArith Bool Lia.
From Stdlib Require Import Sorting.Sorted Sorting.Permutation.
Import ListNotations.

Local Open Scope Z_scope.

(** ** JavaScript strings *)

Module JS.

(** A string is its sequence of UTF-16 code units. *)
Definition jsstring := list N.

(** Literal helper: the code units of an ASCII literal. *)
Fixpoint lit (s : string) : jsstring :=
  match s with
  | EmptyString => []
  | String c r => N_of_ascii c :: lit r
  end.

Definition len (t : jsstring) : Z := Z.of_nat (length t).

Fixpoint eqb (a b : jsstring) : bool :=
  match a, b with
  | [], [] => true
  | x :: a', y :: b' => N.eqb x y && eqb a' b'
  | _, _ => false
  end.

(** [String.prototype.slice] resolves a relative index against the length. *)
Definition rel_index (n i : Z) : Z :=
  if i <? 0 then Z.max (n + i) 0 else Z.min i n.

(** [t.slice(a, b)] *)
Definition slice (t : jsstring) (a b : Z) : jsstring :=
  let from := rel_index (len t) a in
  let to := rel_index (len t) b in
  firstn (Z.to_nat (to - from)) (skipn (Z.to_nat from) t).

(** [t.slice(a)] *)
Definition slice_from (t : jsstring) (a : Z) : jsstring :=
  slice t a (len t).

(** WhiteSpace and LineTerminator code units, as [String.prototype.trim]
    strips them. *)
Definition is_space (c : N) : bool :=
  let z := Z.of_N c in
  ((9 <=? z) && (z <=? 13)) || (z =? 32) || (z =? 160) || (z =? 5760)
  || ((8192 <=? z) && (z <=? 8202)) || (z =? 8232) || (z =? 8233)
  || (z =? 8239) || (z =? 8287) || (z =? 12288) || (z =? 65279).

Fixpoint trim_start (t : jsstring) : jsstring :=
  match t with
  | c :: r => if is_space c then trim_start r else t
  | [] => []
  end.

(** [t.trim()] *)
Definition trim (t : jsstring) : jsstring :=
  rev (trim_start (rev (trim_start t))).

End JS.

Import JS.

(** ** Shared types ([types.ts]) *)

Definition span : Type := (Z * Z)%type.

Record FuseResultMatch := mkMatch {
  key : option jsstring;
  indices : list span;
  value : option jsstring
}.

(** ** The highlight resolver ([highlight.ts]) *)

Module Highlight.

Record HighlightSegment := seg {
  text : jsstring;
  highlighted : bool
}.

(** Stable insertion by ascending start offset: the comparator of
    [sort((a, b) => a[0] - b[0])], which is a stable sort. *)
Fixpoint insert_by_start (x : span) (l : list span) : list span :=
  match l with
  | [] => [x]
  | y :: r => if fst x <=? fst y then x :: l else y :: insert_by_start x r
  end.

Definition sort_by_start (l : list span) : list span :=
  fold_right insert_by_start [] l.

(** Split a list into its front and its last element. *)
Fixpoint unsnoc {A} (l : list A) : option (list A * A) :=
  match l with
  | [] => None
  | x :: r =>
      match unsnoc r with
      | None => Some ([], x)
      | Some (front, z) => Some (x :: front, z)
      end
  end.

(** One iteration of the loop of [mergeIndices]: [merged] is the array
    built so far, [last] its last entry.  The offsets are integers in
    the range where the addition of doubles is exact (safe integers);
    the offsets of a span inside a text always are. *)
Definition merge_step (merged : list span) (sp : span) : list span :=
  let '(start, end_) := sp in
  match unsnoc merged with
  | Some (front, (lstart, lend)) =>
      if start <=? lend + 1
      then front ++ [(lstart, Z.max lend end_)]
      else merged ++ [(start, end_)]
  | None => merged ++ [(start, end_)]
  end.

Definition mergeIndices (ixs : list span) : list span :=
  fold_left merge_step (sort_by_start ixs) [].

(** One iteration of the emission loop of [getHighlightSegments]; the
    state is the [segments] array and [lastIndex]. *)
Definition emit_step (t : jsstring) (st : list HighlightSegment * Z) (sp : span)
  : list HighlightSegment * Z :=
  let '(segments, lastIndex) := st in
  let '(start, end_) := sp in
  let segments1 :=
    if start >? lastIndex
    then segments ++ [seg (slice t lastIndex start) false]
    else segments in
  (segments1 ++ [seg (slice t start (end_ + 1)) true], end_ + 1).

Definition match_has_key (k : jsstring) (m : FuseResultMatch) : bool :=
  match key m with
  | Some k' => JS.eqb k' k
  | None => false
  end.

Definition getHighlightSegments
    (t : jsstring) (matches : option (list FuseResultMatch)) (k : jsstring)
  : list HighlightSegment :=
  match matches with
  | None => [seg t false]
  | Some ms =>
      if (Nat.eqb (length ms) 0 || Nat.eqb (length t) 0)%bool
      then [seg t false]
      else
        match find (match_has_key k) ms with
        | None => [seg t false]
        | Some fieldMatch =>
            if Nat.eqb (length (indices fieldMatch)) 0
            then [seg t false]
            else
              let merged := mergeIndices (indices fieldMatch) in
              let '(segments, lastIndex) :=
                fold_left (emit_step t) merged ([], 0) in
              if lastIndex <? len t
              then segments ++ [seg (slice_from t lastIndex) false]
              else segments
        end
  end.

(** The concatenation of the segments' text, in emission order. *)
Definition joined (segs : list HighlightSegment) : jsstring :=
  concat (map text segs).

(** A span is valid in a text when [0 <= start <= end < length]. *)
Definition valid_span (t : jsstring) (sp : span) : Prop :=
  0 <= fst sp /\ fst sp <= snd sp /\ snd sp < len t.

(** The spans the resolver reads for field [k] are valid. *)
Definition valid_spans (t : jsstring) (ms : list FuseResultMatch) (k : jsstring) : Prop :=
  forall m, In m ms -> key m = Some k -> Forall (valid_span t) (indices m).

(** Numbers of unhighlighted code units between consecutive highlighted
    segments.  [gaps_after n segs] has seen [n] unhighlighted units since
    the last highlighted segment. *)
Fixpoint gaps_after (n : nat) (segs : list HighlightSegment) : list nat :=
  match segs with
  | [] => []
  | sg :: r =>
      if highlighted sg then n :: gaps_after 0 r
      else gaps_after (n + length (text sg)) r
  end.

Fixpoint highlight_gaps (segs : list HighlightSegment) : list nat :=
  match segs with
  | [] => []
  | sg :: r => if highlighted sg then gaps_after 0 r else highlight_gaps r
  end.

(** *** Notions used to state the resolver's properties *)

(** [separated lo l]: every span of [l] has [start <= end], the first
    starts at [lo] or after, and each next one starts at least two
    positions after the end of the one before it. *)
Fixpoint separated (lo : Z) (l : list span) : Prop :=
  match l with
  | [] => True
  | (s, e) :: r => lo <= s /\ s <= e /\ separated (e + 2) r
  end.

(** The bound the next span appended to [l] has to respect. *)
Fixpoint next_lo (lo : Z) (l : list span) : Z :=
  match l with
  | [] => lo
  | (_, e) :: r => next_lo (e + 2) r
  end.

(** The segments the emission loop appends, by recursion on the spans. *)
Fixpoint emit_rec (t : jsstring) (lastIndex : Z) (merged : list span)
  : list HighlightSegment :=
  match merged with
  | [] => []
  | (s, e) :: r =>
      (if s >? lastIndex then [seg (slice t lastIndex s) false] else [])
      ++ seg (slice t s (e + 1)) true :: emit_rec t (e + 1) r
  end.

(** The value of [lastIndex] when the loop ends. *)
Fixpoint last_index (lastIndex : Z) (merged : list span) : Z :=
  match merged with
  | [] => lastIndex
  | (_, e) :: r => last_index (e + 1) r
  end.

(** [m] covers [a]: every position of [a] is a position of [m]. *)
Definition covers (m a : span) : Prop :=
  fst m <= fst a /\ snd a <= snd m.

(** Two spans overlap or touch: no position lies strictly between them. *)
Definition touching (a b : span) : Prop :=
  fst b <= snd a + 1 /\ fst a <= snd b + 1.

Definition by_start (a b : span) : Prop := fst a <= fst b.

(** Every two consecutive highlighted segments are at least [n] code
    units apart. *)
Definition gaps_at_least (n : nat) (segs : list HighlightSegment) : Prop :=
  Forall (fun g => (n <= g)%nat) (highlight_gaps segs).

(** A match carrying spans for one field. *)
Definition field_match (k : jsstring) (ixs : list span) : FuseResultMatch :=
  {| key := Some k; indices := ixs; value := None |}.

(** *** Further notions: positions, masks, shapes *)

(** Position [i] lies in one of the spans of [l] (ends inclusive). *)
Definition inside (i : Z) (l : list span) : Prop :=
  exists m, In m l /\ fst m <= i <= snd m.

(** Whether code unit [i] of the text the segments make up lies in a
    highlighted segment; [off] is the offset of the first segment. *)
Fixpoint highlighted_at (segs : list HighlightSegment) (off i : Z) : bool :=
  match segs with
  | [] => false
  | sg :: r =>
      if i <? off + len (text sg)
      then (off <=? i) && highlighted sg
      else highlighted_at r (off + len (text sg)) i
  end.

(** Neighbouring segments differ in their [highlighted] flag. *)
Fixpoint alternating (segs : list HighlightSegment) : Prop :=
  match segs with
  | a :: r =>
      match r with
      | b :: _ => highlighted a <> highlighted b
      | [] => True
      end /\ alternating r
  | [] => True
  end.

(** A span with [start <= end]. *)
Definition wf_span (sp : span) : Prop := fst sp <= snd sp.

(** [Number.MAX_SAFE_INTEGER], 2^53 - 1. *)
Definition MAX_SAFE_INTEGER : Z := 2 ^ 53 - 1.

(** Both offsets of a span are safe integers.  Offsets are JS numbers:
    on safe integers [last[1] + 1], [Math.max] and the sign of
    [a[0] - b[0]] are exact, and [merge_step] is the loop body as it
    runs. *)
Definition safe_span (sp : span) : Prop :=
  - MAX_SAFE_INTEGER <= fst sp <= MAX_SAFE_INTEGER
  /\ - MAX_SAFE_INTEGER <= snd sp <= MAX_SAFE_INTEGER.


End Highlight.

(** ** The hook ([use-fuzzy-search.ts], [fuse-config.ts]) *)

Module Fuzzy.

(** An array value handed to the hook: its identity and its elements.
    [Object.is] on arrays looks at the identity only. *)
Record jsarray (A : Type) := mkArray {
  ref : nat;
  elems : list A
}.
Arguments mkArray {A} _ _.
Arguments ref {A} _.
Arguments elems {A} _.

Definition same_ref {A B} (a : jsarray A) (b : jsarray B) : bool :=
  Nat.eqb (ref a) (ref b).

(** Outcome of code that may throw. *)
Inductive result (E A : Type) : Type :=
| Ok (a : A)
| Throw (e : E).
Arguments Ok {E A} _.
Arguments Throw {E A} _.

Definition bind {E A B} (m : result E A) (f : A -> result E B) : result E B :=
  match m with
  | Ok a => f a
  | Throw e => Throw e
  end.

Notation "x <- m ;; k" := (bind m (fun x => k))
  (at level 61, m at next level, right associativity).

(** *** Engine interface (fuse.js) *)

Record FuseOptionKey := mkKey {
  name : jsstring;
  weight : Q
}.

Record FuseOptions := mkFuseOptions {
  includeScore : bool;
  includeMatches : bool;
  ignoreDiacritics : bool;
  ignoreLocation : bool;
  minMatchCharLength : Z;
  shouldSort : bool;
  fuse_keys : list FuseOptionKey;
  fuse_threshold : Q
}.

(** [{ ...BASE_FUSE_OPTIONS, keys, threshold }] *)
Definition BASE_FUSE_OPTIONS (ks : list FuseOptionKey) (th : Q) : FuseOptions :=
  {| includeScore := true;
     includeMatches := true;
     ignoreDiacritics := true;
     ignoreLocation := true;
     minMatchCharLength := 2;
     shouldSort := true;
     fuse_keys := ks;
     fuse_threshold := th |}.

Record FuseResult (T : Type) := mkFuseResult {
  r_item : T;
  refIndex : nat;
  r_score : option Q;
  r_matches : option (list FuseResultMatch)
}.
Arguments mkFuseResult {T} _ _ _ _.
Arguments r_item {T} _.
Arguments refIndex {T} _.
Arguments r_score {T} _.
Arguments r_matches {T} _.

(** The third-party engine: [new Fuse(docs, options)], which may throw,
    and [fuse.search(text)]. *)
Class FuseEngine (T : Type) := {
  Fuse : Type;
  FuseError : Type;
  Fuse_new : list T -> FuseOptions -> result FuseError Fuse;
  Fuse_search : Fuse -> jsstring -> list (FuseResult T)
}.

(** *** Hook types ([types.ts]) *)

Record UseFuzzySearchOptions := mkOptions {
  threshold : option Q;
  debounceMs : option Z;
  minChars : option Z;
  returnFuzzyMeta : option bool
}.

Record FuzzyResult (T : Type) := mkFuzzyResult {
  item : T;
  score : Q;
  matches : option (list FuseResultMatch);
  isFuzzy : bool
}.
Arguments mkFuzzyResult {T} _ _ _ _.
Arguments item {T} _.
Arguments score {T} _.
Arguments matches {T} _.
Arguments isFuzzy {T} _.

(** The arguments of one call of the hook. *)
Record Props (T : Type) := mkProps {
  items : jsarray T;
  query : jsstring;
  keys : jsarray FuseOptionKey;
  options : UseFuzzySearchOptions
}.
Arguments mkProps {T} _ _ _ _.
Arguments items {T} _.
Arguments query {T} _.
Arguments keys {T} _.
Arguments options {T} _.

(** The value the hook returns. *)
Record Output (T : Type) := mkOutput {
  results : list T;
  fuzzyResults : list (FuzzyResult T);
  isSearching : bool;
  isFuzzyMode : bool;
  debouncedQuery : jsstring
}.
Arguments mkOutput {T} _ _ _ _ _.
Arguments results {T} _.
Arguments fuzzyResults {T} _.
Arguments isSearching {T} _.
Arguments isFuzzyMode {T} _.
Arguments debouncedQuery {T} _.

(** The doubles nearest to 0.35 and 0.05. *)
Definition default_threshold : Q := 3152519739159347 # 9007199254740992.
Definition near_exact_cutoff : Q := 3602879701896397 # 72057594037927936.

(** Destructuring defaults: [threshold = 0.35, debounceMs = 200, minChars = 2]. *)
Definition threshold_of (o : UseFuzzySearchOptions) : Q :=
  match threshold o with Some x => x | None => default_threshold end.
Definition debounceMs_of (o : UseFuzzySearchOptions) : Z :=
  match debounceMs o with Some x => x | None => 200 end.
Definition minChars_of (o : UseFuzzySearchOptions) : Z :=
  match minChars o with Some x => x | None => 2 end.

(** [x > 0.05] *)
Definition above_cutoff (x : Q) : bool := negb (Qle_bool x near_exact_cutoff).

(** A pending [setTimeout]: its id, the time it is due, and the [q] its
    callback closes over. *)
Record Timer := mkTimer {
  tid : nat;
  due : Z;
  commit_value : jsstring
}.

(** [setTimeout] takes its delay as a signed 32-bit integer: 2^31 - 1
    is the largest delay it waits for.  The timer queue below is that
    of delays within this range. *)
Definition TIMEOUT_MAX : Z := 2 ^ 31 - 1.

Definition clearTimeout (id : nat) (tms : list Timer) : list Timer :=
  filter (fun tm => negb (Nat.eqb (tid tm) id)) tms.

(** The first-created timer among those with the least due time. *)
Fixpoint earliest (tms : list Timer) : option Timer :=
  match tms with
  | [] => None
  | tm :: r =>
      match earliest r with
      | Some tm' => if due tm' <? due tm then Some tm' else Some tm
      | None => Some tm
      end
  end.

Definition next_due (target : Z) (tms : list Timer) : option Timer :=
  earliest (filter (fun tm => due tm <=? target) tms).

Section Hook.

Context {T : Type} {engine : FuseEngine T}.

(** The [Fuse] instance the first [useMemo] returns, with its identity. *)
Record FuseInst := mkInst {
  fuse_id : nat;
  fuse_obj : Fuse
}.

Definition FuseDeps : Type := (jsarray T * jsarray FuseOptionKey * Q)%type.
Definition ResultsDeps : Type := (FuseInst * jsstring * jsarray T * Z)%type.
Definition EffectDeps : Type := (jsstring * Z * Z)%type.

(** Dependency comparison, [Object.is] component by component. *)
Definition same_fuse_deps (a b : FuseDeps) : bool :=
  let '(ia, ka, ta) := a in
  let '(ib, kb, tb) := b in
  same_ref ia ib && same_ref ka kb && Qeq_bool ta tb.

Definition same_results_deps (a b : ResultsDeps) : bool :=
  let '(fa, qa, ia, ma) := a in
  let '(fb, qb, ib, mb) := b in
  Nat.eqb (fuse_id fa) (fuse_id fb) && JS.eqb qa qb && same_ref ia ib && (ma =? mb).

Definition same_effect_deps (a b : EffectDeps) : bool :=
  let '(qa, da, ma) := a in
  let '(qb, db, mb) := b in
  JS.eqb qa qb && (da =? db) && (ma =? mb).

(** [useMemo]: the cached value when the dependencies are unchanged. *)
Definition useMemo {D V} (same : D -> D -> bool) (cell : option (D * V)) (deps : D)
  : option V :=
  match cell with
  | Some (d, v) => if same d deps then Some v else None
  | None => None
  end.

(** State of one mounted instance of the hook, with the timer queue of
    its environment and three ghost logs (index constructions, index
    queries, committed values). *)
Record State := mkState {
  props : option (Props T);
  cell_debouncedQuery : jsstring;
  cell_isSearching : bool;
  timerRef : option nat;
  effectDeps : option EffectDeps;
  effectCleanup : bool;
  fuseMemo : option (FuseDeps * FuseInst);
  resultsMemo : option (ResultsDeps * list (FuzzyResult T));
  output : option (Output T);
  now : Z;
  timers : list Timer;
  nextTimer : nat;
  builds : nat;
  searches : list jsstring;
  commits : list jsstring
}.

Definition init : State :=
  {| props := None;
     cell_debouncedQuery := [];
     cell_isSearching := false;
     timerRef := None;
     effectDeps := None;
     effectCleanup := false;
     fuseMemo := None;
     resultsMemo := None;
     output := None;
     now := 0;
     timers := [];
     nextTimer := 1;
     builds := 0;
     searches := [];
     commits := [] |}.

(** [useState(query)], [useState(false)], [useRef()]: the initial value
    on the first render, the cell afterwards. *)
Definition read_debouncedQuery (s : State) (p : Props T) : jsstring :=
  match props s with None => query p | Some _ => cell_debouncedQuery s end.
Definition read_isSearching (s : State) : bool :=
  match props s with None => false | Some _ => cell_isSearching s end.
Definition read_timerRef (s : State) : option nat :=
  match props s with None => None | Some _ => timerRef s end.

Definition unranked (it : T) : FuzzyResult T :=
  {| item := it; score := 0; matches := None; isFuzzy := false |}.

Definition score_or_1 (r : FuseResult T) : Q :=
  match r_score r with Some x => x | None => 1 end.

Definition ranked (r : FuseResult T) : FuzzyResult T :=
  {| item := r_item r;
     score := score_or_1 r;
     matches := r_matches r;
     isFuzzy := above_cutoff (score_or_1 r) |}.

(** The factory of the second [useMemo]; the second component lists the
    texts it sent to [fuse.search]. *)
Definition fuzzyResults_factory (d : ResultsDeps)
  : list (FuzzyResult T) * list jsstring :=
  let '(fuse, dq, its, mc) := d in
  let q := trim dq in
  if Nat.eqb (length q) 0 then (map unranked (elems its), [])
  else if len q <? mc then (map unranked (elems its), [])
  else (map ranked (Fuse_search (fuse_obj fuse) q), [q]).

Definition fuzzyMode (mc : Z) (dq : jsstring) (frs : list (FuzzyResult T)) : bool :=
  (mc <=? len (trim dq)) && negb (Nat.eqb (length frs) 0) && existsb isFuzzy frs.

(** The dependency arrays of the three hooks of a call. *)
Definition fuse_deps_of (p : Props T) : FuseDeps :=
  (items p, keys p, threshold_of (options p)).
Definition results_deps_of (fuse : FuseInst) (dq : jsstring) (p : Props T) : ResultsDeps :=
  (fuse, dq, items p, minChars_of (options p)).
Definition effect_deps_of (p : Props T) : EffectDeps :=
  (query p, debounceMs_of (options p), minChars_of (options p)).

(** [const fuse = useMemo(() => new Fuse(items, {...}), [items, keys, threshold])]:
    the new memo cell, the instance, and the count of constructions. *)
Definition fuse_memo (s : State) (p : Props T)
  : result FuseError (option (FuseDeps * FuseInst) * FuseInst * nat) :=
  match useMemo same_fuse_deps (fuseMemo s) (fuse_deps_of p) with
  | Some fuse => Ok (fuseMemo s, fuse, builds s)
  | None =>
      obj <- Fuse_new (elems (items p))
               (BASE_FUSE_OPTIONS (elems (keys p)) (threshold_of (options p))) ;;
      let fuse := mkInst (S (builds s)) obj in
      Ok (Some (fuse_deps_of p, fuse), fuse, S (builds s))
  end.

(** [const fuzzyResults = useMemo(..., [fuse, debouncedQuery, items, minChars])]:
    the new memo cell, the value, and the log of index queries. *)
Definition fuzzyResults_memo (s : State) (rdeps : ResultsDeps)
  : option (ResultsDeps * list (FuzzyResult T)) * list (FuzzyResult T) * list jsstring :=
  match useMemo same_results_deps (resultsMemo s) rdeps with
  | Some frs => (resultsMemo s, frs, searches s)
  | None =>
      let '(frs, sent) := fuzzyResults_factory rdeps in
      (Some (rdeps, frs), frs, searches s ++ sent)
  end.

(** The object the hook returns. *)
Definition view (mc : Z) (dq : jsstring) (searching : bool)
    (frs : list (FuzzyResult T)) : Output T :=
  {| results := map item frs;
     fuzzyResults := frs;
     isSearching := searching;
     isFuzzyMode := fuzzyMode mc dq frs;
     debouncedQuery := dq |}.

(** The body of the hook, one render.  The effect it registers is
    [useEffect_debounce] below, which React runs after the render. *)
Definition useFuzzySearch (s : State) (p : Props T)
  : result FuseError (State * Output T) :=
  let mc := minChars_of (options p) in
  let dq := read_debouncedQuery s p in
  let searching := read_isSearching s in
  fm <- fuse_memo s p ;;
  let '(fcell, fuse, nbuilds) := fm in
  let '(rcell, frs, nsearches) :=
    fuzzyResults_memo s (results_deps_of fuse dq p) in
  let out := view mc dq searching frs in
  Ok ({| props := Some p;
         cell_debouncedQuery := dq;
         cell_isSearching := searching;
         timerRef := read_timerRef s;
         effectDeps := effectDeps s;
         effectCleanup := effectCleanup s;
         fuseMemo := fcell;
         resultsMemo := rcell;
         output := Some out;
         now := now s;
         timers := timers s;
         nextTimer := nextTimer s;
         builds := nbuilds;
         searches := nsearches;
         commits := commits s |}, out).

(** The guard of the effect: trimmed input non-empty but below [minChars]. *)
Definition below_min (q : jsstring) (mc : Z) : bool :=
  (len q >? 0) && (len q <? mc).

(** The cleanup closure: [if (timerRef.current) clearTimeout(timerRef.current)]. *)
Definition run_cleanup (s : State) : list Timer :=
  if effectCleanup s then
    match timerRef s with
    | Some id => if Nat.eqb id 0 then timers s else clearTimeout id (timers s)
    | None => timers s
    end
  else timers s.

(** The debounce effect, with dependencies [query, debounceMs, minChars]:
    when they changed, the cleanup returned by the previous run is
    called, then the effect body.  The timer is due [debounceMs] after
    the call, as [setTimeout] has it for delays up to [TIMEOUT_MAX]. *)
Definition useEffect_debounce (p : Props T) (s : State) : State :=
  let ms := debounceMs_of (options p) in
  let mc := minChars_of (options p) in
  let deps := effect_deps_of p in
  let unchanged :=
    match effectDeps s with
    | Some d => same_effect_deps d deps
    | None => false
    end in
  if unchanged then s
  else
    let pending := run_cleanup s in
    let q := trim (query p) in
    if below_min q mc then
      {| props := props s;
         cell_debouncedQuery := cell_debouncedQuery s;
         cell_isSearching := cell_isSearching s;
         timerRef := timerRef s;
         effectDeps := Some deps;
         effectCleanup := false;
         fuseMemo := fuseMemo s;
         resultsMemo := resultsMemo s;
         output := output s;
         now := now s;
         timers := pending;
         nextTimer := nextTimer s;
         builds := builds s;
         searches := searches s;
         commits := commits s |}
    else
      {| props := props s;
         cell_debouncedQuery := cell_debouncedQuery s;
         cell_isSearching := true;
         timerRef := Some (nextTimer s);
         effectDeps := Some deps;
         effectCleanup := true;
         fuseMemo := fuseMemo s;
         resultsMemo := resultsMemo s;
         output := output s;
         now := now s;
         timers := pending ++ [mkTimer (nextTimer s) (now s + Z.max 0 ms) q];
         nextTimer := S (nextTimer s);
         builds := builds s;
         searches := searches s;
         commits := commits s |}.

(** React: a render, then the effects whose dependencies changed. *)
Definition render_once (p : Props T) (s : State) : result FuseError State :=
  r <- useFuzzySearch s p ;;
  Ok (useEffect_debounce p (fst r)).

(** React: a state update renders the component again with the props of
    the last render. *)
Definition rerender (s : State) : result FuseError State :=
  match props s with
  | Some p => render_once p s
  | None => Ok s
  end.

(** The timer callback [() => { setDebouncedQuery(q); setIsSearching(false) }],
    run when timer [tm] fires, and the render its state updates cause. *)
Definition fire (tm : Timer) (s : State) : result FuseError State :=
  rerender
    {| props := props s;
       cell_debouncedQuery := commit_value tm;
       cell_isSearching := false;
       timerRef := timerRef s;
       effectDeps := effectDeps s;
       effectCleanup := effectCleanup s;
       fuseMemo := fuseMemo s;
       resultsMemo := resultsMemo s;
       output := output s;
       now := Z.max (now s) (due tm);
       timers := clearTimeout (tid tm) (timers s);
       nextTimer := nextTimer s;
       builds := builds s;
       searches := searches s;
       commits := commits s ++ [commit_value tm] |}.

(** Fire, in due order, the timers due at [target] or before. *)
Fixpoint run_timers (fuel : nat) (target : Z) (s : State) : result FuseError State :=
  match fuel with
  | O => Ok s
  | S fuel' =>
      match next_due target (timers s) with
      | None => Ok s
      | Some tm => s' <- fire tm s ;; run_timers fuel' target s'
      end
  end.

Definition set_now (t : Z) (s : State) : State :=
  {| props := props s;
     cell_debouncedQuery := cell_debouncedQuery s;
     cell_isSearching := cell_isSearching s;
     timerRef := timerRef s;
     effectDeps := effectDeps s;
     effectCleanup := effectCleanup s;
     fuseMemo := fuseMemo s;
     resultsMemo := resultsMemo s;
     output := output s;
     now := t;
     timers := timers s;
     nextTimer := nextTimer s;
     builds := builds s;
     searches := searches s;
     commits := commits s |}.

(** Let [dt] milliseconds pass. *)
Definition advance (dt : Z) (s : State) : result FuseError State :=
  let target := now s + Z.max 0 dt in
  s' <- run_timers (length (timers s)) target s ;;
  Ok (set_now target s').

(** What happens to an instance: the caller renders it with new
    arguments, or time passes. *)
Inductive Event :=
| Render (p : Props T)
| Tick (dt : Z).

Definition step (ev : Event) (s : State) : result FuseError State :=
  match ev with
  | Render p => s1 <- render_once p s ;; rerender s1
  | Tick dt => advance dt s
  end.

Fixpoint run (evs : list Event) (s : State) : result FuseError State :=
  match evs with
  | [] => Ok s
  | ev :: r => s' <- step ev s ;; run r s'
  end.

Inductive reachable : State -> Prop :=
| reach_init : reachable init
| reach_step ev s s' : reachable s -> step ev s = Ok s' -> reachable s'.

(** The same call with another raw query. *)
Definition with_query (p : Props T) (q : jsstring) : Props T :=
  {| items := items p; query := q; keys := keys p; options := options p |}.

(** The inputs of index construction are unchanged between two calls. *)
Definition same_index_inputs (p0 p : Props T) : bool :=
  same_fuse_deps (fuse_deps_of p0) (fuse_deps_of p).

(** The guard of the effect holds for the raw query of a call. *)
Definition guarded (p : Props T) : bool :=
  below_min (trim (query p)) (minChars_of (options p)).

(** *** Invariants of the reachable states *)

(** The debounce machinery after a call with arguments [p]: the effect
    has seen the dependencies of [p]; below [minChars] nothing is
    pending and no cleanup is registered; otherwise a cleanup is
    registered and the only timer that can be pending is the one
    [timerRef] holds, carrying the trimmed raw query. *)
Definition ctl_ok (s : State) (p : Props T) : Prop :=
  effectDeps s = Some (effect_deps_of p)
  /\ (1 <= nextTimer s)%nat
  /\ if guarded p
     then timers s = [] /\ effectCleanup s = false
     else effectCleanup s = true
          /\ exists id, timerRef s = Some id /\ id <> O
               /\ (timers s = []
                   \/ (cell_isSearching s = true
                       /\ exists d, timers s = [mkTimer id d (trim (query p))])).

(** The memo cells after a call with arguments [p]: both hold values
    for the current dependencies, the cached list is what its factory
    computes, and the stored output is the view of the cells. *)
Definition memo_ok (s : State) (p : Props T) : Prop :=
  exists d f rd frs,
    fuseMemo s = Some (d, f)
    /\ same_fuse_deps d (fuse_deps_of p) = true
    /\ resultsMemo s = Some (rd, frs)
    /\ same_results_deps rd (results_deps_of f (cell_debouncedQuery s) p) = true
    /\ frs = fst (fuzzyResults_factory rd)
    /\ output s = Some (view (minChars_of (options p)) (cell_debouncedQuery s)
                         (cell_isSearching s) frs).

(** The cached list, when there is one, is what its factory computes. *)
Definition memo_val (s : State) : Prop :=
  forall rd frs, resultsMemo s = Some (rd, frs) ->
                 frs = fst (fuzzyResults_factory rd).

(** Nothing of the debounce machinery has run yet. *)
Definition fresh_ctl (s : State) : Prop :=
  effectDeps s = None /\ timers s = [] /\ effectCleanup s = false
  /\ (1 <= nextTimer s)%nat.

Definition Inv (s : State) : Prop :=
  match props s with
  | Some p => ctl_ok s p /\ memo_ok s p
  | None => s = set_now (now s) init
  end.

(** The cached items array was not mutated in place since the cached
    list was computed. *)
Definition items_unmutated (s : State) (p : Props T) : Prop :=
  forall f dq its mc frs,
    resultsMemo s = Some ((f, dq, its, mc), frs) ->
    ref its = ref (items p) -> elems its = elems (items p).

(** A burst of raw-query updates: each arrives [dt] milliseconds after
    the previous event. *)
Definition burst (p : Props T) (us : list (Z * jsstring)) : list Event :=
  flat_map (fun u => [Tick (fst u); Render (with_query p (snd u))]) us.

(** Every update of the sequence changes the raw query. *)
Fixpoint changing (q0 : jsstring) (qs : list jsstring) : Prop :=
  match qs with
  | [] => True
  | q :: r => q <> q0 /\ changing q r
  end.

(** An event under which the raw query stays below [minChars]. *)
Definition quiet (p0 : Props T) (ev : Event) : Prop :=
  match ev with
  | Tick _ => True
  | Render p => exists q, p = with_query p0 q /\ guarded (with_query p0 q) = true
  end.

(** What is pending after an update to raw query [q]. *)
Definition pending_shape (p0 : Props T) (s : State) (q : jsstring) : Prop :=
  if guarded (with_query p0 q)
  then timers s = []
  else exists id,
         timers s = [mkTimer id (now s + Z.max 0 (debounceMs_of (options p0)))
                       (trim q)].

(** The first update of a burst: the first call of a fresh instance, on
    inputs the engine builds an index from, or a call that changes the
    raw query of a mounted instance. *)
Definition first_update (s : State) (p0 : Props T) (q1 : jsstring) : Prop :=
  match props s with
  | Some p => p = p0 /\ q1 <> query p0
  | None =>
      exists obj,
        Fuse_new (elems (items p0))
          (BASE_FUSE_OPTIONS (elems (keys p0)) (threshold_of (options p0))) = Ok obj
  end.

(** The state a fresh instance is in after a list of events. *)
Definition state_after (evs : list Event) : State :=
  match run evs init with
  | Ok s => s
  | Throw _ => init
  end.

(** An event that leaves the inputs of index construction alone. *)
Definition keeps_index_inputs (p0 : Props T) (ev : Event) : Prop :=
  match ev with
  | Tick _ => True
  | Render p => same_index_inputs p0 p = true
  end.

(** *** Further notions *)

(** The cells right after the callback of timer [tm] ran, before the
    render its state updates cause: [fire tm s] is [rerender] of it. *)
Definition fired (tm : Timer) (s : State) : State :=
  {| props := props s;
     cell_debouncedQuery := commit_value tm;
     cell_isSearching := false;
     timerRef := timerRef s;
     effectDeps := effectDeps s;
     effectCleanup := effectCleanup s;
     fuseMemo := fuseMemo s;
     resultsMemo := resultsMemo s;
     output := output s;
     now := Z.max (now s) (due tm);
     timers := clearTimeout (tid tm) (timers s);
     nextTimer := nextTimer s;
     builds := builds s;
     searches := searches s;
     commits := commits s ++ [commit_value tm] |}.

(** The [Fuse] instance a cached list was computed with. *)
Definition results_fuse (rd : ResultsDeps) : FuseInst := fst (fst (fst rd)).

(** The two memo cells fit together: the memoised instance is what the
    engine constructed from the memoised items, keys and threshold, its
    identity is not newer than the construction count, and a cached
    list was computed with the memoised instance or with an older one. *)
Definition memo_coherent (s : State) : Prop :=
  (forall d f, fuseMemo s = Some (d, f) ->
     (fuse_id f <= builds s)%nat
     /\ Fuse_new (elems (fst (fst d)))
          (BASE_FUSE_OPTIONS (elems (snd (fst d))) (snd d)) = Ok (fuse_obj f))
  /\ (forall rd frs, resultsMemo s = Some (rd, frs) ->
        exists d f, fuseMemo s = Some (d, f)
          /\ (results_fuse rd = f
              \/ (fuse_id (results_fuse rd) < fuse_id f)%nat)).

(** The calls of an event satisfy [okp]. *)
Definition event_ok (okp : Props T -> Prop) (ev : Event) : Prop :=
  match ev with
  | Render p => okp p
  | Tick _ => True
  end.

(** A text as the hook sends it to the index: non-empty, without
    leading or trailing whitespace. *)
Definition sent_ok (q : jsstring) : Prop := q <> [] /\ trim q = q.

(** The first code unit, if any, is not whitespace. *)
Definition head_ok (l : jsstring) : Prop :=
  match l with
  | c :: _ => is_space c = false
  | [] => True
  end.


End Hook.

(** *** A small engine to run the hook on

    Documents are their names; a query matches the documents it is a
    prefix of, with score 0 when it equals the name and 0.1 otherwise.
    Its constructor accepts every configuration. *)

Fixpoint is_prefix (q d : jsstring) : bool :=
  match q, d with
  | [], _ => true
  | x :: q', y :: d' => N.eqb x y && is_prefix q' d'
  | _ :: _, [] => false
  end.

Definition prefix_search (docs : list jsstring) (q : jsstring)
  : list (FuseResult jsstring) :=
  map (fun x => mkFuseResult (snd x) (fst x)
                  (Some (if JS.eqb q (snd x) then 0 else 1 # 10)%Q) None)
      (filter (fun x => is_prefix q (snd x))
              (combine (seq 0 (length docs)) docs)).

#[export] Instance prefix_engine : FuseEngine jsstring :=
  {| Fuse := list jsstring;
     FuseError := Empty_set;
     Fuse_new := fun docs _ => Ok docs;
     Fuse_search := prefix_search |}.

Definition demo_items : jsarray jsstring :=
  mkArray 1 [lit "efferalgan"; lit "doliprane"].
Definition demo_keys : jsarray FuseOptionKey :=
  mkArray 2 [mkKey (lit "name") 1].
Definition no_options : UseFuzzySearchOptions :=
  mkOptions None None None None.

(** A call with the default options. *)
Definition demo (q : jsstring) : Props jsstring :=
  mkProps demo_items q demo_keys no_options.

(** A call with no key and a zero threshold. *)
Definition unconfigured : Props jsstring :=
  mkProps demo_items (lit "ef") (mkArray 3 []) (mkOptions (Some 0%Q) None None None).


(** The instance after its first render with an empty query and the
    first delay; then with "ef" typed and the delay still pending. *)
Definition settled_empty : @State jsstring prefix_engine :=
  state_after [Render (demo []); Tick 200].
Definition typing_ef : @State jsstring prefix_engine :=
  state_after [Render (demo []); Tick 200; Render (demo (lit "ef"))].
Definition committed_ef : @State jsstring prefix_engine :=
  state_after [Render (demo []); Tick 200; Render (demo (lit "ef")); Tick 200].

(** The keystrokes "ef" then, 50 ms later, back to "e", and a long wait. *)
Definition ef_then_e : list (@Event jsstring) :=
  [Render (demo (lit "ef")); Tick 50; Render (demo (lit "e")); Tick 100000].


End Fuzzy.

(** ** The highlighted-text component ([SearchHighlight.tsx]) *)

Module SearchView.

(** A React element tree: text nodes and elements with their tag, key,
    class name and children. *)
#[local] Set Warnings "-register-all".
Inductive Node :=
| Text (s : jsstring)
| Element (tag : string) (key : option nat) (className : option string)
          (children : list Node).

(** [Node.textContent] *)
Fixpoint textContent (n : Node) : jsstring :=
  match n with
  | Text s => s
  | Element _ _ _ cs => concat (map textContent cs)
  end.

Definition children (n : Node) : list Node :=
  match n with
  | Text _ => []
  | Element _ _ _ cs => cs
  end.

Definition is_mark (n : Node) : bool :=
  match n with
  | Text _ => false
  | Element tag _ _ _ => String.eqb tag "mark"
  end.

Record SearchHighlightProps := mkSearchHighlightProps {
  text : jsstring;
  fieldKey : jsstring;
  matches : option (list FuseResultMatch);
  highlightClassName : option string;
  className : option string
}.

(** [array.map((x, i) => f(i, x))], counting from [i]. *)
Fixpoint mapi_from {A B} (i : nat) (f : nat -> A -> B) (l : list A) : list B :=
  match l with
  | [] => []
  | x :: r => f i x :: mapi_from (S i) f r
  end.

Section Render.

(** [cn] of [@/lib/utils], which joins class names. *)
Variable cn : string -> option string -> string.

Definition mark_class : string :=
  "bg-primary/20 text-primary-foreground rounded-sm px-0.5 font-semibold".

(** What one segment renders to: a [mark] or a [span], keyed by its index. *)
Definition render_segment (hc : option string) (i : nat)
    (sg : Highlight.HighlightSegment) : Node :=
  if Highlight.highlighted sg
  then Element "mark" (Some i) (Some (cn mark_class hc)) [Text (Highlight.text sg)]
  else Element "span" (Some i) None [Text (Highlight.text sg)].

Definition SearchHighlight (p : SearchHighlightProps) : Node :=
  let segments := Highlight.getHighlightSegments (text p) (matches p) (fieldKey p) in
  let hasHighlight := existsb Highlight.highlighted segments in
  if negb hasHighlight
  then Element "span" None (className p) [Text (text p)]
  else Element "span" None (className p)
         (mapi_from 0 (render_segment (highlightClassName p)) segments).

End Render.

End SearchView.


(** ** The image carousel ([HeroCarousel.tsx]) *)

Module Carousel.

Definition hero_images : list string :=
  ["/images/pharmacy-1.jpg"; "/images/pharmacy-2.jpg"; "/images/pharmacy-3.jpg"]%string.

Section Slides.

(** The [images] array of the component. *)
Variable images : list string.

Definition count : Z := Z.of_nat (length images).

(** [(c) => (c + 1) % images.length]; [%] is the remainder that takes
    the sign of the dividend. *)
Definition next (c : Z) : Z := Z.rem (c + 1) count.

(** [(c) => (c - 1 + images.length) % images.length] *)
Definition prev (c : Z) : Z := Z.rem (c - 1 + count) count.

(** What changes [current]: the two arrow buttons, the dot of image
    [i], and the 5 s interval, whose callback is [next]. *)
Inductive Action :=
| ClickNext
| ClickPrev
| ClickDot (i : nat)
| Interval.

Definition update (c : Z) (a : Action) : Z :=
  match a with
  | ClickNext => next c
  | ClickPrev => prev c
  | ClickDot i => Z.of_nat i
  | Interval => next c
  end.

(** A dot exists for each index of [images] only. *)
Definition possible (a : Action) : Prop :=
  match a with
  | ClickDot i => (i < length images)%nat
  | _ => True
  end.

(** [current] after a list of actions, starting from [useState(0)]. *)
Definition current_after (acts : list Action) : Z := fold_left update acts 0.

(** For each image, whether it gets the class [opacity-100]
    ([i === current]). *)
Definition shown (c : Z) : list bool :=
  map (fun i => Z.of_nat i =? c) (seq 0 (length images)).

End Slides.

End Carousel.


(** * Properties of the highlight resolver *)

Module HighlightFacts.

Import Highlight.

(** ** Strings and slices *)

Lemma eqb_eq (a b : jsstring) : JS.eqb a b = true <-> a = b.
Proof.
  revert b. induction a as [|x a IH]; intros [|y b]; simpl; split;
    try congruence; try reflexivity.
  - intros H. apply andb_true_iff in H as [Hx Hr].
    apply N.eqb_eq in Hx. apply IH in Hr. congruence.
  - intros H. injection H as -> ->. rewrite N.eqb_refl. simpl. now apply IH.
Qed.

Lemma eqb_refl (a : jsstring) : JS.eqb a a = true.
Proof. now apply eqb_eq. Qed.

Lemma firstn_add {A} (a n : nat) (l : list A) :
  firstn (a + n) l = firstn a l ++ firstn n (skipn a l).
Proof.
  revert l. induction a as [|a IH]; intros l; simpl.
  - reflexivity.
  - destruct l as [|x l]; simpl.
    + now rewrite firstn_nil.
    + now rewrite IH.
Qed.

Lemma slice_inside (t : jsstring) (a b : Z) :
  0 <= a -> a <= b -> b <= len t ->
  slice t a b = firstn (Z.to_nat (b - a)) (skipn (Z.to_nat a) t).
Proof.
  intros Ha Hab Hb. unfold slice, rel_index.
  destruct (a <? 0) eqn:Ea; [apply Z.ltb_lt in Ea; lia|].
  destruct (b <? 0) eqn:Eb; [apply Z.ltb_lt in Eb; lia|].
  rewrite !Z.min_l by lia. reflexivity.
Qed.

Lemma slice_length (t : jsstring) (a b : Z) :
  0 <= a -> a <= b -> b <= len t ->
  Z.of_nat (length (slice t a b)) = b - a.
Proof.
  intros Ha Hab Hb. rewrite slice_inside by assumption.
  rewrite length_firstn, length_skipn. unfold len in Hb. lia.
Qed.

Lemma prefix_slice (t : jsstring) (a b : Z) :
  0 <= a -> a <= b -> b <= len t ->
  firstn (Z.to_nat a) t ++ slice t a b = firstn (Z.to_nat b) t.
Proof.
  intros Ha Hab Hb. rewrite slice_inside by assumption.
  rewrite <- firstn_add. f_equal. lia.
Qed.

Lemma prefix_slice_from (t : jsstring) (a : Z) :
  0 <= a -> a <= len t ->
  firstn (Z.to_nat a) t ++ slice_from t a = t.
Proof.
  intros Ha Hb. unfold slice_from. rewrite prefix_slice by lia.
  unfold len. rewrite Nat2Z.id. apply firstn_all.
Qed.

(** ** Sorting by start offset *)

Lemma insert_by_start_perm (x : span) (l : list span) :
  Permutation (x :: l) (insert_by_start x l).
Proof.
  induction l as [|y r IH]; simpl.
  - apply Permutation_refl.
  - destruct (fst x <=? fst y).
    + apply Permutation_refl.
    + eapply Permutation_trans; [apply perm_swap|]. now apply perm_skip.
Qed.

Lemma sort_by_start_perm (l : list span) : Permutation l (sort_by_start l).
Proof.
  induction l as [|x l IH]; simpl.
  - apply perm_nil.
  - eapply Permutation_trans; [|apply insert_by_start_perm]. now apply perm_skip.
Qed.

Lemma insert_by_start_sorted (x : span) (l : list span) :
  StronglySorted by_start l -> StronglySorted by_start (insert_by_start x l).
Proof.
  induction 1 as [|y r Hr IH Hy]; simpl.
  - constructor; constructor.
  - destruct (fst x <=? fst y) eqn:E.
    + apply Z.leb_le in E. constructor.
      * now constructor.
      * constructor; [exact E|].
        eapply Forall_impl; [|exact Hy]. unfold by_start. intros z Hz. lia.
    + apply Z.leb_gt in E. constructor; [exact IH|].
      eapply Permutation_Forall; [apply insert_by_start_perm|].
      constructor; [unfold by_start; lia | exact Hy].
Qed.

Lemma sort_by_start_sorted (l : list span) :
  StronglySorted by_start (sort_by_start l).
Proof.
  induction l as [|x l IH]; simpl.
  - constructor.
  - now apply insert_by_start_sorted.
Qed.

Lemma sort_by_start_in (l : list span) (x : span) :
  In x (sort_by_start l) <-> In x l.
Proof.
  split; apply Permutation_in;
    [apply Permutation_sym|]; apply sort_by_start_perm.
Qed.

Lemma sort_by_start_Forall (P : span -> Prop) (l : list span) :
  Forall P l -> Forall P (sort_by_start l).
Proof. apply Permutation_Forall, sort_by_start_perm. Qed.

(** ** The merge loop *)

Lemma unsnoc_none {A} (l : list A) : unsnoc l = None -> l = [].
Proof.
  destruct l as [|x r]; simpl; [reflexivity|].
  destruct (unsnoc r) as [[f z]|]; discriminate.
Qed.

Lemma unsnoc_some {A} (l f : list A) (z : A) :
  unsnoc l = Some (f, z) -> l = f ++ [z].
Proof.
  revert f. induction l as [|x r IH]; simpl; intros f H; [discriminate|].
  destruct (unsnoc r) as [[f' z']|] eqn:E.
  - injection H as <- <-. simpl. f_equal. now apply IH.
  - injection H as <- <-. apply unsnoc_none in E. now subst.
Qed.

Lemma separated_mono (lo lo' : Z) (l : list span) :
  lo' <= lo -> separated lo l -> separated lo' l.
Proof. destruct l as [|[s e] r]; simpl; [trivial|]. intros ? (? & ? & ?). repeat split; trivial; lia. Qed.

Lemma separated_snoc (lo : Z) (l : list span) (s e : Z) :
  separated lo (l ++ [(s, e)]) <->
  separated lo l /\ next_lo lo l <= s /\ s <= e.
Proof.
  revert lo. induction l as [|[s' e'] r IH]; intros lo; simpl.
  - tauto.
  - rewrite IH. tauto.
Qed.

Lemma next_lo_snoc (lo : Z) (l : list span) (s e : Z) :
  next_lo lo (l ++ [(s, e)]) = e + 2.
Proof. revert lo. induction l as [|[s' e'] r IH]; intros lo; simpl; auto. Qed.

Lemma merge_step_separated (lo : Z) (M : list span) (s e : Z) :
  separated lo M -> lo <= s -> s <= e -> separated lo (merge_step M (s, e)).
Proof.
  intros HM Hlo Hse. unfold merge_step.
  destruct (unsnoc M) as [[front [ls le]]|] eqn:E.
  - apply unsnoc_some in E. subst M.
    pose proof (proj1 (separated_snoc _ _ _ _) HM) as (Hf & Hn & Hl).
    destruct (s <=? le + 1) eqn:C.
    + apply separated_snoc. repeat split; trivial. lia.
    + apply Z.leb_gt in C. apply separated_snoc. repeat split; trivial.
      rewrite next_lo_snoc. lia.
  - apply unsnoc_none in E. subst M. simpl. auto.
Qed.

Lemma merge_fold_separated (lo : Z) (rest M : list span) :
  Forall (fun sp => lo <= fst sp /\ fst sp <= snd sp) rest ->
  separated lo M -> separated lo (fold_left merge_step rest M).
Proof.
  revert M. induction rest as [|[s e] r IH]; intros M Hr HM; simpl; [exact HM|].
  inversion Hr as [|? ? [H1 H2] Hr']; subst. simpl in *.
  apply IH; [exact Hr'|]. now apply merge_step_separated.
Qed.

Lemma merge_step_bound (hi : Z) (M : list span) (sp : span) :
  Forall (fun m => snd m < hi) M -> snd sp < hi ->
  Forall (fun m => snd m < hi) (merge_step M sp).
Proof.
  intros HM Hsp. destruct sp as [s e]. unfold merge_step.
  destruct (unsnoc M) as [[front [ls le]]|] eqn:E.
  - apply unsnoc_some in E. subst M. apply Forall_app in HM as [Hf Hl].
    inversion Hl as [|? ? Hle _]; subst. simpl in *.
    destruct (s <=? le + 1).
    + apply Forall_app. split; [exact Hf|]. constructor; [simpl; lia | constructor].
    + apply Forall_app. split.
      * apply Forall_app. split; [exact Hf|]. now repeat constructor.
      * now repeat constructor.
  - apply Forall_app. split; [exact HM|]. now repeat constructor.
Qed.

Lemma merge_fold_bound (hi : Z) (rest M : list span) :
  Forall (fun m => snd m < hi) rest -> Forall (fun m => snd m < hi) M ->
  Forall (fun m => snd m < hi) (fold_left merge_step rest M).
Proof.
  revert M. induction rest as [|sp r IH]; intros M Hr HM; simpl; [exact HM|].
  inversion Hr; subst. apply IH; [assumption|]. now apply merge_step_bound.
Qed.

(** Coverage: with the spans taken in ascending start order, every span
    seen so far lies inside one merged span. *)

Lemma covers_refl (a : span) : covers a a.
Proof. unfold covers. lia. Qed.

Lemma covers_trans (a b c : span) : covers a b -> covers b c -> covers a c.
Proof. unfold covers. lia. Qed.

Lemma merge_step_covers (M : list span) (s e : Z) :
  (forall m, In m M -> fst m <= s) ->
  (forall m, In m M -> exists m', In m' (merge_step M (s, e)) /\ covers m' m)
  /\ (exists m', In m' (merge_step M (s, e)) /\ covers m' (s, e))
  /\ (forall m', In m' (merge_step M (s, e)) ->
        (exists m, In m M /\ fst m' = fst m) \/ fst m' = s).
Proof.
  intros Hs. unfold merge_step.
  destruct (unsnoc M) as [[front [ls le]]|] eqn:E.
  - apply unsnoc_some in E. subst M.
    destruct (s <=? le + 1) eqn:C.
    + assert (Hls : ls <= s).
      { apply (Hs (ls, le)). apply in_or_app. right. now left. }
      repeat split.
      * intros m Hm. apply in_app_or in Hm as [Hm|[<-|[]]].
        -- exists m. split; [apply in_or_app; now left | apply covers_refl].
        -- exists (ls, Z.max le e). split; [apply in_or_app; right; now left|].
           unfold covers. simpl. lia.
      * exists (ls, Z.max le e). split; [apply in_or_app; right; now left|].
        unfold covers. simpl. lia.
      * intros m' Hm'. left. apply in_app_or in Hm' as [Hm'|[<-|[]]].
        -- exists m'. split; [apply in_or_app; now left | reflexivity].
        -- exists (ls, le). split; [apply in_or_app; right; now left | reflexivity].
    + repeat split.
      * intros m Hm. exists m. split; [apply in_or_app; now left | apply covers_refl].
      * exists (s, e). split; [apply in_or_app; right; now left | apply covers_refl].
      * intros m' Hm'. apply in_app_or in Hm' as [Hm'|[<-|[]]].
        -- left. now exists m'.
        -- now right.
  - apply unsnoc_none in E. subst M. simpl. repeat split.
    + intros m [].
    + exists (s, e). split; [now left | apply covers_refl].
    + intros m' [<-|[]]. now right.
Qed.

Lemma merge_fold_covers (rest M : list span) :
  StronglySorted by_start rest ->
  (forall m x, In m M -> In x rest -> fst m <= fst x) ->
  (forall m, In m M -> exists m', In m' (fold_left merge_step rest M) /\ covers m' m)
  /\ (forall x, In x rest -> exists m', In m' (fold_left merge_step rest M) /\ covers m' x).
Proof.
  revert M. induction rest as [|[s e] r IH]; intros M Hsorted Hle; simpl.
  - split.
    + intros m Hm. exists m. split; [exact Hm | apply covers_refl].
    + intros x [].
  - inversion Hsorted as [|? ? Hr Hhd]; subst.
    assert (Hs : forall m, In m M -> fst m <= s).
    { intros m Hm. apply (Hle m (s, e) Hm). now left. }
    destruct (merge_step_covers M s e Hs) as (H1 & H2 & H3).
    destruct (IH (merge_step M (s, e)) Hr) as [I1 I2].
    { intros m x Hm Hx. destruct (H3 m Hm) as [(m0 & Hm0 & ->)| ->].
      - apply Hle; [exact Hm0 | now right].
      - rewrite Forall_forall in Hhd. apply (Hhd x Hx). }
    split.
    + intros m Hm. destruct (H1 m Hm) as (m1 & Hm1 & C1).
      destruct (I1 m1 Hm1) as (m2 & Hm2 & C2). exists m2. split; [exact Hm2|].
      eapply covers_trans; eassumption.
    + intros x [<-|Hx].
      * destruct H2 as (m1 & Hm1 & C1).
        destruct (I1 m1 Hm1) as (m2 & Hm2 & C2). exists m2. split; [exact Hm2|].
        eapply covers_trans; eassumption.
      * now apply I2.
Qed.

Lemma separated_each (lo : Z) (M : list span) (m : span) :
  separated lo M -> In m M -> lo <= fst m /\ fst m <= snd m.
Proof.
  revert lo. induction M as [|[s e] r IH]; intros lo HM Hin; [destruct Hin|].
  destruct HM as (H1 & H2 & H3). destruct Hin as [<-|Hin]; simpl.
  - lia.
  - destruct (IH _ H3 Hin). lia.
Qed.

Lemma separated_apart (lo : Z) (M : list span) (m1 m2 : span) :
  separated lo M -> In m1 M -> In m2 M ->
  m1 = m2 \/ snd m1 + 1 < fst m2 \/ snd m2 + 1 < fst m1.
Proof.
  revert lo. induction M as [|[s e] r IH]; intros lo HM H1 H2; [destruct H1|].
  destruct HM as (Ha & Hb & Hc).
  destruct H1 as [<-|H1], H2 as [<-|H2].
  - now left.
  - right. left. destruct (separated_each _ _ _ Hc H2). simpl. lia.
  - right. right. destruct (separated_each _ _ _ Hc H1). simpl. lia.
  - eapply IH; eassumption.
Qed.

Lemma mergeIndices_separated (t : jsstring) (ixs : list span) :
  Forall (valid_span t) ixs -> separated 0 (mergeIndices ixs).
Proof.
  intros H. unfold mergeIndices. apply merge_fold_separated; [|exact I].
  apply sort_by_start_Forall. eapply Forall_impl; [|exact H].
  unfold valid_span. intros sp. lia.
Qed.

Lemma mergeIndices_bound (t : jsstring) (ixs : list span) :
  Forall (valid_span t) ixs ->
  Forall (fun m => snd m < len t) (mergeIndices ixs).
Proof.
  intros H. unfold mergeIndices. apply merge_fold_bound; [|constructor].
  apply sort_by_start_Forall. eapply Forall_impl; [|exact H].
  unfold valid_span. intros sp. lia.
Qed.

Lemma mergeIndices_covers (ixs : list span) (x : span) :
  In x ixs -> exists m, In m (mergeIndices ixs) /\ covers m x.
Proof.
  intros Hx. unfold mergeIndices.
  destruct (merge_fold_covers (sort_by_start ixs) []) as [_ H].
  - apply sort_by_start_sorted.
  - intros m y [].
  - apply H. now apply sort_by_start_in.
Qed.

(** ** The emission loop *)

Lemma emit_fold (t : jsstring) (merged : list span)
    (segs : list HighlightSegment) (li : Z) :
  fold_left (emit_step t) merged (segs, li)
  = (segs ++ emit_rec t li merged, last_index li merged).
Proof.
  revert segs li. induction merged as [|[s e] r IH]; intros segs li; simpl.
  - now rewrite app_nil_r.
  - rewrite IH. f_equal. destruct (s >? li); simpl.
    + now rewrite <- !app_assoc.
    + now rewrite <- app_assoc.
Qed.

Lemma joined_app (a b : list HighlightSegment) :
  joined (a ++ b) = joined a ++ joined b.
Proof. unfold joined. now rewrite map_app, concat_app. Qed.

Lemma emit_rec_joined (t : jsstring) (merged : list span) (li : Z) :
  0 <= li <= len t ->
  separated li merged -> Forall (fun m => snd m < len t) merged ->
  li <= last_index li merged <= len t
  /\ firstn (Z.to_nat li) t ++ joined (emit_rec t li merged)
     = firstn (Z.to_nat (last_index li merged)) t.
Proof.
  revert li. induction merged as [|[s e] r IH]; intros li Hli Hsep Hb; simpl.
  - split; [lia|]. unfold joined. simpl. now rewrite app_nil_r.
  - destruct Hsep as (H1 & H2 & H3).
    inversion Hb as [|? ? He Hb']; subst. simpl in He.
    destruct (IH (e + 1)) as [Hr Hj]; [lia | | exact Hb' |].
    { eapply separated_mono; [|exact H3]. lia. }
    split; [lia|].
    rewrite <- Hj. rewrite joined_app. change (seg ?a ?b :: ?l) with ([seg a b] ++ l).
    rewrite joined_app. rewrite !app_assoc. f_equal.
    replace (joined [seg (slice t s (e + 1)) true]) with (slice t s (e + 1))
      by (unfold joined; simpl; now rewrite app_nil_r).
    rewrite <- (prefix_slice t s (e + 1)) by lia. f_equal.
    destruct (s >? li) eqn:C.
    + unfold joined. simpl. rewrite app_nil_r. apply prefix_slice; lia.
    + rewrite Z.gtb_ltb in C. apply Z.ltb_ge in C.
      unfold joined. simpl. rewrite app_nil_r. f_equal. lia.
Qed.

Lemma gaps_after_plain (n : nat) (tail : list HighlightSegment) :
  Forall (fun sg => highlighted sg = false) tail -> gaps_after n tail = [].
Proof.
  revert n. induction tail as [|sg r IH]; intros n H; simpl; [reflexivity|].
  inversion H as [|? ? Hsg Hr]; subst. rewrite Hsg. now apply IH.
Qed.

Lemma gaps_after_app_plain (n : nat) (a tail : list HighlightSegment) :
  Forall (fun sg => highlighted sg = false) tail ->
  gaps_after n (a ++ tail) = gaps_after n a.
Proof.
  intros Ht. revert n. induction a as [|sg r IH]; intros n; simpl.
  - now apply gaps_after_plain.
  - destruct (highlighted sg); now rewrite IH.
Qed.

Lemma highlight_gaps_app_plain (a tail : list HighlightSegment) :
  Forall (fun sg => highlighted sg = false) tail ->
  highlight_gaps (a ++ tail) = highlight_gaps a.
Proof.
  intros Ht. induction a as [|sg r IH]; simpl.
  - induction Ht as [|sg r Hsg _ IH]; simpl; [reflexivity|]. now rewrite Hsg.
  - destruct (highlighted sg); [now apply gaps_after_app_plain | exact IH].
Qed.

(** After a highlighted segment, the next one comes after at least one
    unhighlighted code unit. *)
Lemma emit_rec_gaps_after (t : jsstring) (merged : list span) (li : Z) :
  0 <= li ->
  separated (li + 1) merged -> Forall (fun m => snd m < len t) merged ->
  Forall (fun g => (1 <= g)%nat) (gaps_after 0 (emit_rec t li merged)).
Proof.
  revert li. induction merged as [|[s e] r IH]; intros li Hli Hsep Hb; simpl.
  - constructor.
  - destruct Hsep as (H1 & H2 & H3).
    inversion Hb as [|? ? He Hb']; subst. simpl in He.
    destruct (s >? li) eqn:C; [|rewrite Z.gtb_ltb in C; apply Z.ltb_ge in C; lia].
    simpl. constructor.
    + pose proof (slice_length t li s). lia.
    + apply IH; [lia | | exact Hb'].
      eapply separated_mono; [|exact H3]. lia.
Qed.

Lemma emit_rec_gaps (t : jsstring) (merged : list span) :
  separated 0 merged -> Forall (fun m => snd m < len t) merged ->
  Forall (fun g => (1 <= g)%nat) (highlight_gaps (emit_rec t 0 merged)).
Proof.
  destruct merged as [|[s e] r]; intros Hsep Hb; simpl; [constructor|].
  destruct Hsep as (H1 & H2 & H3).
  inversion Hb as [|? ? He Hb']; subst. simpl in He.
  assert (G : Forall (fun g => (1 <= g)%nat) (gaps_after 0 (emit_rec t (e + 1) r))).
  { apply emit_rec_gaps_after; [lia | | exact Hb'].
    eapply separated_mono; [|exact H3]. lia. }
  destruct (s >? 0); simpl; exact G.
Qed.

Lemma emit_rec_highlighted (t : jsstring) (merged : list span) (li : Z) :
  map text (filter highlighted (emit_rec t li merged))
  = map (fun m => slice t (fst m) (snd m + 1)) merged.
Proof.
  revert li. induction merged as [|[s e] r IH]; intros li; simpl; [reflexivity|].
  destruct (s >? li); simpl; now rewrite IH.
Qed.

(** The resolver, once a field match with spans is found. *)
Lemma getHighlightSegments_found (t : jsstring) (ms : list FuseResultMatch)
    (k : jsstring) (fm : FuseResultMatch) :
  find (match_has_key k) ms = Some fm ->
  indices fm <> [] -> t <> [] ->
  getHighlightSegments t (Some ms) k
  = emit_rec t 0 (mergeIndices (indices fm))
    ++ (if last_index 0 (mergeIndices (indices fm)) <? len t
        then [seg (slice_from t (last_index 0 (mergeIndices (indices fm)))) false]
        else []).
Proof.
  intros Hf Hix Ht. unfold getHighlightSegments.
  destruct ms as [|m0 ms']; [discriminate|].
  destruct t as [|c t']; [congruence|].
  cbn [length Nat.eqb orb]. rewrite Hf.
  destruct (indices fm) as [|i0 ix'] eqn:E; [congruence|].
  cbn [length Nat.eqb]. rewrite emit_fold. cbn [app].
  destruct (_ <? _); [reflexivity | now rewrite app_nil_r].
Qed.

Lemma find_field_match (k : jsstring) (ms : list FuseResultMatch) (fm : FuseResultMatch) :
  find (match_has_key k) ms = Some fm -> In fm ms /\ key fm = Some k.
Proof.
  intros H. apply find_some in H as [Hin Hk]. split; [exact Hin|].
  unfold match_has_key in Hk. destruct (key fm) as [k'|]; [|discriminate].
  apply eqb_eq in Hk. now subst.
Qed.

(** ** The round trip *)

(** C2. For every text and every valid span set (each span with
    [0 <= start <= end < length]), the text fields of the segments
    returned by [getHighlightSegments], concatenated in emission order,
    are exactly the input text: the segments tile it without gap or
    overlap. *)
Theorem highlight_round_trip
    (t : jsstring) (matches : option (list FuseResultMatch)) (k : jsstring) :
  (forall ms, matches = Some ms -> valid_spans t ms k) ->
  joined (getHighlightSegments t matches k) = t.
Proof.
  intros Hvalid.
  assert (Plain : joined [seg t false] = t).
  { unfold joined. simpl. apply app_nil_r. }
  destruct matches as [ms|]; [|exact Plain].
  specialize (Hvalid ms eq_refl).
  destruct (find (match_has_key k) ms) as [fm|] eqn:Hf.
  - destruct (find_field_match _ _ _ Hf) as [Hin Hk].
    pose proof (Hvalid fm Hin Hk) as Hv.
    destruct t as [|c t'] eqn:Et.
    { unfold getHighlightSegments. simpl. rewrite orb_true_r. exact Plain. }
    rewrite <- Et in *.
    destruct (indices fm) as [|i0 ix'] eqn:Eix.
    { unfold getHighlightSegments. rewrite Hf, Eix.
      destruct (_ || _)%bool; exact Plain. }
    rewrite getHighlightSegments_found with (fm := fm);
      [|exact Hf|congruence|congruence].
    rewrite <- Eix in *.
    pose proof (mergeIndices_separated t _ Hv) as Hsep.
    pose proof (mergeIndices_bound t _ Hv) as Hb.
    assert (H0 : 0 <= 0 <= len t) by (unfold len; lia).
    destruct (emit_rec_joined t _ 0 H0 Hsep Hb) as [Hr Hj].
    simpl in Hj. rewrite joined_app, Hj.
    destruct (_ <? _) eqn:C.
    + unfold joined at 1. simpl. rewrite app_nil_r.
      apply prefix_slice_from; lia.
    + apply Z.ltb_ge in C. unfold joined at 1. simpl. rewrite app_nil_r.
      replace (last_index 0 (mergeIndices (indices fm))) with (len t) by lia.
      unfold len. rewrite Nat2Z.id. apply firstn_all.
  - unfold getHighlightSegments. rewrite Hf.
    destruct (_ || _)%bool; exact Plain.
Qed.

Lemma highlight_round_trip_witness :
  joined (getHighlightSegments (lit "EFFERALGAN")
            (Some [field_match (lit "name") [(4, 6); (0, 3); (8, 9)]])
            (lit "name"))
  = lit "EFFERALGAN".
Proof.
  apply highlight_round_trip.
  intros ms E m Hin _. injection E as <-.
  destruct Hin as [<-|[]]. simpl.
  repeat constructor; simpl; unfold len; simpl; lia.
Defined.

(** ** Merging keeps the positions *)

Lemma inside_app (i : Z) (a b : list span) :
  inside i (a ++ b) <-> inside i a \/ inside i b.
Proof.
  unfold inside. split.
  - intros (m & Hm & H). apply in_app_or in Hm as [Hm|Hm]; eauto.
  - intros [(m & Hm & H)|(m & Hm & H)]; exists m; split; auto using in_or_app.
Qed.

Lemma inside_one (i : Z) (m : span) : inside i [m] <-> fst m <= i <= snd m.
Proof.
  unfold inside. split.
  - intros (m' & [<-|[]] & H). exact H.
  - intros H. exists m. split; [now left | exact H].
Qed.

Lemma merge_step_sound (M : list span) (s e i : Z) :
  inside i (merge_step M (s, e)) -> inside i M \/ s <= i <= e.
Proof.
  unfold merge_step.
  destruct (unsnoc M) as [[front [ls le]]|] eqn:E.
  - apply unsnoc_some in E. subst M.
    destruct (s <=? le + 1) eqn:C.
    + apply Z.leb_le in C. rewrite !inside_app, !inside_one. simpl.
      intros [H|H]; [auto|]. destruct (Z_le_gt_dec i le); [left; right; lia | right; lia].
    + rewrite inside_app, inside_one. simpl. tauto.
  - rewrite inside_app, inside_one. simpl. tauto.
Qed.

Lemma merge_fold_sound (rest M : list span) (i : Z) :
  inside i (fold_left merge_step rest M) -> inside i M \/ inside i rest.
Proof.
  revert M. induction rest as [|[s e] r IH]; intros M H; simpl in H; [now left|].
  apply IH in H as [H|H].
  - apply merge_step_sound in H as [H|H]; [now left|].
    right. exists (s, e). split; [now left | exact H].
  - right. destruct H as (m & Hm & H). exists m. split; [now right | exact H].
Qed.

Lemma merged_inside (ixs : list span) (i : Z) :
  inside i (mergeIndices ixs) <-> inside i ixs.
Proof.
  split.
  - intros H. unfold mergeIndices in H. apply merge_fold_sound in H as [H|H].
    + destruct H as (m & [] & _).
    + destruct H as (m & Hm & H). exists m. split; [|exact H].
      now apply sort_by_start_in.
  - intros (a & Ha & H). destruct (mergeIndices_covers ixs a Ha) as (m & Hm & C).
    exists m. split; [exact Hm|]. unfold covers in C. lia.
Qed.

(** ** Merging of spans *)

(** C7, as the code has it. Spans of the requested field that overlap
    or touch (the later one starts at most one position after the end of
    the earlier one, so no code unit lies between them) end up inside
    one merged span.  Two spans with a position between them that no
    span of the field covers never end up inside one merged span: spans
    one code unit apart stay apart unless other spans of the field
    cover that unit.  The highlighted segments are the slices of the
    merged spans, and two consecutive highlighted segments are separated
    by at least one unhighlighted code unit. *)
Theorem touching_spans_merged
    (t : jsstring) (ms : list FuseResultMatch) (k : jsstring)
    (fm : FuseResultMatch) :
  find (match_has_key k) ms = Some fm ->
  Forall (valid_span t) (indices fm) ->
  (forall a b, In a (indices fm) -> In b (indices fm) -> touching a b ->
     exists m, In m (mergeIndices (indices fm)) /\ covers m a /\ covers m b)
  /\ (forall a b g, In a (indices fm) -> In b (indices fm) ->
        snd a < g < fst b -> ~ inside g (indices fm) ->
        ~ exists m, In m (mergeIndices (indices fm)) /\ covers m a /\ covers m b)
  /\ map text (filter highlighted (getHighlightSegments t (Some ms) k))
     = map (fun m => slice t (fst m) (snd m + 1)) (mergeIndices (indices fm))
  /\ gaps_at_least 1 (getHighlightSegments t (Some ms) k).
Proof.
  intros Hf Hv.
  pose proof (mergeIndices_separated t _ Hv) as Hsep.
  pose proof (mergeIndices_bound t _ Hv) as Hb.
  split; [|split].
  - intros a b Ha Hb' [T1 T2].
    destruct (mergeIndices_covers _ _ Ha) as (ma & Hma & Ca).
    destruct (mergeIndices_covers _ _ Hb') as (mb & Hmb & Cb).
    rewrite Forall_forall in Hv.
    destruct (Hv a Ha) as (_ & Wa & _). destruct (Hv b Hb') as (_ & Wb & _).
    destruct (separated_apart _ _ _ _ Hsep Hma Hmb) as [E|[L|R]].
    + subst mb. now exists ma.
    + unfold covers in *. lia.
    + unfold covers in *. lia.
  - intros a b g Ha Hb' Hg Hout (m & Hm & Ca & Cb). apply Hout.
    apply merged_inside. exists m. split; [exact Hm|].
    rewrite Forall_forall in Hv.
    destruct (Hv a Ha) as (_ & Wa & _). destruct (Hv b Hb') as (_ & Wb & _).
    unfold covers in *. lia.
  - destruct (indices fm) as [|i0 ix'] eqn:Eix.
    { unfold getHighlightSegments, gaps_at_least. rewrite Hf, Eix.
      destruct (_ || _)%bool; simpl; split; (reflexivity || constructor). }
    assert (Ht : t <> []).
    { intros ->. inversion Hv as [|? ? Hi _]; subst.
      unfold valid_span, len in Hi. simpl in Hi. lia. }
    rewrite <- Eix in *.
    rewrite getHighlightSegments_found with (fm := fm);
      [|exact Hf|rewrite Eix; congruence|exact Ht].
    assert (Plain : Forall (fun sg => highlighted sg = false)
              (if last_index 0 (mergeIndices (indices fm)) <? len t
               then [seg (slice_from t (last_index 0 (mergeIndices (indices fm)))) false]
               else [])).
    { destruct (_ <? _); repeat constructor. }
    split.
    + rewrite filter_app, map_app, emit_rec_highlighted.
      replace (filter highlighted _) with (@nil HighlightSegment);
        [simpl; apply app_nil_r|].
      destruct (_ <? _); reflexivity.
    + unfold gaps_at_least. rewrite highlight_gaps_app_plain by exact Plain.
      now apply emit_rec_gaps.
Qed.

Lemma touching_spans_merged_witness :
  (exists m, In m (mergeIndices [(0, 1); (2, 4); (6, 7)])
             /\ covers m (0, 1) /\ covers m (2, 4))
  /\ (~ exists m, In m (mergeIndices [(0, 1); (2, 4); (6, 7)])
                  /\ covers m (2, 4) /\ covers m (6, 7))
  /\ gaps_at_least 1
       (getHighlightSegments (lit "EFFERALGAN")
          (Some [field_match (lit "name") [(0, 1); (2, 4); (6, 7)]]) (lit "name")).
Proof.
  assert (Hv : Forall (valid_span (lit "EFFERALGAN")) [(0, 1); (2, 4); (6, 7)]).
  { repeat constructor; simpl; unfold len; simpl; lia. }
  destruct (touching_spans_merged (lit "EFFERALGAN")
              [field_match (lit "name") [(0, 1); (2, 4); (6, 7)]] (lit "name")
              (field_match (lit "name") [(0, 1); (2, 4); (6, 7)])
              eq_refl Hv) as (H1 & H2 & _ & H3).
  split; [|split; [|exact H3]].
  - apply H1; simpl; [now left | right; now left | unfold touching; simpl; lia].
  - apply (H2 (2, 4) (6, 7) 5); simpl; [right; now left | right; right; now left | lia |].
    intros (m & Hm & H). simpl in Hm.
    destruct Hm as [<-|[<-|[<-|[]]]]; simpl in H; lia.
Defined.

(** C7, as the specification words it, fails: the spans [0,1] and [3,4]
    of "abcde" have a single code unit between them and stay two
    highlighted segments, one unit apart. *)
Lemma one_unit_gap_not_merged :
  Forall (valid_span (lit "abcde")) [(0, 1); (3, 4)]
  /\ mergeIndices [(0, 1); (3, 4)] = [(0, 1); (3, 4)]
  /\ getHighlightSegments (lit "abcde")
       (Some [field_match (lit "name") [(0, 1); (3, 4)]]) (lit "name")
     = [seg (lit "ab") true; seg (lit "c") false; seg (lit "de") true]
  /\ ~ gaps_at_least 2
       (getHighlightSegments (lit "abcde")
          (Some [field_match (lit "name") [(0, 1); (3, 4)]]) (lit "name")).
Proof.
  split; [repeat constructor; simpl; unfold len; simpl; lia|].
  split; [reflexivity|]. split; [reflexivity|].
  intros H. unfold gaps_at_least in H. vm_compute in H.
  inversion H as [|? ? Hg _]. lia.
Qed.

End HighlightFacts.

(** * Properties of the hook *)

Module FuzzyFacts.

Import Fuzzy.
Import HighlightFacts.

Section Facts.

Context {T : Type} {engine : FuseEngine T}.

Local Abbreviation State := (@State T engine).
Local Abbreviation FuseInst := (@FuseInst T engine).
Local Abbreviation FuseDeps := (@FuseDeps T).
Local Abbreviation ResultsDeps := (@ResultsDeps T engine).
Local Abbreviation Event := (@Event T).

(** ** Dependency comparison *)

Lemma same_ref_refl {A} (a : jsarray A) : same_ref a a = true.
Proof. apply Nat.eqb_refl. Qed.

Lemma Qeq_bool_trans (a b c : Q) :
  Qeq_bool a b = true -> Qeq_bool b c = true -> Qeq_bool a c = true.
Proof.
  intros H1 H2. apply Qeq_bool_iff in H1, H2. apply Qeq_bool_iff.
  now rewrite H1.
Qed.

Lemma same_fuse_deps_refl (d : FuseDeps) : same_fuse_deps d d = true.
Proof.
  destruct d as [[i k] t]. simpl. rewrite !same_ref_refl. simpl.
  apply Qeq_bool_iff. reflexivity.
Qed.

Lemma same_fuse_deps_trans (a b c : FuseDeps) :
  same_fuse_deps a b = true -> same_fuse_deps b c = true ->
  same_fuse_deps a c = true.
Proof.
  destruct a as [[ia ka] ta], b as [[ib kb] tb], c as [[ic kc] tc]. simpl.
  unfold same_ref. intros H1 H2.
  apply andb_true_iff in H1 as [H1 Q1]. apply andb_true_iff in H1 as [I1 K1].
  apply andb_true_iff in H2 as [H2 Q2]. apply andb_true_iff in H2 as [I2 K2].
  apply Nat.eqb_eq in I1, K1, I2, K2.
  rewrite I1, I2, K1, K2, !Nat.eqb_refl. simpl.
  eapply Qeq_bool_trans; eassumption.
Qed.

Lemma same_results_deps_refl (d : ResultsDeps) : same_results_deps d d = true.
Proof.
  destruct d as [[[f q] i] m]. simpl.
  now rewrite Nat.eqb_refl, eqb_refl, same_ref_refl, Z.eqb_refl.
Qed.

Lemma same_effect_deps_eq (a b : EffectDeps) :
  same_effect_deps a b = true <-> a = b.
Proof.
  destruct a as [[qa da] ma], b as [[qb db] mb]. simpl. split.
  - intros H. apply andb_true_iff in H as [H Hm].
    apply andb_true_iff in H as [Hq Hd].
    apply eqb_eq in Hq. apply Z.eqb_eq in Hd, Hm. congruence.
  - intros H. injection H as -> -> ->.
    now rewrite eqb_refl, !Z.eqb_refl.
Qed.

(** ** The factory of the scored results *)

Lemma above_cutoff_spec (x : Q) :
  above_cutoff x = true <-> (near_exact_cutoff < x)%Q.
Proof.
  unfold above_cutoff. rewrite negb_true_iff. split.
  - intros H. apply Qnot_le_lt. intros L. apply Qle_bool_iff in L. congruence.
  - intros H. destruct (Qle_bool x near_exact_cutoff) eqn:E; [|reflexivity].
    apply Qle_bool_iff in E. exfalso. eapply Qlt_not_le; eassumption.
Qed.

Lemma factory_isFuzzy (rd : ResultsDeps) :
  Forall (fun r => isFuzzy r = above_cutoff (score r))
         (fst (fuzzyResults_factory rd)).
Proof.
  destruct rd as [[[f dq] its] mc]. unfold fuzzyResults_factory.
  assert (U : forall l : list T,
             Forall (fun r => isFuzzy r = above_cutoff (score r)) (map unranked l)).
  { intros l. apply Forall_forall. intros r Hr.
    apply in_map_iff in Hr as (x & <- & _). reflexivity. }
  destruct (Nat.eqb _ 0); [apply U|].
  destruct (_ <? mc); [apply U|]. simpl.
  apply Forall_forall. intros r Hr.
  apply in_map_iff in Hr as (x & <- & _). reflexivity.
Qed.

(** Below [minChars], or on an empty trimmed text, the factory wraps
    the items and sends nothing to the index. *)
Lemma factory_bypass (f : FuseInst) (dq : jsstring) (its : jsarray T) (mc : Z) :
  trim dq = [] \/ len (trim dq) < mc ->
  fuzzyResults_factory (f, dq, its, mc) = (map unranked (elems its), []).
Proof.
  intros H. unfold fuzzyResults_factory.
  destruct (Nat.eqb (length (trim dq)) 0) eqn:E; [reflexivity|].
  destruct H as [H|H].
  - rewrite H in E. discriminate.
  - apply Z.ltb_lt in H. now rewrite H.
Qed.

Lemma factory_search (f : FuseInst) (dq : jsstring) (its : jsarray T) (mc : Z) :
  trim dq <> [] -> mc <= len (trim dq) ->
  fuzzyResults_factory (f, dq, its, mc)
  = (map ranked (Fuse_search (fuse_obj f) (trim dq)), [trim dq]).
Proof.
  intros H1 H2. unfold fuzzyResults_factory.
  destruct (Nat.eqb (length (trim dq)) 0) eqn:E.
  - apply Nat.eqb_eq in E. destruct (trim dq); [congruence|discriminate].
  - apply Z.ltb_ge in H2. now rewrite H2.
Qed.

(** ** One render *)

Lemma fuse_memo_hit (s : State) (p : Props T) d f :
  fuseMemo s = Some (d, f) -> same_fuse_deps d (fuse_deps_of p) = true ->
  fuse_memo s p = Ok (fuseMemo s, f, builds s).
Proof. intros H1 H2. unfold fuse_memo, useMemo. now rewrite H1, H2. Qed.

Lemma fuse_memo_inv (s : State) (p : Props T) fc f nb :
  fuse_memo s p = Ok (fc, f, nb) ->
  exists d, fc = Some (d, f) /\ same_fuse_deps d (fuse_deps_of p) = true
    /\ ((fc = fuseMemo s /\ nb = builds s)
        \/ (useMemo same_fuse_deps (fuseMemo s) (fuse_deps_of p) = None
            /\ nb = S (builds s) /\ d = fuse_deps_of p
            /\ Fuse_new (elems (items p))
                 (BASE_FUSE_OPTIONS (elems (keys p)) (threshold_of (options p)))
               = Ok (fuse_obj f))).
Proof.
  unfold fuse_memo, useMemo. intros H.
  destruct (fuseMemo s) as [[d0 f0]|] eqn:E.
  - destruct (same_fuse_deps d0 (fuse_deps_of p)) eqn:S0.
    + injection H as <- <- <-. exists d0. auto.
    + destruct (Fuse_new _ _) as [obj|e] eqn:N; [|discriminate].
      simpl in H. injection H as <- <- <-. exists (fuse_deps_of p).
      split; [reflexivity|]. split; [apply same_fuse_deps_refl|]. right. auto.
  - destruct (Fuse_new _ _) as [obj|e] eqn:N; [|discriminate].
    simpl in H. injection H as <- <- <-. exists (fuse_deps_of p).
    split; [reflexivity|]. split; [apply same_fuse_deps_refl|]. right. auto.
Qed.

Lemma fuzzyResults_memo_hit (s : State) (rdeps rd : ResultsDeps) frs :
  resultsMemo s = Some (rd, frs) -> same_results_deps rd rdeps = true ->
  fuzzyResults_memo s rdeps = (resultsMemo s, frs, searches s).
Proof. intros H1 H2. unfold fuzzyResults_memo, useMemo. now rewrite H1, H2. Qed.

Lemma fuzzyResults_memo_miss (s : State) (rdeps : ResultsDeps) :
  useMemo same_results_deps (resultsMemo s) rdeps = None ->
  fuzzyResults_memo s rdeps
  = (Some (rdeps, fst (fuzzyResults_factory rdeps)),
     fst (fuzzyResults_factory rdeps),
     searches s ++ snd (fuzzyResults_factory rdeps)).
Proof.
  intros H. unfold fuzzyResults_memo. rewrite H.
  now destruct (fuzzyResults_factory rdeps).
Qed.

Lemma fuzzyResults_memo_inv (s : State) (rdeps : ResultsDeps) rc frs ns :
  (forall rd0 frs0, resultsMemo s = Some (rd0, frs0) ->
                    frs0 = fst (fuzzyResults_factory rd0)) ->
  fuzzyResults_memo s rdeps = (rc, frs, ns) ->
  exists rd, rc = Some (rd, frs) /\ same_results_deps rd rdeps = true
    /\ frs = fst (fuzzyResults_factory rd)
    /\ ((rc = resultsMemo s /\ ns = searches s)
        \/ (useMemo same_results_deps (resultsMemo s) rdeps = None
            /\ rd = rdeps
            /\ ns = searches s ++ snd (fuzzyResults_factory rdeps))).
Proof.
  intros Hval H.
  destruct (useMemo same_results_deps (resultsMemo s) rdeps) as [v|] eqn:U.
  - unfold fuzzyResults_memo in H. rewrite U in H. injection H as <- <- <-.
    unfold useMemo in U. destruct (resultsMemo s) as [[rd0 frs0]|] eqn:E; [|discriminate].
    destruct (same_results_deps rd0 rdeps) eqn:S0; [|discriminate].
    injection U as <-. exists rd0. repeat split; auto.
  - rewrite fuzzyResults_memo_miss in H by exact U. injection H as <- <- <-.
    exists rdeps. repeat split; auto using same_results_deps_refl.
Qed.

Lemma memo_ok_val (s : State) (p : Props T) : memo_ok s p -> memo_val s.
Proof.
  intros (d & f & rd & frs & _ & _ & Hr & _ & Hv & _) rd' frs' E.
  rewrite Hr in E. now injection E as <- <-.
Qed.

Lemma useFuzzySearch_inv (s : State) (p : Props T) s' out :
  useFuzzySearch s p = Ok (s', out) ->
  exists fc f nb rc frs ns,
    fuse_memo s p = Ok (fc, f, nb)
    /\ fuzzyResults_memo s (results_deps_of f (read_debouncedQuery s p) p)
       = (rc, frs, ns)
    /\ out = view (minChars_of (options p)) (read_debouncedQuery s p)
                  (read_isSearching s) frs
    /\ s' = {| props := Some p;
               cell_debouncedQuery := read_debouncedQuery s p;
               cell_isSearching := read_isSearching s;
               timerRef := read_timerRef s;
               effectDeps := effectDeps s;
               effectCleanup := effectCleanup s;
               fuseMemo := fc;
               resultsMemo := rc;
               output := Some out;
               now := now s;
               timers := timers s;
               nextTimer := nextTimer s;
               builds := nb;
               searches := ns;
               commits := commits s |}.
Proof.
  unfold useFuzzySearch. intros H.
  destruct (fuse_memo s p) as [[[fc f] nb]|e] eqn:F; [|discriminate].
  simpl in H.
  destruct (fuzzyResults_memo s _) as [[rc frs] ns] eqn:R.
  injection H as <- <-.
  exists fc, f, nb, rc, frs, ns. auto.
Qed.

(** What one run of the hook body leaves behind. *)
Lemma body_facts (s : State) (p : Props T) s' out :
  memo_val s -> useFuzzySearch s p = Ok (s', out) ->
  props s' = Some p /\ memo_ok s' p /\ output s' = Some out
  /\ cell_debouncedQuery s' = read_debouncedQuery s p
  /\ cell_isSearching s' = read_isSearching s
  /\ timerRef s' = read_timerRef s
  /\ effectDeps s' = effectDeps s /\ effectCleanup s' = effectCleanup s
  /\ timers s' = timers s /\ nextTimer s' = nextTimer s
  /\ now s' = now s /\ commits s' = commits s.
Proof.
  intros Hval H.
  apply useFuzzySearch_inv in H as (fc & f & nb & rc & frs & ns & F & R & -> & ->).
  apply fuse_memo_inv in F as (d & -> & Sd & _).
  apply fuzzyResults_memo_inv in R as (rd & -> & Sr & Hfrs & _); [|exact Hval].
  simpl. repeat split; try reflexivity.
  exists d, f, rd, frs. simpl. repeat split; auto.
Qed.

(** ** The debounce effect *)

Ltac effect_cases :=
  unfold useEffect_debounce;
  match goal with
  | |- context [match effectDeps ?s with _ => _ end] =>
      destruct (match effectDeps s with Some d => same_effect_deps d _ | None => false end)
  end;
  [| match goal with
     | |- context [below_min ?q ?m] => destruct (below_min q m)
     end ].

Lemma effect_frame (p : Props T) (s : State) :
  let s' := useEffect_debounce p s in
  props s' = props s /\ cell_debouncedQuery s' = cell_debouncedQuery s
  /\ fuseMemo s' = fuseMemo s /\ resultsMemo s' = resultsMemo s
  /\ output s' = output s /\ now s' = now s /\ builds s' = builds s
  /\ searches s' = searches s /\ commits s' = commits s.
Proof. effect_cases; simpl; repeat split; reflexivity. Qed.

Lemma effect_unchanged (p : Props T) (s : State) :
  effectDeps s = Some (effect_deps_of p) -> useEffect_debounce p s = s.
Proof.
  intros H. unfold useEffect_debounce. rewrite H.
  now rewrite (proj2 (same_effect_deps_eq _ _) eq_refl).
Qed.

Lemma clearTimeout_only (id : nat) (d : Z) (q : jsstring) :
  clearTimeout id [mkTimer id d q] = [].
Proof. unfold clearTimeout. simpl. now rewrite Nat.eqb_refl. Qed.

Lemma cleanup_clears (s : State) :
  fresh_ctl s \/ (exists p0, ctl_ok s p0) -> run_cleanup s = [].
Proof.
  unfold run_cleanup. intros [(_ & Ht & Hc & _)|(p0 & _ & _ & H)].
  - now rewrite Hc.
  - destruct (guarded p0).
    + destruct H as [Ht Hc]. now rewrite Hc.
    + destruct H as (Hc & id & Hr & Hid & Ht). rewrite Hc, Hr.
      apply Nat.eqb_neq in Hid. rewrite Hid.
      destruct Ht as [->|(_ & d & ->)]; [reflexivity | apply clearTimeout_only].
Qed.

Lemma next_timer_pos (s : State) :
  fresh_ctl s \/ (exists p0, ctl_ok s p0) -> (1 <= nextTimer s)%nat.
Proof. intros [(_ & _ & _ & H)|(p0 & _ & H & _)]; exact H. Qed.

(** The effect as a function of what it finds, when its dependencies
    changed. *)
Lemma effect_changed (p : Props T) (s : State) :
  fresh_ctl s \/ (exists p0, ctl_ok s p0) ->
  effectDeps s <> Some (effect_deps_of p) ->
  let s' := useEffect_debounce p s in
  effectDeps s' = Some (effect_deps_of p)
  /\ if guarded p
     then timers s' = [] /\ effectCleanup s' = false
          /\ cell_isSearching s' = cell_isSearching s
          /\ timerRef s' = timerRef s /\ nextTimer s' = nextTimer s
     else timers s' = [mkTimer (nextTimer s)
                         (now s + Z.max 0 (debounceMs_of (options p)))
                         (trim (query p))]
          /\ effectCleanup s' = true /\ cell_isSearching s' = true
          /\ timerRef s' = Some (nextTimer s) /\ nextTimer s' = S (nextTimer s).
Proof.
  intros Hpre Hne. pose proof (cleanup_clears s Hpre) as Hc.
  unfold useEffect_debounce.
  replace (match effectDeps s with
           | Some d => same_effect_deps d (effect_deps_of p)
           | None => false end) with false.
  2:{ destruct (effectDeps s) as [d|] eqn:E; [|reflexivity].
      destruct (same_effect_deps d (effect_deps_of p)) eqn:S0; [|reflexivity].
      apply same_effect_deps_eq in S0. congruence. }
  unfold guarded. destruct (below_min _ _); simpl; rewrite Hc; repeat split; reflexivity.
Qed.

Lemma ctl_ok_transfer (s : State) (p0 p : Props T) :
  effect_deps_of p0 = effect_deps_of p -> ctl_ok s p0 -> ctl_ok s p.
Proof.
  unfold ctl_ok, guarded, effect_deps_of. intros E. injection E as Eq Ed Em.
  now rewrite Eq, Ed, Em.
Qed.

Lemma effect_ctl_ok (p : Props T) (s : State) :
  fresh_ctl s \/ (exists p0, ctl_ok s p0) ->
  ctl_ok (useEffect_debounce p s) p.
Proof.
  intros Hpre.
  destruct (effectDeps s) as [d|] eqn:E.
  - destruct (same_effect_deps d (effect_deps_of p)) eqn:S0.
    + apply same_effect_deps_eq in S0. subst d.
      rewrite effect_unchanged by exact E.
      destruct Hpre as [(E' & _)|(p0 & H)]; [congruence|].
      apply ctl_ok_transfer with (p0 := p0); [|exact H].
      destruct H as (E' & _). congruence.
    + assert (Hne : effectDeps s <> Some (effect_deps_of p)).
      { rewrite E. intros X. injection X as ->.
        now rewrite (proj2 (same_effect_deps_eq _ _) eq_refl) in S0. }
      pose proof (effect_changed p s Hpre Hne) as (H1 & H2).
      pose proof (next_timer_pos s Hpre) as Hn.
      unfold ctl_ok. split; [exact H1|].
      destruct (guarded p).
      * destruct H2 as (Ht & Hc & _ & _ & Hnx). rewrite Hnx. auto.
      * destruct H2 as (Ht & Hc & Hs & Hr & Hnx). rewrite Hnx.
        split; [lia|]. split; [exact Hc|].
        exists (nextTimer s). split; [exact Hr|]. split; [lia|].
        right. split; [exact Hs|]. eexists. exact Ht.
  - assert (Hne : effectDeps s <> Some (effect_deps_of p)) by (rewrite E; discriminate).
    pose proof (effect_changed p s Hpre Hne) as (H1 & H2).
    pose proof (next_timer_pos s Hpre) as Hn.
    unfold ctl_ok. split; [exact H1|].
    destruct (guarded p).
    + destruct H2 as (Ht & Hc & _ & _ & Hnx). rewrite Hnx. auto.
    + destruct H2 as (Ht & Hc & Hs & Hr & Hnx). rewrite Hnx.
      split; [lia|]. split; [exact Hc|].
      exists (nextTimer s). split; [exact Hr|]. split; [lia|].
      right. split; [exact Hs|]. eexists. exact Ht.
Qed.


(** ** Steps of the machine *)

Lemma bind_ok {E A B} (m : result E A) (f : A -> result E B) (b : B) :
  bind m f = Ok b -> exists a, m = Ok a /\ f a = Ok b.
Proof. destruct m as [a|e]; simpl; [eauto | discriminate]. Qed.

Lemma body_succeeds (s : State) (p : Props T) d f :
  fuseMemo s = Some (d, f) -> same_fuse_deps d (fuse_deps_of p) = true ->
  exists s' out, useFuzzySearch s p = Ok (s', out)
    /\ builds s' = builds s /\ fuseMemo s' = fuseMemo s.
Proof.
  intros H1 H2. unfold useFuzzySearch.
  rewrite (fuse_memo_hit s p d f H1 H2). simpl.
  destruct (fuzzyResults_memo s _) as [[rc frs] ns].
  eexists. eexists. split; [reflexivity|]. simpl. auto.
Qed.

Lemma step_Render_inv (s : State) (p : Props T) s' :
  step (Render p) s = Ok s' ->
  exists sa oa sc oc,
    useFuzzySearch s p = Ok (sa, oa)
    /\ useFuzzySearch (useEffect_debounce p sa) p = Ok (sc, oc)
    /\ s' = useEffect_debounce p sc.
Proof.
  simpl. intros H. apply bind_ok in H as (sb & H1 & H2).
  unfold render_once in H1. apply bind_ok in H1 as ([sa oa] & Ha & Hb).
  simpl in Hb. injection Hb as <-.
  unfold rerender in H2.
  assert (Hp : props (useEffect_debounce p sa) = Some p).
  { destruct (effect_frame p sa) as (-> & _).
    apply useFuzzySearch_inv in Ha as (? & ? & ? & ? & ? & ? & _ & _ & _ & ->).
    reflexivity. }
  rewrite Hp in H2. unfold render_once in H2.
  apply bind_ok in H2 as ([sc oc] & Hc & Hd). simpl in Hd. injection Hd as <-.
  exists sa, oa, sc, oc. auto.
Qed.

Lemma ctl_ok_fields (s s' : State) (p : Props T) :
  effectDeps s' = effectDeps s -> nextTimer s' = nextTimer s ->
  timers s' = timers s -> effectCleanup s' = effectCleanup s ->
  timerRef s' = timerRef s -> cell_isSearching s' = cell_isSearching s ->
  ctl_ok s p -> ctl_ok s' p.
Proof.
  unfold ctl_ok. intros -> -> -> -> -> ->. trivial.
Qed.

Lemma Inv_memo_val (s : State) : Inv s -> memo_val s.
Proof.
  unfold Inv. destruct (props s) as [p|] eqn:E.
  - intros [_ H]. eapply memo_ok_val; eassumption.
  - intros -> rd frs H. discriminate.
Qed.

(** After the body ran from a state of the invariant, the debounce
    machinery is as the previous call left it, or untouched. *)
Lemma body_ctl (s : State) (p : Props T) sa oa :
  Inv s -> useFuzzySearch s p = Ok (sa, oa) ->
  fresh_ctl sa \/ (exists p0, ctl_ok sa p0).
Proof.
  intros HI Ha. pose proof (Inv_memo_val s HI) as Hv.
  destruct (body_facts s p sa oa Hv Ha)
    as (_ & _ & _ & _ & Hs & Hr & He & Hc & Ht & Hn & _).
  unfold Inv in HI. unfold read_isSearching in Hs. unfold read_timerRef in Hr.
  destruct (props s) as [p0|] eqn:E.
  - right. exists p0. destruct HI as [HI _].
    eapply ctl_ok_fields; [..|exact HI]; assumption.
  - left. rewrite HI in He, Hc, Ht, Hn. simpl in *.
    unfold fresh_ctl. rewrite He, Hc, Ht, Hn. auto.
Qed.

Lemma Inv_Render (s : State) (p : Props T) s' :
  Inv s -> step (Render p) s = Ok s' -> props s' = Some p /\ Inv s'.
Proof.
  intros HI H.
  apply step_Render_inv in H as (sa & oa & sc & oc & Ha & Hc & ->).
  pose proof (body_ctl s p sa oa HI Ha) as Hpre.
  pose proof (effect_ctl_ok p sa Hpre) as Hctl.
  set (sb := useEffect_debounce p sa) in *.
  assert (Hvb : memo_val sb).
  { destruct (body_facts s p sa oa (Inv_memo_val s HI) Ha) as (_ & Hm & _).
    apply memo_ok_val in Hm. unfold memo_val, sb.
    destruct (effect_frame p sa) as (_ & _ & _ & -> & _). exact Hm. }
  assert (Hpb : props sb = Some p).
  { unfold sb. destruct (effect_frame p sa) as (-> & _).
    now destruct (body_facts s p sa oa (Inv_memo_val s HI) Ha) as (-> & _). }
  destruct (body_facts sb p sc oc Hvb Hc)
    as (Hp & Hm & _ & _ & Hs & Hr & He & Hcl & Ht & Hn & _).
  unfold read_isSearching in Hs. unfold read_timerRef in Hr.
  rewrite Hpb in Hs, Hr.
  assert (Hctl' : ctl_ok sc p) by (eapply ctl_ok_fields; [..|exact Hctl]; assumption).
  rewrite effect_unchanged by (destruct Hctl' as [-> _]; reflexivity).
  split; [exact Hp|]. unfold Inv. rewrite Hp. auto.
Qed.

Lemma set_now_Inv (t : Z) (s : State) : Inv s -> Inv (set_now t s).
Proof.
  unfold Inv. simpl. destruct (props s) as [p|].
  - intros [H1 H2]. split; [exact H1 | exact H2].
  - intros ->. reflexivity.
Qed.

Lemma next_due_one (target : Z) (tm : Timer) :
  next_due target [tm] = if due tm <=? target then Some tm else None.
Proof. unfold next_due. simpl. now destruct (due tm <=? target). Qed.

Lemma advance_idle (dt : Z) (s : State) :
  timers s = [] \/ (exists tm, timers s = [tm] /\ now s + Z.max 0 dt < due tm) ->
  advance dt s = Ok (set_now (now s + Z.max 0 dt) s).
Proof.
  unfold advance. intros [H|(tm & H & Hd)]; rewrite H; simpl.
  - reflexivity.
  - rewrite H, next_due_one. apply Z.leb_gt in Hd. now rewrite Hd.
Qed.

Lemma advance_due (dt : Z) (s : State) (tm : Timer) :
  timers s = [tm] -> due tm <= now s + Z.max 0 dt ->
  advance dt s = (s1 <- fire tm s ;; Ok (set_now (now s + Z.max 0 dt) s1)).
Proof.
  unfold advance. intros H Hd. rewrite H. simpl.
  rewrite H, next_due_one. apply Z.leb_le in Hd. rewrite Hd.
  destruct (fire tm s); reflexivity.
Qed.

(** The only timer fires: the trimmed query is committed, the flag is
    cleared, and the component renders again. *)
Lemma fire_facts (s : State) (p : Props T) (tm : Timer) :
  Inv s -> props s = Some p -> timers s = [tm] ->
  exists s1, fire tm s = Ok s1
    /\ Inv s1 /\ props s1 = Some p
    /\ cell_debouncedQuery s1 = commit_value tm
    /\ cell_isSearching s1 = false
    /\ timers s1 = []
    /\ commits s1 = commits s ++ [commit_value tm]
    /\ builds s1 = builds s /\ fuseMemo s1 = fuseMemo s
    /\ nextTimer s1 = nextTimer s.
Proof.
  intros HI Hp Ht. pose proof (Inv_memo_val s HI) as Hv.
  unfold Inv in HI. rewrite Hp in HI. destruct HI as [Hctl Hmemo].
  destruct Hmemo as (d & f & rd & frs & Hf & Sd & Hr & _).
  unfold fire, rerender. cbn [props]. rewrite Hp. unfold render_once.
  match goal with |- context [useFuzzySearch ?x p] => set (sf := x) end.
  destruct (body_succeeds sf p d f Hf Sd) as (s1 & o1 & Hb & Hbuilds & Hfm).
  rewrite Hb. cbn [bind fst].
  assert (Hvf : memo_val sf) by exact Hv.
  destruct (body_facts sf p s1 o1 Hvf Hb)
    as (Hp1 & Hm1 & _ & Hdq & Hs & Hrf & He & Hcl & Ht1 & Hn1 & _ & Hco).
  unfold read_debouncedQuery in Hdq. unfold read_isSearching in Hs.
  unfold read_timerRef in Hrf. unfold sf in Hdq, Hs, Hrf, He, Hcl, Ht1, Hn1, Hco.
  cbn [props cell_debouncedQuery cell_isSearching timerRef effectDeps
       effectCleanup timers nextTimer commits] in Hdq, Hs, Hrf, He, Hcl, Ht1, Hn1, Hco.
  assert (Htm : timers s1 = []).
  { rewrite Ht1, Ht. unfold ctl_ok in Hctl. destruct Hctl as (_ & _ & Hg).
    destruct (guarded p).
    - destruct Hg as [Hg _]. congruence.
    - destruct Hg as (_ & id & _ & _ & [Hg|(_ & d0 & Hg)]); [congruence|].
      rewrite Ht in Hg. injection Hg as ->. apply clearTimeout_only. }
  assert (Hctl1 : ctl_ok s1 p).
  { unfold ctl_ok in *. destruct Hctl as (E1 & E2 & Hg).
    rewrite He, Hn1, Htm, Hcl, Hrf. split; [exact E1|]. split; [exact E2|].
    destruct (guarded p).
    - destruct Hg as [_ Hg]. auto.
    - destruct Hg as (Hg & id & Hid & Hne & _). split; [exact Hg|].
      exists id. auto. }
  exists s1. rewrite effect_unchanged by (destruct Hctl1 as [-> _]; reflexivity).
  split; [reflexivity|]. split; [unfold Inv; rewrite Hp1; auto|].
  repeat split; assumption.
Qed.

Lemma Inv_timers (s : State) :
  Inv s -> timers s = [] \/ exists tm, timers s = [tm].
Proof.
  unfold Inv. destruct (props s) as [p|].
  - intros [(_ & _ & H) _]. destruct (guarded p).
    + left. apply H.
    + destruct H as (_ & id & _ & _ & [H|(_ & d & H)]); eauto.
  - intros ->. now left.
Qed.

Lemma Inv_Tick (s : State) (dt : Z) s' :
  Inv s -> step (Tick dt) s = Ok s' -> props s' = props s /\ Inv s'.
Proof.
  intros HI H. simpl in H.
  destruct (Inv_timers s HI) as [Ht|(tm & Ht)].
  - rewrite advance_idle in H by auto. injection H as <-.
    split; [reflexivity | now apply set_now_Inv].
  - destruct (Z_lt_le_dec (now s + Z.max 0 dt) (due tm)) as [L|L].
    + rewrite advance_idle in H by eauto. injection H as <-.
      split; [reflexivity | now apply set_now_Inv].
    + rewrite (advance_due dt s tm Ht L) in H.
      destruct (props s) as [p|] eqn:Hp.
      * destruct (fire_facts s p tm HI Hp Ht) as (s1 & Hf & HI1 & Hp1 & _).
        rewrite Hf in H. simpl in H. injection H as <-.
        split; [exact Hp1 | now apply set_now_Inv].
      * unfold Inv in HI. rewrite Hp in HI. rewrite HI in Ht. discriminate.
Qed.

Lemma reachable_Inv (s : State) : reachable s -> Inv s.
Proof.
  induction 1 as [|ev s s' _ IH H].
  - reflexivity.
  - destruct ev as [p|dt].
    + now apply Inv_Render in H.
    + now apply Inv_Tick in H.
Qed.

Lemma run_app (a b : list Event) (s : State) :
  run (a ++ b) s = (s1 <- run a s ;; run b s1).
Proof.
  revert s. induction a as [|ev a IH]; intros s; simpl; [reflexivity|].
  destruct (step ev s); simpl; [apply IH | reflexivity].
Qed.

Lemma reachable_run (evs : list Event) (s s' : State) :
  reachable s -> run evs s = Ok s' -> reachable s'.
Proof.
  revert s. induction evs as [|ev r IH]; intros s Hr H; simpl in H.
  - now injection H as <-.
  - apply bind_ok in H as (s1 & H1 & H2). eapply IH; [|exact H2].
    eapply reach_step; eassumption.
Qed.


(** ** The approximate-results flag *)

Lemma fuzzyMode_spec (mc : Z) (dq : jsstring) (frs : list (FuzzyResult T)) :
  Forall (fun r => isFuzzy r = above_cutoff (score r)) frs ->
  fuzzyMode mc dq frs = true <->
  mc <= len (trim dq)
  /\ exists r, In r frs /\ (near_exact_cutoff < score r)%Q.
Proof.
  intros Hf. rewrite Forall_forall in Hf. unfold fuzzyMode.
  rewrite !andb_true_iff, existsb_exists, Z.leb_le. split.
  - intros [[H1 _] (r & Hr & Hz)]. split; [exact H1|].
    exists r. split; [exact Hr|]. apply above_cutoff_spec.
    now rewrite <- (Hf r Hr).
  - intros [H1 (r & Hr & Hz)]. repeat split.
    + exact H1.
    + destruct frs; [destruct Hr | reflexivity].
    + exists r. split; [exact Hr|]. rewrite (Hf r Hr).
      now apply above_cutoff_spec.
Qed.

(** C3. Whatever the hook returns, to a call from a reachable state or
    as the stored output of a reachable state, [isFuzzyMode] is true
    exactly when the trimmed committed query has at least [minChars]
    code units and some scored result has a score strictly above 0.05. *)
Theorem fuzzy_mode_flag (s : State) :
  reachable s ->
  (forall p s' out, useFuzzySearch s p = Ok (s', out) ->
     (isFuzzyMode out = true <->
      minChars_of (options p) <= len (trim (debouncedQuery out))
      /\ exists r, In r (fuzzyResults out) /\ (near_exact_cutoff < score r)%Q))
  /\ (forall p out, props s = Some p -> output s = Some out ->
     (isFuzzyMode out = true <->
      minChars_of (options p) <= len (trim (debouncedQuery out))
      /\ exists r, In r (fuzzyResults out) /\ (near_exact_cutoff < score r)%Q)).
Proof.
  intros Hr. pose proof (reachable_Inv s Hr) as HI. split.
  - intros p s' out H.
    destruct (body_facts s p s' out (Inv_memo_val s HI) H) as (_ & Hm & Ho & _).
    destruct Hm as (d & f & rd & frs & _ & _ & _ & _ & Hv & Hout).
    rewrite Ho in Hout. injection Hout as ->. simpl.
    apply fuzzyMode_spec. rewrite Hv. apply factory_isFuzzy.
  - intros p out Hp Ho. unfold Inv in HI. rewrite Hp in HI.
    destruct HI as [_ (d & f & rd & frs & _ & _ & _ & _ & Hv & Hout)].
    rewrite Ho in Hout. injection Hout as ->. simpl.
    apply fuzzyMode_spec. rewrite Hv. apply factory_isFuzzy.
Qed.

(** ** The bypass of the index *)

Lemma map_item_unranked (l : list T) : map item (map unranked l) = l.
Proof. rewrite map_map. simpl. apply map_id. Qed.

Lemma existsb_unranked (l : list T) : existsb isFuzzy (map unranked l) = false.
Proof. induction l; simpl; auto. Qed.

(** C4. At a call whose committed query, trimmed, is empty or shorter
    than [minChars], the hook sends nothing to the index and returns
    the items as they are, in order, each wrapped with score 0, no
    matches and [isFuzzy = false]; the flag [isFuzzyMode] is false. The
    items array is taken not to have been mutated in place. *)
Theorem short_query_bypass (s : State) (p : Props T) s' out :
  reachable s -> items_unmutated s p ->
  useFuzzySearch s p = Ok (s', out) ->
  trim (debouncedQuery out) = []
  \/ len (trim (debouncedQuery out)) < minChars_of (options p) ->
  results out = elems (items p)
  /\ fuzzyResults out = map unranked (elems (items p))
  /\ Forall (fun r => score r = 0%Q /\ matches r = None /\ isFuzzy r = false)
            (fuzzyResults out)
  /\ isFuzzyMode out = false
  /\ searches s' = searches s.
Proof.
  intros Hr Hmut H Hshort.
  pose proof (Inv_memo_val s (reachable_Inv s Hr)) as Hv.
  apply useFuzzySearch_inv in H as (fc & f & nb & rc & frs & ns & _ & R & -> & ->).
  simpl in Hshort. simpl.
  apply fuzzyResults_memo_inv in R as (rd & -> & Sr & Hfrs & Hcase); [|exact Hv].
  assert (Hfac : fuzzyResults_factory rd = (map unranked (elems (items p)), [])).
  { destruct rd as [[[f0 dq0] its0] mc0]. unfold results_deps_of in Sr. simpl in Sr.
    apply andb_true_iff in Sr as [Sr Hmc]. apply andb_true_iff in Sr as [Sr Hits].
    apply andb_true_iff in Sr as [_ Hdq].
    apply eqb_eq in Hdq. apply Z.eqb_eq in Hmc. apply Nat.eqb_eq in Hits. subst dq0 mc0.
    destruct Hcase as [[Hc _]|(Hu & Hrd & _)].
    - rewrite factory_bypass by exact Hshort.
      now rewrite (Hmut _ _ _ _ _ (eq_sym Hc) Hits).
    - injection Hrd as _ <-. now apply factory_bypass. }
  rewrite Hfac in Hfrs. simpl in Hfrs. subst frs.
  split; [apply map_item_unranked|]. split; [reflexivity|].
  split; [apply Forall_forall; intros r Hin;
          apply in_map_iff in Hin as (x & <- & _); auto|].
  split.
  - unfold fuzzyMode. rewrite existsb_unranked. apply andb_false_r.
  - destruct Hcase as [[_ ->]|(_ & -> & ->)]; [reflexivity|].
    unfold results_deps_of. rewrite factory_bypass by exact Hshort.
    apply app_nil_r.
Qed.

(** ** Construction of the index *)

(** C5, as the code has it. The hook checks neither the key set nor
    the threshold: a render throws exactly when the index has to be
    constructed and the engine's constructor throws on the items, the
    base options, the keys as given and the threshold (0.35 when
    absent), and then with the engine's error; when the constructor
    returns, the render returns and the index is built. *)
Theorem build_fails_only_in_engine (s : State) (p : Props T) :
  (forall e, useFuzzySearch s p = Throw e <->
     useMemo same_fuse_deps (fuseMemo s) (fuse_deps_of p) = None
     /\ Fuse_new (elems (items p))
          (BASE_FUSE_OPTIONS (elems (keys p)) (threshold_of (options p)))
        = Throw e)
  /\ (forall obj,
        useMemo same_fuse_deps (fuseMemo s) (fuse_deps_of p) = None ->
        Fuse_new (elems (items p))
          (BASE_FUSE_OPTIONS (elems (keys p)) (threshold_of (options p)))
        = Ok obj ->
        exists s' out, useFuzzySearch s p = Ok (s', out)
          /\ builds s' = S (builds s)
          /\ fuseMemo s' = Some (fuse_deps_of p, mkInst (S (builds s)) obj)).
Proof.
  split.
  - intros e. unfold useFuzzySearch, fuse_memo.
    destruct (useMemo same_fuse_deps (fuseMemo s) (fuse_deps_of p)) as [f|].
    + simpl. destruct (fuzzyResults_memo s _) as [[rc frs] ns].
      split; [discriminate | intros [X _]; discriminate].
    + destruct (Fuse_new _ _) as [obj|e0]; simpl.
      * destruct (fuzzyResults_memo s _) as [[rc frs] ns].
        split; [discriminate | intros [_ X]; discriminate].
      * split; [intros X; injection X as ->; auto | intros [_ X]; now injection X as ->].
  - intros obj Hu Hn. unfold useFuzzySearch, fuse_memo. rewrite Hu, Hn. simpl.
    destruct (fuzzyResults_memo s _) as [[rc frs] ns].
    eexists. eexists. split; [reflexivity|]. simpl. auto.
Qed.

(** ** The first render *)

(** C10, as the code has it. At the first render the committed query
    is the raw [query] argument as passed, untrimmed and without any
    delay; the index is queried in that render only when the trimmed
    text is non-empty and has at least [minChars] code units, and then
    with the trimmed text. *)
Theorem first_render_query (s : State) (p : Props T) s' out :
  reachable s -> props s = None ->
  useFuzzySearch s p = Ok (s', out) ->
  debouncedQuery out = query p
  /\ cell_debouncedQuery s' = query p
  /\ isSearching out = false
  /\ searches s'
     = if (Nat.eqb (length (trim (query p))) 0
           || (len (trim (query p)) <? minChars_of (options p)))%bool
       then []
       else [trim (query p)].
Proof.
  intros Hr Hp H. pose proof (reachable_Inv s Hr) as HI.
  unfold Inv in HI. rewrite Hp in HI.
  apply useFuzzySearch_inv in H as (fc & f & nb & rc & frs & ns & _ & R & -> & ->).
  unfold read_debouncedQuery, read_isSearching in *. rewrite Hp in *. simpl.
  repeat split.
  rewrite fuzzyResults_memo_miss in R by (rewrite HI; reflexivity).
  injection R as _ _ <-. rewrite HI. simpl.
  unfold results_deps_of, fuzzyResults_factory.
  destruct (Nat.eqb _ 0); [reflexivity|]. simpl.
  destruct (_ <? _); reflexivity.
Qed.


(** ** Renders that reuse both memo cells *)

Lemma body_all_hit (s : State) (p : Props T) d f rd frs :
  fuseMemo s = Some (d, f) -> same_fuse_deps d (fuse_deps_of p) = true ->
  resultsMemo s = Some (rd, frs) ->
  same_results_deps rd (results_deps_of f (read_debouncedQuery s p) p) = true ->
  exists s' out, useFuzzySearch s p = Ok (s', out)
    /\ fuseMemo s' = fuseMemo s /\ resultsMemo s' = resultsMemo s
    /\ builds s' = builds s /\ searches s' = searches s.
Proof.
  intros H1 H2 H3 H4. unfold useFuzzySearch.
  rewrite (fuse_memo_hit s p d f H1 H2). simpl.
  rewrite (fuzzyResults_memo_hit s _ rd frs H3 H4).
  eexists. eexists. split; [reflexivity|]. simpl. auto.
Qed.

(** A call that differs from the previous one in the raw query only. *)
Lemma Render_query (s : State) (p : Props T) (q : jsstring) :
  Inv s -> props s = Some p ->
  exists s', step (Render (with_query p q)) s = Ok s'
    /\ Inv s' /\ props s' = Some (with_query p q)
    /\ cell_debouncedQuery s' = cell_debouncedQuery s
    /\ commits s' = commits s /\ now s' = now s
    /\ builds s' = builds s /\ searches s' = searches s
    /\ fuseMemo s' = fuseMemo s
    /\ (guarded (with_query p q) = true ->
          timers s' = [] /\ cell_isSearching s' = cell_isSearching s
          /\ output s' = output s)
    /\ (guarded (with_query p q) = false -> q <> query p ->
          timers s' = [mkTimer (nextTimer s)
                         (now s + Z.max 0 (debounceMs_of (options p)))
                         (trim q)]
          /\ cell_isSearching s' = true).
Proof.
  intros HI Hp. set (p' := with_query p q).
  pose proof HI as HI0. unfold Inv in HI0. rewrite Hp in HI0.
  destruct HI0 as [Hctl (d & f & rd & frs & Hf & Sd & Hrm & Sr & Hv & Hout)].
  assert (Hdq : read_debouncedQuery s p' = cell_debouncedQuery s).
  { unfold read_debouncedQuery. now rewrite Hp. }
  (* first render *)
  destruct (body_all_hit s p' d f rd frs Hf Sd Hrm) as (sa & oa & Ha & Fa & Ra & Ba & Sa).
  { rewrite Hdq. exact Sr. }
  destruct (body_facts s p' sa oa (Inv_memo_val s HI) Ha)
    as (Hpa & _ & _ & Hdqa & Hsa & Hra & Hea & Hca & Hta & Hna & Hnowa & Hcoa).
  unfold read_isSearching in Hsa. unfold read_timerRef in Hra.
  rewrite Hp in Hsa, Hra. rewrite Hdq in Hdqa.
  assert (Hctla : ctl_ok sa p) by (eapply ctl_ok_fields; [..|exact Hctl]; assumption).
  (* effect *)
  set (sb := useEffect_debounce p' sa).
  destruct (effect_frame p' sa) as (Hpb & Hdqb & Hfb & Hrb & Hob & Hnowb & Hbb & Hsb & Hcob).
  fold sb in Hpb, Hdqb, Hfb, Hrb, Hob, Hnowb, Hbb, Hsb, Hcob.
  assert (Hctlb : ctl_ok sb p') by (apply effect_ctl_ok; right; now exists p).
  (* second render *)
  destruct (body_all_hit sb p' d f rd frs) as (sc & oc & Hc & Fc & Rc & Bc & Sc).
  { now rewrite Hfb, Fa. } { exact Sd. } { now rewrite Hrb, Ra. }
  { unfold read_debouncedQuery. rewrite Hpb, Hpa, Hdqb, Hdqa. exact Sr. }
  assert (Hvb : memo_val sb).
  { unfold memo_val. rewrite Hrb, Ra. exact (Inv_memo_val s HI). }
  destruct (body_facts sb p' sc oc Hvb Hc)
    as (Hpc & Hmc & Hoc & Hdqc & Hsc & Hrc & Hec & Hcc & Htc & Hnc & Hnowc & Hcoc).
  unfold read_debouncedQuery in Hdqc. unfold read_isSearching in Hsc.
  unfold read_timerRef in Hrc. rewrite Hpb, Hpa in Hdqc, Hsc, Hrc.
  assert (Hctlc : ctl_ok sc p') by (eapply ctl_ok_fields; [..|exact Hctlb]; assumption).
  assert (Hstep : step (Render p') s = Ok sc).
  { simpl. unfold render_once. rewrite Ha. cbn [bind fst]. fold sb.
    unfold rerender. rewrite Hpb, Hpa. unfold render_once. rewrite Hc. cbn [bind fst].
    rewrite effect_unchanged by (destruct Hctlc as [-> _]; reflexivity). reflexivity. }
  exists sc. split; [exact Hstep|].
  split; [unfold Inv; rewrite Hpc; auto|].
  split; [exact Hpc|]. split; [congruence|]. split; [congruence|].
  split; [congruence|]. split; [congruence|]. split; [congruence|].
  split; [congruence|]. split.
  - intros Hg.
    assert (Ht : timers sc = []).
    { destruct Hctlc as (_ & _ & X). rewrite Hg in X. apply X. }
    assert (Hs : cell_isSearching sb = cell_isSearching sa).
    { destruct (effectDeps sa) as [e|] eqn:E.
      - destruct (same_effect_deps e (effect_deps_of p')) eqn:S0.
        + apply same_effect_deps_eq in S0. subst e. unfold sb.
          now rewrite effect_unchanged.
        + assert (Hne : effectDeps sa <> Some (effect_deps_of p')).
          { rewrite E. intros X. injection X as ->.
            now rewrite (proj2 (same_effect_deps_eq _ _) eq_refl) in S0. }
          destruct (effect_changed p' sa) as (_ & X); [right; now exists p | exact Hne |].
          rewrite Hg in X. apply X.
      - destruct Hctla as [X _]. congruence. }
    split; [exact Ht|]. split; [congruence|].
    destruct Hmc as (d2 & f2 & rd2 & frs2 & _ & _ & Hrm2 & _ & _ & Hout2).
    rewrite Hout2, Hout. rewrite Rc, Hrb, Ra, Hrm in Hrm2. injection Hrm2 as <- <-.
    do 2 f_equal; congruence.
  - intros Hg Hq.
    assert (Hne : effectDeps sa <> Some (effect_deps_of p')).
    { rewrite Hea. destruct Hctl as [-> _]. intros X.
      unfold effect_deps_of in X. simpl in X. injection X as X. congruence. }
    destruct (effect_changed p' sa) as (_ & X); [right; now exists p | exact Hne |].
    rewrite Hg in X. fold sb in X. destruct X as (X1 & _ & X2 & _).
    rewrite Htc, X1, Hsc, X2, Hna, Hnowa. auto.
Qed.

Lemma body_commits (s : State) (p : Props T) s' out :
  useFuzzySearch s p = Ok (s', out) -> commits s' = commits s.
Proof.
  intros H.
  apply useFuzzySearch_inv in H as (? & ? & ? & ? & ? & ? & _ & _ & _ & ->).
  reflexivity.
Qed.

Lemma Render_commits (s : State) (p : Props T) s' :
  step (Render p) s = Ok s' -> commits s' = commits s.
Proof.
  intros H.
  apply step_Render_inv in H as (sa & oa & sc & oc & Ha & Hc & ->).
  apply body_commits in Ha, Hc.
  destruct (effect_frame p sc) as (_ & _ & _ & _ & _ & _ & _ & _ & ->).
  destruct (effect_frame p sa) as (_ & _ & _ & _ & _ & _ & _ & _ & E).
  congruence.
Qed.

(** The first call of a fresh instance. *)
Lemma Render_mount (s : State) (p : Props T) obj :
  Inv s -> props s = None ->
  Fuse_new (elems (items p))
    (BASE_FUSE_OPTIONS (elems (keys p)) (threshold_of (options p))) = Ok obj ->
  exists s', step (Render p) s = Ok s'
    /\ Inv s' /\ props s' = Some p
    /\ commits s' = commits s /\ now s' = now s
    /\ (guarded p = true -> timers s' = [])
    /\ (guarded p = false ->
          timers s' = [mkTimer (nextTimer s)
                         (now s + Z.max 0 (debounceMs_of (options p)))
                         (trim (query p))]).
Proof.
  intros HI Hp Hn. pose proof HI as H0. unfold Inv in H0. rewrite Hp in H0.
  assert (Fs : fuseMemo s = None /\ effectDeps s = None /\ timers s = []
               /\ effectCleanup s = false /\ (1 <= nextTimer s)%nat).
  { rewrite H0. simpl. auto. }
  destruct Fs as (Hfm & Es & Ts & Cs & Ns).
  assert (Ha : exists sa oa, useFuzzySearch s p = Ok (sa, oa)
             /\ fuseMemo sa = Some (fuse_deps_of p, mkInst (S (builds s)) obj)).
  { unfold useFuzzySearch, fuse_memo, useMemo. rewrite Hfm, Hn. simpl.
    destruct (fuzzyResults_memo s _) as [[rc frs] ns].
    eexists. eexists. split; reflexivity. }
  destruct Ha as (sa & oa & Ha & Hfa).
  destruct (body_facts s p sa oa (Inv_memo_val s HI) Ha)
    as (Hpa & Hma & _ & _ & _ & _ & Hea & Hca & Hta & Hna & Hnowa & _).
  set (sb := useEffect_debounce p sa).
  destruct (effect_frame p sa) as (Hpb & _ & Hfb & Hrb & _ & Hnowb & _).
  fold sb in Hpb, Hfb, Hrb, Hnowb.
  assert (Hfresh : fresh_ctl sa).
  { unfold fresh_ctl. rewrite Hea, Hta, Hca, Hna. auto. }
  assert (Hne : effectDeps sa <> Some (effect_deps_of p)).
  { rewrite Hea, Es. discriminate. }
  pose proof (effect_changed p sa (or_introl Hfresh) Hne) as [Heb Hgb].
  fold sb in Heb, Hgb.
  destruct (body_succeeds sb p (fuse_deps_of p) (mkInst (S (builds s)) obj))
    as (sc & oc & Hc & _); [congruence | apply same_fuse_deps_refl |].
  assert (Hvb : memo_val sb).
  { intros rd frs E. rewrite Hrb in E. exact (memo_ok_val sa p Hma rd frs E). }
  destruct (body_facts sb p sc oc Hvb Hc)
    as (_ & _ & _ & _ & _ & _ & Hec & _ & Htc & _ & Hnowc & _).
  assert (Hstep : step (Render p) s = Ok sc).
  { simpl. unfold render_once. rewrite Ha. cbn [bind fst]. fold sb.
    unfold rerender. rewrite Hpb, Hpa. unfold render_once. rewrite Hc. cbn [bind fst].
    rewrite effect_unchanged by congruence. reflexivity. }
  exists sc. split; [exact Hstep|].
  destruct (Inv_Render s p sc HI Hstep) as [Hp' HI'].
  split; [exact HI'|]. split; [exact Hp'|].
  split; [exact (Render_commits s p sc Hstep)|].
  split; [congruence|]. split.
  - intros G. rewrite G in Hgb. destruct Hgb as (Ht & _). congruence.
  - intros G. rewrite G in Hgb. destruct Hgb as (Ht & _).
    rewrite Htc, Ht, Hna, Hnowa. reflexivity.
Qed.

(** Time passes and nothing is due. *)
Lemma Tick_idle (s : State) (dt : Z) :
  timers s = [] \/ (exists tm, timers s = [tm] /\ now s + Z.max 0 dt < due tm) ->
  step (Tick dt) s = Ok (set_now (now s + Z.max 0 dt) s).
Proof. apply advance_idle. Qed.

(** Time passes and the pending timer fires. *)
Lemma Tick_fire (s : State) (p : Props T) (tm : Timer) (dt : Z) :
  Inv s -> props s = Some p -> timers s = [tm] ->
  due tm <= now s + Z.max 0 dt ->
  exists s', step (Tick dt) s = Ok s'
    /\ Inv s' /\ props s' = Some p
    /\ cell_debouncedQuery s' = commit_value tm
    /\ cell_isSearching s' = false
    /\ timers s' = []
    /\ commits s' = commits s ++ [commit_value tm]
    /\ builds s' = builds s /\ fuseMemo s' = fuseMemo s.
Proof.
  intros HI Hp Ht Hd. simpl. rewrite (advance_due dt s tm Ht Hd).
  destruct (fire_facts s p tm HI Hp Ht)
    as (s1 & Hf & HI1 & Hp1 & H1 & H2 & H3 & H4 & H5 & H6 & _).
  rewrite Hf. simpl. eexists. split; [reflexivity|].
  split; [now apply set_now_Inv|]. simpl. auto 10.
Qed.

(** Whatever the time step, the index is left alone. *)
Lemma Tick_keeps_index (s : State) (dt : Z) :
  Inv s ->
  exists s', step (Tick dt) s = Ok s'
    /\ builds s' = builds s /\ fuseMemo s' = fuseMemo s
    /\ props s' = props s.
Proof.
  intros HI. destruct (Inv_timers s HI) as [Ht|(tm & Ht)].
  - rewrite Tick_idle by auto. eexists. split; [reflexivity|]. simpl. auto.
  - destruct (Z_lt_le_dec (now s + Z.max 0 dt) (due tm)) as [L|L].
    + rewrite Tick_idle by eauto. eexists. split; [reflexivity|]. simpl. auto.
    + destruct (props s) as [p|] eqn:Hp.
      * destruct (Tick_fire s p tm dt HI Hp Ht L)
          as (s' & Hs & _ & Hp' & _ & _ & _ & _ & Hb & Hf).
        exists s'. auto.
      * unfold Inv in HI. rewrite Hp in HI. rewrite HI in Ht. discriminate.
Qed.

Lemma Render_keeps_index (s : State) (p : Props T) d f :
  fuseMemo s = Some (d, f) -> same_fuse_deps d (fuse_deps_of p) = true ->
  exists s', step (Render p) s = Ok s'
    /\ builds s' = builds s /\ fuseMemo s' = fuseMemo s.
Proof.
  intros Hf Sd.
  destruct (body_succeeds s p d f Hf Sd) as (sa & oa & Ha & Ba & Fa).
  set (sb := useEffect_debounce p sa).
  destruct (effect_frame p sa) as (Hpb & _ & Hfb & _ & _ & _ & Hbb & _).
  fold sb in Hpb, Hfb, Hbb.
  assert (Hpa : props sa = Some p).
  { apply useFuzzySearch_inv in Ha as (? & ? & ? & ? & ? & ? & _ & _ & _ & ->).
    reflexivity. }
  destruct (body_succeeds sb p d f) as (sc & oc & Hc & Bc & Fc);
    [congruence | exact Sd |].
  destruct (effect_frame p sc) as (_ & _ & Hfd & _ & _ & _ & Hbd & _).
  exists (useEffect_debounce p sc). split.
  - simpl. unfold render_once. rewrite Ha. cbn [bind fst]. fold sb.
    unfold rerender. rewrite Hpb, Hpa. unfold render_once. now rewrite Hc.
  - split; congruence.
Qed.

(** ** The index is built from items, keys and threshold only *)

(** C1. From any reachable state of a mounted instance, however many
    times the hook is called with the same items array, the same keys
    array and the same threshold, whatever the queries and whatever
    time passes in between, every call returns and the [Fuse] instance
    is never constructed again: the construction count and the
    memoised instance stay as they were. *)
Theorem index_not_rebuilt (s : State) (p0 : Props T) (evs : list Event) :
  reachable s -> props s = Some p0 ->
  Forall (keeps_index_inputs p0) evs ->
  exists s', run evs s = Ok s'
    /\ builds s' = builds s /\ fuseMemo s' = fuseMemo s.
Proof.
  intros Hr Hp Hev. pose proof (reachable_Inv s Hr) as HI.
  assert (Hd : exists d f, fuseMemo s = Some (d, f)
                           /\ same_fuse_deps d (fuse_deps_of p0) = true).
  { unfold Inv in HI. rewrite Hp in HI.
    destruct HI as [_ (d & f & _ & _ & Hf & Sd & _)]. eauto. }
  clear Hr Hp. revert s HI Hd.
  induction Hev as [|ev r Hk _ IH]; intros s HI (d & f & Hf & Sd); cbn [run].
  - eauto.
  - destruct ev as [p|dt].
    + simpl in Hk. unfold same_index_inputs in Hk.
      destruct (Render_keeps_index s p d f Hf (same_fuse_deps_trans _ _ _ Sd Hk))
        as (s1 & H1 & B1 & F1).
      assert (HI1 : Inv s1) by (now apply Inv_Render in H1).
      destruct (IH s1 HI1) as (s' & H' & B' & F').
      { exists d, f. split; [congruence | exact Sd]. }
      exists s'. rewrite H1. cbn [bind]. split; [exact H'|].
      split; congruence.
    + destruct (Tick_keeps_index s dt HI) as (s1 & H1 & B1 & F1 & _).
      assert (HI1 : Inv s1) by (now apply Inv_Tick in H1).
      destruct (IH s1 HI1) as (s' & H' & B' & F').
      { exists d, f. split; [congruence | exact Sd]. }
      exists s'. rewrite H1. cbn [bind]. split; [exact H'|].
      split; congruence.
Qed.


(** ** Pending delays *)

(** In every state of the invariant at most one delay is pending; it
    carries the trimmed raw query of the last call, and the flag is set
    while it is pending. *)
Lemma pending_is_latest (s : State) :
  Inv s ->
  (length (timers s) <= 1)%nat
  /\ forall tm p, In tm (timers s) -> props s = Some p ->
       commit_value tm = trim (query p) /\ cell_isSearching s = true.
Proof.
  intros HI. split.
  - destruct (Inv_timers s HI) as [->|(tm & ->)]; simpl; lia.
  - intros tm p Hin Hp. unfold Inv in HI. rewrite Hp in HI.
    destruct HI as [(_ & _ & H) _]. destruct (guarded p).
    + destruct H as [H _]. rewrite H in Hin. destruct Hin.
    + destruct H as (_ & id & _ & _ & [H|(Hs & d & H)]).
      * rewrite H in Hin. destruct Hin.
      * rewrite H in Hin. destruct Hin as [<-|[]]. auto.
Qed.

(** ** Raw queries below [minChars] *)

Lemma quiet_run (p0 : Props T) (evs : list Event) :
  Forall (quiet p0) evs ->
  forall s q, Inv s -> props s = Some (with_query p0 q) ->
    guarded (with_query p0 q) = true -> timers s = [] ->
    exists s', run evs s = Ok s'
      /\ cell_debouncedQuery s' = cell_debouncedQuery s
      /\ cell_isSearching s' = cell_isSearching s
      /\ timers s' = [] /\ commits s' = commits s /\ output s' = output s.
Proof.
  induction 1 as [|ev r Hq _ IH]; intros s q HI Hp Hg Ht; cbn [run].
  - exists s. repeat split; auto.
  - destruct ev as [p|dt].
    + destruct Hq as (q' & -> & Hg').
      destruct (Render_query s (with_query p0 q) q' HI Hp)
        as (s1 & H1 & HI1 & Hp1 & Hdq & Hco & _ & _ & _ & _ & Hguard & _).
      change (with_query (with_query p0 q) q') with (with_query p0 q') in *.
      destruct (Hguard Hg') as (Ht1 & Hs1 & Ho1).
      destruct (IH s1 q' HI1 Hp1 Hg' Ht1) as (s' & H' & A & B & C & D & E).
      exists s'. rewrite H1. cbn [bind]. split; [exact H'|].
      repeat split; congruence.
    + rewrite Tick_idle by auto. cbn [bind].
      destruct (IH (set_now (now s + Z.max 0 dt) s) q) as (s' & H' & A & B & C & D & E);
        [now apply set_now_Inv | exact Hp | exact Hg | exact Ht |].
      exists s'. split; [exact H'|]. simpl in *. repeat split; assumption.
Qed.

(** C8. Once the raw query, trimmed, is non-empty but shorter than
    [minChars], and for as long as it stays so while time passes, no
    delay is pending (none is started, none fires), nothing is
    committed, and the committed query, the debouncing flag and the
    whole returned object keep the values they had before. *)
Theorem below_min_suspends (s : State) (p0 : Props T) (q : jsstring)
    (evs : list Event) :
  reachable s -> props s = Some p0 ->
  guarded (with_query p0 q) = true ->
  Forall (quiet p0) evs ->
  exists s', run (Render (with_query p0 q) :: evs) s = Ok s'
    /\ cell_debouncedQuery s' = cell_debouncedQuery s
    /\ cell_isSearching s' = cell_isSearching s
    /\ timers s' = []
    /\ commits s' = commits s
    /\ output s' = output s.
Proof.
  intros Hr Hp Hg Hev. pose proof (reachable_Inv s Hr) as HI.
  destruct (Render_query s p0 q HI Hp)
    as (s1 & H1 & HI1 & Hp1 & Hdq & Hco & _ & _ & _ & _ & Hguard & _).
  destruct (Hguard Hg) as (Ht1 & Hs1 & Ho1).
  destruct (quiet_run p0 evs Hev s1 q HI1 Hp1 Hg Ht1) as (s' & H' & A & B & C & D & E).
  exists s'. cbn [run]. rewrite H1. cbn [bind]. split; [exact H'|].
  repeat split; congruence.
Qed.

(** ** Coalescing of rapid updates *)

Lemma last_cons {A} (a d : A) (l : list A) : last (a :: l) d = last l a.
Proof.
  revert a d. induction l as [|b l IH]; intros a d; [reflexivity|].
  change (last (a :: b :: l) d) with (last (b :: l) d).
  now rewrite !IH.
Qed.

Lemma burst_run (p0 : Props T) (us : list (Z * jsstring)) :
  Forall (fun u => 0 <= fst u < debounceMs_of (options p0)) us ->
  forall s q, Inv s -> props s = Some (with_query p0 q) ->
    pending_shape p0 s q -> changing q (map snd us) ->
    exists s', run (burst p0 us) s = Ok s'
      /\ Inv s' /\ props s' = Some (with_query p0 (last (map snd us) q))
      /\ pending_shape p0 s' (last (map snd us) q)
      /\ commits s' = commits s.
Proof.
  induction 1 as [|[dt q'] r Hdt _ IH]; intros s q HI Hp Hsh Hch.
  - exists s. simpl. repeat split; auto.
  - simpl in Hdt. destruct Hch as [Hne Hch]. fold (map snd r) in Hch.
    cbn [burst flat_map fst snd app run map]. rewrite last_cons.
    (* the time step fires nothing *)
    rewrite Tick_idle.
    2:{ unfold pending_shape in Hsh. destruct (guarded (with_query p0 q)).
        - now left.
        - right. destruct Hsh as (id & Hsh). eexists. split; [exact Hsh|].
          simpl. lia. }
    cbn [bind]. set (sa := set_now (now s + Z.max 0 dt) s).
    assert (HIa : Inv sa) by now apply set_now_Inv.
    destruct (Render_query sa (with_query p0 q) q' HIa Hp)
      as (s1 & H1 & HI1 & Hp1 & _ & Hco & Hnow & _ & _ & _ & Hg1 & Hg2).
    change (with_query (with_query p0 q) q') with (with_query p0 q') in *.
    change (options (with_query p0 q)) with (options p0) in *.
    rewrite H1. cbn [bind].
    assert (Hsh1 : pending_shape p0 s1 q').
    { unfold pending_shape. destruct (guarded (with_query p0 q')) eqn:G.
      - now destruct (Hg1 eq_refl).
      - destruct (Hg2 eq_refl Hne) as [Ht _]. rewrite Ht, Hnow. eauto. }
    destruct (IH s1 q' HI1 Hp1 Hsh1 Hch) as (s' & H' & HI' & Hp' & Hsh' & Hco').
    exists s'. split; [exact H'|]. repeat split; try assumption.
    rewrite Hco', Hco. reflexivity.
Qed.

(** C6, as the code has it. Take a burst of updates of the raw query:
    the first is the first call of a fresh instance whose index the
    engine builds, or changes the raw query of a mounted instance; each
    later one changes the raw query and arrives less than [debounceMs]
    after the previous one; [debounceMs] is within the range of
    [setTimeout]. Once [debounceMs] has passed after the last update,
    no delay is pending. If the last update is empty after trimming or
    has at least [minChars] code units, the committed query has been
    set exactly once since the burst began, to the trimmed value of the
    last update, and the flag is cleared; if it is non-empty and
    shorter than [minChars], nothing has been committed. At every point
    of the run at most one delay is pending and it carries the trimmed
    value of the latest update, the earlier one having been cancelled. *)
Theorem debounce_coalesces (s : State) (p0 : Props T) (q1 : jsstring)
    (us : list (Z * jsstring)) (wait : Z) :
  reachable s -> first_update s p0 q1 ->
  changing q1 (map snd us) ->
  Forall (fun u => 0 <= fst u < debounceMs_of (options p0)) us ->
  debounceMs_of (options p0) <= TIMEOUT_MAX ->
  Z.max 0 (debounceMs_of (options p0)) <= wait ->
  exists s',
    run (Render (with_query p0 q1) :: burst p0 us ++ [Tick wait]) s = Ok s'
    /\ timers s' = []
    /\ (if guarded (with_query p0 (last (map snd us) q1))
        then commits s' = commits s
        else commits s' = commits s ++ [trim (last (map snd us) q1)]
             /\ cell_debouncedQuery s' = trim (last (map snd us) q1)
             /\ cell_isSearching s' = false)
    /\ forall pre post,
         Render (with_query p0 q1) :: burst p0 us ++ [Tick wait] = pre ++ post ->
         exists s1, run pre s = Ok s1
           /\ (length (timers s1) <= 1)%nat
           /\ forall tm p, In tm (timers s1) -> props s1 = Some p ->
                commit_value tm = trim (query p).
Proof.
  intros Hr Hfirst Hch Hdt _ Hwait.
  pose proof (reachable_Inv s Hr) as HI.
  assert (H1 : exists s1, step (Render (with_query p0 q1)) s = Ok s1
             /\ Inv s1 /\ props s1 = Some (with_query p0 q1)
             /\ commits s1 = commits s /\ pending_shape p0 s1 q1).
  { unfold first_update in Hfirst. destruct (props s) as [p|] eqn:Hp.
    - destruct Hfirst as [-> Hne].
      destruct (Render_query s p0 q1 HI Hp)
        as (s1 & H1 & HI1 & Hp1 & _ & Hco1 & Hnow1 & _ & _ & _ & Hg1 & Hg2).
      exists s1. repeat split; try assumption.
      unfold pending_shape. destruct (guarded (with_query p0 q1)) eqn:G.
      + now destruct (Hg1 eq_refl).
      + destruct (Hg2 eq_refl Hne) as [Ht _]. rewrite Ht, Hnow1. eauto.
    - destruct Hfirst as (obj & Hn).
      destruct (Render_mount s (with_query p0 q1) obj HI Hp Hn)
        as (s1 & H1 & HI1 & Hp1 & Hco1 & Hnow1 & Hg1 & Hg2).
      exists s1. repeat split; try assumption.
      unfold pending_shape. destruct (guarded (with_query p0 q1)) eqn:G.
      + now apply Hg1.
      + rewrite (Hg2 eq_refl), Hnow1. simpl. eauto. }
  destruct H1 as (s1 & H1 & HI1 & Hp1 & Hco1 & Hsh1).
  destruct (burst_run p0 us Hdt s1 q1 HI1 Hp1 Hsh1 Hch)
    as (s2 & H2 & HI2 & Hp2 & Hsh2 & Hco2).
  assert (H3 : exists s3, step (Tick wait) s2 = Ok s3
             /\ timers s3 = []
             /\ if guarded (with_query p0 (last (map snd us) q1))
                then commits s3 = commits s2
                else commits s3 = commits s2 ++ [trim (last (map snd us) q1)]
                     /\ cell_debouncedQuery s3 = trim (last (map snd us) q1)
                     /\ cell_isSearching s3 = false).
  { unfold pending_shape in Hsh2.
    destruct (guarded (with_query p0 (last (map snd us) q1))).
    - rewrite Tick_idle by (now left). eexists. split; [reflexivity|].
      simpl. auto.
    - destruct Hsh2 as (id & Ht2).
      destruct (Tick_fire s2 _ _ wait HI2 Hp2 Ht2)
        as (s3 & H3 & _ & _ & Hdq3 & Hs3 & Ht3 & Hco3 & _); [simpl; lia|].
      exists s3. auto. }
  destruct H3 as (s3 & H3 & Ht3 & Hcase).
  assert (Hrun : run (Render (with_query p0 q1) :: burst p0 us ++ [Tick wait]) s = Ok s3).
  { cbn [run]. rewrite H1. cbn [bind]. rewrite run_app, H2. cbn [bind run].
    rewrite H3. reflexivity. }
  exists s3. split; [exact Hrun|]. split; [exact Ht3|]. split.
  - destruct (guarded (with_query p0 (last (map snd us) q1))).
    + congruence.
    + destruct Hcase as (Hco3 & Hdq3 & Hs3).
      split; [rewrite Hco3, Hco2, Hco1; reflexivity|]. auto.
  - intros pre post E. rewrite E, run_app in Hrun.
    apply bind_ok in Hrun as (sm & Hm & _). exists sm. split; [exact Hm|].
    pose proof (reachable_Inv sm (reachable_run pre s sm Hr Hm)) as HIm.
    destruct (pending_is_latest sm HIm) as [L1 L2]. split; [exact L1|].
    intros tm p Hin Hpm. now destruct (L2 tm p Hin Hpm).
Qed.


End Facts.

(** ** The hook at work on the small engine *)

Lemma reachable_state_after {T : Type} {engine : FuseEngine T}
    (evs : list (@Event T)) :
  reachable (state_after evs).
Proof.
  unfold state_after. destruct (run evs init) as [s|e] eqn:E.
  - eapply reachable_run; [apply reach_init | exact E].
  - apply reach_init.
Qed.

Lemma index_not_rebuilt_witness :
  exists s',
    run [Render (demo (lit "ef")); Tick 300; Render (demo (lit "effer"))]
        settled_empty = Ok s'
    /\ builds s' = builds settled_empty
    /\ fuseMemo s' = fuseMemo settled_empty.
Proof.
  apply (index_not_rebuilt settled_empty (demo [])).
  - apply reachable_state_after.
  - vm_compute. reflexivity.
  - repeat constructor.
Defined.

Lemma fuzzy_mode_flag_witness :
  exists out, output committed_ef = Some out
    /\ isFuzzyMode out = true
    /\ (isFuzzyMode out = true <->
        minChars_of (options (demo (lit "ef"))) <= len (trim (debouncedQuery out))
        /\ exists r, In r (fuzzyResults out) /\ (near_exact_cutoff < score r)%Q).
Proof.
  assert (E : exists out, output committed_ef = Some out /\ isFuzzyMode out = true).
  { vm_compute. eexists. split; reflexivity. }
  destruct E as (out & E1 & E2). exists out.
  split; [exact E1|]. split; [exact E2|].
  apply (fuzzy_mode_flag committed_ef).
  - apply reachable_state_after.
  - vm_compute. reflexivity.
  - exact E1.
Defined.

Lemma short_query_bypass_witness :
  exists s' out,
    useFuzzySearch init (demo (lit "e")) = Ok (s', out)
    /\ results out = elems demo_items
    /\ searches s' = [].
Proof.
  assert (Hmut : items_unmutated (engine := prefix_engine) init (demo (lit "e"))).
  { intros f dq its mc frs H. discriminate H. }
  assert (E : exists s' out, useFuzzySearch init (demo (lit "e")) = Ok (s', out)
                             /\ len (trim (debouncedQuery out)) < 2).
  { vm_compute. eexists. eexists. split; reflexivity. }
  destruct E as (s' & out & E & Hshort). exists s', out. split; [exact E|].
  destruct (short_query_bypass init (demo (lit "e")) s' out reach_init Hmut E)
    as (H1 & _ & _ & _ & H2).
  - right. exact Hshort.
  - split; [exact H1 | exact H2].
Defined.


Lemma build_fails_only_in_engine_witness :
  exists s' out,
    useFuzzySearch init unconfigured = Ok (s', out)
    /\ builds s' = 1%nat.
Proof.
  destruct (build_fails_only_in_engine (engine := prefix_engine) init unconfigured)
    as [_ H].
  destruct (H (elems demo_items) eq_refl eq_refl) as (s' & out & H1 & H2 & _).
  exists s', out. split; [exact H1 | exact H2].
Defined.

(** C5, as the specification words it, fails: with no key at all and a
    threshold of zero, the first render constructs the index and
    returns; nothing is thrown. *)
Lemma unvalidated_build :
  elems (keys unconfigured) = []
  /\ (threshold_of (options unconfigured) <= 0)%Q
  /\ (exists s', step (Render unconfigured) init = Ok s' /\ builds s' = 1%nat)
  /\ ~ (exists e, useFuzzySearch init unconfigured = Throw e).
Proof.
  split; [reflexivity|]. split; [vm_compute; discriminate|]. split.
  - vm_compute. eexists. split; reflexivity.
  - intros [e _]. destruct e.
Qed.

Lemma first_render_query_witness :
  exists s' out,
    useFuzzySearch init (demo (lit " eff ")) = Ok (s', out)
    /\ debouncedQuery out = lit " eff "
    /\ searches s' = [lit "eff"].
Proof.
  assert (E : exists s' out, useFuzzySearch init (demo (lit " eff ")) = Ok (s', out)).
  { vm_compute. eexists. eexists. reflexivity. }
  destruct E as (s' & out & E). exists s', out. split; [exact E|].
  destruct (first_render_query init (demo (lit " eff ")) s' out
              reach_init eq_refl E) as (H1 & _ & _ & H2).
  split; [exact H1|]. rewrite H2. vm_compute. reflexivity.
Defined.

(** C10, as worded, fails in its last part: created with the raw query
    " eff ", the session has " eff " as committed query at once, but
    the text sent to the index in that render is "eff". *)
Lemma first_search_is_trimmed :
  exists s' out,
    useFuzzySearch init (demo (lit " eff ")) = Ok (s', out)
    /\ debouncedQuery out = query (demo (lit " eff "))
    /\ searches s' = [lit "eff"]
    /\ searches s' <> [query (demo (lit " eff "))].
Proof.
  vm_compute. eexists. eexists. split; [reflexivity|]. split; [reflexivity|].
  split; [reflexivity | discriminate].
Qed.

Lemma below_min_suspends_witness :
  exists s',
    run (Render (with_query (demo (lit "ef")) (lit "e"))
           :: [Tick 500; Render (demo (lit "f")); Tick 500]) typing_ef = Ok s'
    /\ cell_debouncedQuery s' = cell_debouncedQuery typing_ef
    /\ cell_isSearching s' = cell_isSearching typing_ef
    /\ timers s' = []
    /\ commits s' = commits typing_ef
    /\ output s' = output typing_ef.
Proof.
  apply (below_min_suspends typing_ef (demo (lit "ef")) (lit "e")).
  - apply reachable_state_after.
  - vm_compute. reflexivity.
  - vm_compute. reflexivity.
  - constructor; [exact I|]. constructor.
    + exists (lit "f"). split; vm_compute; reflexivity.
    + constructor; [exact I | constructor].
Defined.

Lemma debounce_coalesces_witness :
  exists s',
    run (Render (with_query (demo []) (lit "ef"))
           :: burst (demo []) [(50, lit "eff"); (50, lit "effe")]
              ++ [Tick 200]) settled_empty = Ok s'
    /\ commits s' = commits settled_empty ++ [lit "effe"]
    /\ cell_debouncedQuery s' = lit "effe"
    /\ cell_isSearching s' = false
    /\ timers s' = [].
Proof.
  assert (G : guarded (with_query (demo [])
                (last (map snd [(50, lit "eff"); (50, lit "effe")]) (lit "ef")))
              = false).
  { vm_compute. reflexivity. }
  destruct (debounce_coalesces settled_empty (demo []) (lit "ef")
              [(50, lit "eff"); (50, lit "effe")] 200)
    as (s' & H1 & H5 & H2 & _).
  - apply reachable_state_after.
  - unfold first_update.
    assert (E : props settled_empty = Some (demo [])) by (vm_compute; reflexivity).
    rewrite E. split; [reflexivity | discriminate].
  - simpl. repeat split; discriminate.
  - repeat constructor; simpl; lia.
  - vm_compute. discriminate.
  - vm_compute. discriminate.
  - rewrite G in H2. destruct H2 as (H2 & H3 & H4).
    exists s'. repeat split; assumption.
Defined.

(** C6, as the specification words it, fails: "ef" and, 50 ms later,
    "e" arrive within the delay; the pending delay is cancelled, none
    is started, and the committed query is never updated, however long
    one waits. *)
Lemma short_last_update_commits_nothing :
  exists s',
    run ef_then_e settled_empty = Ok s'
    /\ commits s' = commits settled_empty
    /\ commits s' <> commits settled_empty ++ [trim (lit "e")]
    /\ cell_debouncedQuery s' = [].
Proof.
  vm_compute. eexists. split; [reflexivity|].
  split; [reflexivity|]. split; [discriminate | reflexivity].
Qed.

(** C9 at work: after "ef" and then "e" within the delay, no delay is
    pending, for ever, and [isSearching] is still true, in the cell and
    in the returned object. *)
Lemma searching_flag_stuck :
  exists s',
    run ef_then_e settled_empty = Ok s'
    /\ timers s' = []
    /\ cell_isSearching s' = true
    /\ option_map isSearching (output s') = Some true.
Proof.
  vm_compute. eexists. repeat split; reflexivity.
Qed.


End FuzzyFacts.

(** * Further properties of the highlight resolver *)

Module HighlightMore.

Import Highlight.
Import HighlightFacts.

(** ** Merging keeps the highlighted positions *)

(** X1. On spans whose offsets are safe integers, [mergeIndices]
    neither loses nor adds a position: a position lies in one of the
    merged spans exactly when it lies in one of the given spans,
    whatever their order. *)
Theorem mergeIndices_positions (ixs : list span) (i : Z) :
  Forall safe_span ixs ->
  (inside i (mergeIndices ixs) <-> inside i ixs).
Proof.
  intros _. split.
  - intros H. unfold mergeIndices in H.
    apply merge_fold_sound in H as [(m & [] & _)|(m & Hm & H)].
    exists m. split; [now apply sort_by_start_in | exact H].
  - intros (a & Ha & H). destruct (mergeIndices_covers ixs a Ha) as (m & Hm & C).
    exists m. split; [exact Hm|]. unfold covers in C. lia.
Qed.

Lemma mergeIndices_positions_witness :
  Forall safe_span [(0, 1); (3, 4); (1, 3)]
  /\ inside 2 (mergeIndices [(0, 1); (3, 4); (1, 3)])
  /\ ~ inside 5 (mergeIndices [(0, 1); (3, 4); (1, 3)]).
Proof.
  assert (Hs : Forall safe_span [(0, 1); (3, 4); (1, 3)]).
  { repeat constructor; vm_compute; discriminate. }
  split; [exact Hs|]. split.
  - apply (mergeIndices_positions [(0, 1); (3, 4); (1, 3)] 2 Hs).
    exists (1, 3). split; [right; right; now left | simpl; lia].
  - intros H. apply (mergeIndices_positions [(0, 1); (3, 4); (1, 3)] 5 Hs) in H.
    destruct H as (m & Hm & H). simpl in Hm.
    destruct Hm as [<-|[<-|[<-|[]]]]; simpl in H; lia.
Defined.

(** ** The merged spans are a canonical form *)

Lemma separated_inside_lo (lo i : Z) (l : list span) :
  separated lo l -> inside i l -> lo <= i.
Proof.
  intros Hs (m & Hm & H). destruct (separated_each lo l m Hs Hm). lia.
Qed.

(** Two separated lists with the same positions are the same list. *)
Lemma separated_unique (l1 : list span) :
  forall l2 lo1 lo2,
    separated lo1 l1 -> separated lo2 l2 ->
    (forall i, inside i l1 <-> inside i l2) -> l1 = l2.
Proof.
  induction l1 as [|[s1 e1] r1 IH]; intros [|[s2 e2] r2] lo1 lo2 H1 H2 Heq.
  - reflexivity.
  - destruct H2 as (_ & W & _).
    destruct (proj2 (Heq s2)) as (m & [] & _).
    exists (s2, e2). split; [now left | simpl; lia].
  - destruct H1 as (_ & W & _).
    destruct (proj1 (Heq s1)) as (m & [] & _).
    exists (s1, e1). split; [now left | simpl; lia].
  - destruct H1 as (_ & W1 & R1). destruct H2 as (_ & W2 & R2).
    assert (In1 : forall i, inside i ((s1, e1) :: r1) <-> s1 <= i <= e1 \/ inside i r1).
    { intros i. change ((s1, e1) :: r1) with ([(s1, e1)] ++ r1).
      rewrite inside_app, inside_one. reflexivity. }
    assert (In2 : forall i, inside i ((s2, e2) :: r2) <-> s2 <= i <= e2 \/ inside i r2).
    { intros i. change ((s2, e2) :: r2) with ([(s2, e2)] ++ r2).
      rewrite inside_app, inside_one. reflexivity. }
    assert (Hs : s1 = s2).
    { assert (A : s2 <= s1).
      { destruct (proj1 (In2 s1)) as [A|A]; [apply Heq, In1; lia | lia |].
        apply (separated_inside_lo _ _ _ R2) in A. lia. }
      assert (B : s1 <= s2).
      { destruct (proj1 (In1 s2)) as [B|B]; [apply Heq, In2; lia | lia |].
        apply (separated_inside_lo _ _ _ R1) in B. lia. }
      lia. }
    subst s2.
    assert (He : e1 = e2).
    { destruct (Z.lt_trichotomy e1 e2) as [L|[E|L]]; [exfalso | exact E | exfalso].
      - destruct (proj1 (In1 (e1 + 1))) as [A|A]; [apply Heq, In2; lia | lia |].
        apply (separated_inside_lo _ _ _ R1) in A. lia.
      - destruct (proj1 (In2 (e2 + 1))) as [A|A]; [apply Heq, In1; lia | lia |].
        apply (separated_inside_lo _ _ _ R2) in A. lia. }
    subst e2. f_equal.
    apply (IH r2 (e1 + 2) (e1 + 2) R1 R2). intros i. split; intros H.
    + pose proof (separated_inside_lo _ _ _ R1 H).
      destruct (proj1 (In2 i)) as [A|A]; [apply Heq, In1; now right | lia | exact A].
    + pose proof (separated_inside_lo _ _ _ R2 H).
      destruct (proj1 (In1 i)) as [A|A]; [apply Heq, In2; now right | lia | exact A].
Qed.

Lemma lower_bound_exists (l : list span) :
  exists lo, Forall (fun sp => lo <= fst sp) l.
Proof.
  induction l as [|[s e] r (lo & IH)].
  - exists 0. constructor.
  - exists (Z.min lo s). constructor; [simpl; lia|].
    eapply Forall_impl; [|exact IH]. simpl. intros a. lia.
Qed.

Lemma mergeIndices_separated_wf (ixs : list span) :
  Forall wf_span ixs -> exists lo, separated lo (mergeIndices ixs).
Proof.
  intros Hwf. destruct (lower_bound_exists ixs) as (lo & Hlo). exists lo.
  unfold mergeIndices. apply merge_fold_separated; [|exact I].
  apply sort_by_start_Forall. rewrite Forall_forall in *.
  intros sp Hsp. split; [now apply Hlo | now apply Hwf].
Qed.

(** X2. For spans with [start <= end], the result of [mergeIndices]
    depends on the set of spans only, not on the order in which the
    engine lists them. *)
Theorem mergeIndices_order_independent (l l' : list span) :
  Forall wf_span l -> Permutation l l' ->
  mergeIndices l = mergeIndices l'.
Proof.
  intros Hwf Hp.
  assert (Hwf' : Forall wf_span l') by (eapply Permutation_Forall; eassumption).
  destruct (mergeIndices_separated_wf l Hwf) as (lo & S1).
  destruct (mergeIndices_separated_wf l' Hwf') as (lo' & S2).
  apply (separated_unique _ _ lo lo' S1 S2). intros i.
  rewrite !merged_inside. unfold inside. split.
  - intros (m & Hm & H). exists m. split; [eapply Permutation_in; eassumption | exact H].
  - intros (m & Hm & H). exists m.
    split; [eapply Permutation_in; [apply Permutation_sym|]; eassumption | exact H].
Qed.

Lemma mergeIndices_order_independent_witness :
  mergeIndices [(4, 6); (0, 3); (8, 9)] = mergeIndices [(0, 3); (8, 9); (4, 6)].
Proof.
  apply mergeIndices_order_independent.
  - repeat constructor; unfold wf_span; simpl; lia.
  - apply Permutation_cons_append with (l := [(0, 3); (8, 9)]).
Defined.

Lemma separated_wf (lo : Z) (l : list span) : separated lo l -> Forall wf_span l.
Proof.
  intros H. apply Forall_forall. intros m Hm.
  destruct (separated_each lo l m H Hm). exact H1.
Qed.

(** X3. Merging is idempotent: for spans with [start <= end], merging
    the merged spans again changes nothing. *)
Theorem mergeIndices_idempotent (ixs : list span) :
  Forall wf_span ixs ->
  mergeIndices (mergeIndices ixs) = mergeIndices ixs.
Proof.
  intros Hwf. destruct (mergeIndices_separated_wf ixs Hwf) as (lo & S1).
  destruct (mergeIndices_separated_wf (mergeIndices ixs) (separated_wf _ _ S1))
    as (lo' & S2).
  apply (separated_unique _ _ lo' lo S2 S1). intros i.
  apply merged_inside.
Qed.

Lemma mergeIndices_idempotent_witness :
  mergeIndices (mergeIndices [(4, 6); (0, 3); (8, 9)])
  = mergeIndices [(4, 6); (0, 3); (8, 9)].
Proof.
  apply mergeIndices_idempotent.
  repeat constructor; unfold wf_span; simpl; lia.
Defined.

(** ** Which code units are highlighted *)

Lemma highlighted_at_plain (tail : list HighlightSegment) (off i : Z) :
  Forall (fun sg => highlighted sg = false) tail ->
  highlighted_at tail off i = false.
Proof.
  intros H. revert off. induction H as [|sg r Hsg _ IH]; intros off; simpl.
  - reflexivity.
  - rewrite Hsg, andb_false_r. rewrite IH. now destruct (_ <? _).
Qed.

Lemma inside_cons (i s e : Z) (r : list span) :
  inside i ((s, e) :: r) <-> s <= i <= e \/ inside i r.
Proof.
  change ((s, e) :: r) with ([(s, e)] ++ r).
  rewrite inside_app, inside_one. reflexivity.
Qed.

Lemma emit_rec_highlighted_at (t : jsstring) (tail : list HighlightSegment)
    (i : Z) (merged : list span) :
  Forall (fun sg => highlighted sg = false) tail ->
  forall li, 0 <= li -> li <= i ->
    separated li merged -> Forall (fun m => snd m < len t) merged ->
    (highlighted_at (emit_rec t li merged ++ tail) li i = true <-> inside i merged).
Proof.
  intros Ht. induction merged as [|[s e] r IH]; intros li Hli Hi Hsep Hb.
  - simpl. rewrite highlighted_at_plain by exact Ht. split; [discriminate|].
    intros (m & [] & _).
  - destruct Hsep as (H1 & H2 & H3).
    inversion Hb as [|? ? He Hb']; subst. simpl in He.
    assert (Hr : forall j, inside j r -> e + 2 <= j).
    { intros j Hj. eapply separated_inside_lo; eassumption. }
    assert (Hrest : e + 1 <= i ->
              (highlighted_at (emit_rec t (e + 1) r ++ tail) (e + 1) i = true
               <-> inside i r)).
    { intros Hge. apply IH; [lia | exact Hge | | exact Hb'].
      eapply separated_mono; [|exact H3]. lia. }
    assert (Hmark : s <= i ->
              (highlighted_at
                 (seg (slice t s (e + 1)) true :: emit_rec t (e + 1) r ++ tail) s i
               = true <-> inside i ((s, e) :: r))).
    { intros Hs. cbn [highlighted_at text highlighted].
      replace (len (slice t s (e + 1))) with (e + 1 - s)
        by (unfold len; rewrite slice_length; lia).
      replace (s + (e + 1 - s)) with (e + 1) by lia.
      rewrite inside_cons. destruct (i <? e + 1) eqn:C.
      - apply Z.ltb_lt in C. rewrite andb_true_r.
        split; [intros _; left; lia | intros _; apply Z.leb_le; exact Hs].
      - apply Z.ltb_ge in C. rewrite Hrest by lia.
        split; [now right | intros [A|A]; [lia | exact A]]. }
    cbn [emit_rec]. destruct (s >? li) eqn:C.
    + rewrite Z.gtb_ltb in C. apply Z.ltb_lt in C.
      cbn [app highlighted_at text highlighted].
      replace (len (slice t li s)) with (s - li)
        by (unfold len; rewrite slice_length; lia).
      replace (li + (s - li)) with s by lia.
      destruct (i <? s) eqn:D.
      * apply Z.ltb_lt in D. rewrite andb_false_r. rewrite inside_cons.
        split; [discriminate|]. intros [A|A]; [lia|]. apply Hr in A. lia.
      * apply Z.ltb_ge in D. now apply Hmark.
    + rewrite Z.gtb_ltb in C. apply Z.ltb_ge in C.
      assert (s = li) by lia. subst s. cbn [app]. now apply Hmark.
Qed.

(** X4. For valid spans, code unit [i] of the text falls in a
    highlighted segment exactly when it lies in one of the match spans
    of the requested field: nothing else is highlighted and no matched
    position is missed. *)
Theorem highlighted_iff_matched
    (t : jsstring) (ms : list FuseResultMatch) (k : jsstring)
    (fm : FuseResultMatch) (i : Z) :
  find (match_has_key k) ms = Some fm ->
  Forall (valid_span t) (indices fm) ->
  0 <= i < len t ->
  (highlighted_at (getHighlightSegments t (Some ms) k) 0 i = true
   <-> inside i (indices fm)).
Proof.
  intros Hf Hv Hi.
  destruct (indices fm) as [|i0 ix'] eqn:Eix.
  - unfold getHighlightSegments. rewrite Hf, Eix.
    assert (P : highlighted_at [seg t false] 0 i = false).
    { simpl. rewrite andb_false_r. now destruct (_ <? _). }
    destruct (_ || _)%bool; simpl Nat.eqb; cbv iota; rewrite P;
      (split; [discriminate | intros (m & [] & _)]).
  - assert (Ht : t <> []).
    { intros ->. unfold len in Hi. simpl in Hi. lia. }
    rewrite <- Eix in *.
    rewrite getHighlightSegments_found with (fm := fm);
      [|exact Hf|rewrite Eix; congruence|exact Ht].
    rewrite <- merged_inside.
    apply emit_rec_highlighted_at.
    + destruct (_ <? _); repeat constructor.
    + lia.
    + lia.
    + now apply mergeIndices_separated with (t := t).
    + now apply mergeIndices_bound.
Qed.

Lemma highlighted_iff_matched_witness :
  highlighted_at
    (getHighlightSegments (lit "EFFERALGAN")
       (Some [field_match (lit "name") [(4, 6); (0, 1)]]) (lit "name")) 0 5 = true
  <-> inside 5 [(4, 6); (0, 1)].
Proof.
  apply (highlighted_iff_matched (lit "EFFERALGAN")
           [field_match (lit "name") [(4, 6); (0, 1)]] (lit "name")
           (field_match (lit "name") [(4, 6); (0, 1)]) 5 eq_refl).
  - repeat constructor; simpl; unfold len; simpl; lia.
  - unfold len. simpl. lia.
Defined.

(** ** Shape of the segment list *)

Lemma emit_rec_nonempty (t : jsstring) (merged : list span) :
  forall li, 0 <= li ->
    separated li merged -> Forall (fun m => snd m < len t) merged ->
    Forall (fun sg => text sg <> []) (emit_rec t li merged).
Proof.
  assert (NE : forall a b, 0 <= a -> a < b -> b <= len t -> slice t a b <> []).
  { intros a b Ha Hab Hb E. pose proof (slice_length t a b) as L.
    rewrite E in L. simpl in L. lia. }
  induction merged as [|[s e] r IH]; intros li Hli Hsep Hb; simpl.
  - constructor.
  - destruct Hsep as (H1 & H2 & H3).
    inversion Hb as [|? ? He Hb']; subst. simpl in He.
    apply Forall_app. split.
    + destruct (s >? li) eqn:C; [|constructor].
      rewrite Z.gtb_ltb in C. apply Z.ltb_lt in C.
      constructor; [|constructor]. simpl. apply NE; lia.
    + constructor; [simpl; apply NE; lia|].
      apply IH; [lia | | exact Hb']. eapply separated_mono; [|exact H3]. lia.
Qed.

(** X5. On a non-empty text with valid spans no segment is empty: the
    resolver never emits an empty [mark] or an empty plain run. *)
Theorem segments_nonempty
    (t : jsstring) (matches : option (list FuseResultMatch)) (k : jsstring) :
  t <> [] ->
  (forall ms, matches = Some ms -> valid_spans t ms k) ->
  Forall (fun sg => text sg <> []) (getHighlightSegments t matches k).
Proof.
  intros Ht Hvalid.
  assert (Plain : Forall (fun sg => text sg <> []) [seg t false])
    by (repeat constructor; exact Ht).
  destruct matches as [ms|]; [|exact Plain].
  specialize (Hvalid ms eq_refl).
  destruct (find (match_has_key k) ms) as [fm|] eqn:Hf.
  - destruct (find_field_match _ _ _ Hf) as [Hin Hk].
    pose proof (Hvalid fm Hin Hk) as Hv.
    destruct (indices fm) as [|i0 ix'] eqn:Eix.
    { unfold getHighlightSegments. rewrite Hf, Eix.
      destruct (_ || _)%bool; exact Plain. }
    rewrite <- Eix in *.
    rewrite getHighlightSegments_found with (fm := fm);
      [|exact Hf|rewrite Eix; congruence|exact Ht].
    pose proof (mergeIndices_separated t _ Hv) as Hsep.
    pose proof (mergeIndices_bound t _ Hv) as Hb.
    apply Forall_app. split.
    + apply emit_rec_nonempty; [lia | exact Hsep | exact Hb].
    + assert (H0 : 0 <= 0 <= len t) by (unfold len; lia).
      destruct (emit_rec_joined t _ 0 H0 Hsep Hb) as [Hr _].
      destruct (_ <? _) eqn:C; [|constructor].
      apply Z.ltb_lt in C. constructor; [|constructor]. simpl.
      intros E. pose proof (slice_length t (last_index 0 (mergeIndices (indices fm))) (len t)) as L.
      unfold slice_from in E. rewrite E in L. simpl in L. lia.
  - unfold getHighlightSegments. rewrite Hf.
    destruct (_ || _)%bool; exact Plain.
Qed.

Lemma segments_nonempty_witness :
  Forall (fun sg => text sg <> [])
    (getHighlightSegments (lit "EFFERALGAN")
       (Some [field_match (lit "name") [(0, 3); (4, 9)]]) (lit "name")).
Proof.
  apply segments_nonempty.
  - discriminate.
  - intros ms E m Hin _. injection E as <-. destruct Hin as [<-|[]]. simpl.
    repeat constructor; simpl; unfold len; simpl; lia.
Defined.

Lemma alternating_cons2 (a b : HighlightSegment) (l : list HighlightSegment) :
  alternating (a :: b :: l) <->
  highlighted a <> highlighted b /\ alternating (b :: l).
Proof. reflexivity. Qed.

Lemma alternating_after_mark (t : jsstring) (tail : list HighlightSegment)
    (merged : list span) :
  (tail = [] \/ exists x, tail = [seg x false]) ->
  forall li x, separated (li + 1) merged ->
    alternating (seg x true :: emit_rec t li merged ++ tail).
Proof.
  intros Ht. induction merged as [|[s e] r IH]; intros li x Hsep.
  - simpl. destruct Ht as [->|(y & ->)]; simpl; repeat split; discriminate.
  - destruct Hsep as (H1 & H2 & H3).
    cbn [emit_rec]. destruct (s >? li) eqn:C;
      [|rewrite Z.gtb_ltb in C; apply Z.ltb_ge in C; lia].
    cbn [app]. rewrite !alternating_cons2. cbn [highlighted].
    split; [discriminate|]. split; [discriminate|].
    apply IH. eapply separated_mono; [|exact H3]. lia.
Qed.

(** X6. For valid spans the segments alternate: two neighbouring
    segments are never both highlighted nor both plain. *)
Theorem segments_alternate
    (t : jsstring) (matches : option (list FuseResultMatch)) (k : jsstring) :
  (forall ms, matches = Some ms -> valid_spans t ms k) ->
  alternating (getHighlightSegments t matches k).
Proof.
  intros Hvalid.
  assert (Plain : alternating [seg t false]) by (simpl; auto).
  destruct matches as [ms|]; [|exact Plain].
  specialize (Hvalid ms eq_refl).
  destruct (find (match_has_key k) ms) as [fm|] eqn:Hf.
  - destruct (find_field_match _ _ _ Hf) as [Hin Hk].
    pose proof (Hvalid fm Hin Hk) as Hv.
    destruct t as [|c t'] eqn:Et.
    { unfold getHighlightSegments. simpl. rewrite orb_true_r. exact Plain. }
    rewrite <- Et in *.
    destruct (indices fm) as [|i0 ix'] eqn:Eix.
    { unfold getHighlightSegments. rewrite Hf, Eix.
      destruct (_ || _)%bool; exact Plain. }
    rewrite <- Eix in *.
    rewrite getHighlightSegments_found with (fm := fm);
      [|exact Hf|rewrite Eix; congruence|congruence].
    pose proof (mergeIndices_separated t _ Hv) as Hsep.
    set (tail := if _ <? _ then _ else _).
    assert (Ht : tail = [] \/ exists x, tail = [seg x false]).
    { unfold tail. destruct (_ <? _); eauto. }
    destruct (mergeIndices (indices fm)) as [|[s e] r].
    + simpl. destruct Ht as [->|(y & ->)]; simpl; auto.
    + destruct Hsep as (H1 & H2 & H3). cbn [emit_rec].
      assert (A : alternating (seg (slice t s (e + 1)) true
                                 :: emit_rec t (e + 1) r ++ tail)).
      { apply alternating_after_mark; [exact Ht|].
        eapply separated_mono; [|exact H3]. lia. }
      destruct (s >? 0); cbn [app]; [|exact A].
      rewrite alternating_cons2. cbn [highlighted]. split; [discriminate | exact A].
  - unfold getHighlightSegments. rewrite Hf.
    destruct (_ || _)%bool; exact Plain.
Qed.

Lemma segments_alternate_witness :
  alternating
    (getHighlightSegments (lit "EFFERALGAN")
       (Some [field_match (lit "name") [(0, 3); (2, 5); (8, 9)]]) (lit "name")).
Proof.
  apply segments_alternate.
  intros ms E m Hin _. injection E as <-. destruct Hin as [<-|[]]. simpl.
  repeat constructor; simpl; unfold len; simpl; lia.
Defined.

(** ** When something is highlighted at all *)

Lemma merge_step_not_nil (M : list span) (sp : span) : merge_step M sp <> [].
Proof.
  destruct sp as [s e]. unfold merge_step.
  destruct (unsnoc M) as [[front [ls le]]|]; [destruct (s <=? le + 1)|];
    intros E; apply app_eq_nil in E as [_ E]; discriminate.
Qed.

Lemma merge_fold_not_nil (rest M : list span) :
  M <> [] -> fold_left merge_step rest M <> [].
Proof.
  revert M. induction rest as [|sp r IH]; intros M H; simpl; [exact H|].
  apply IH, merge_step_not_nil.
Qed.

Lemma mergeIndices_not_nil (ixs : list span) : ixs <> [] -> mergeIndices ixs <> [].
Proof.
  intros H. unfold mergeIndices.
  destruct (sort_by_start ixs) as [|sp r] eqn:E.
  - destruct ixs as [|x l]; [congruence|].
    assert (In x (sort_by_start (x :: l))) by (apply sort_by_start_in; now left).
    rewrite E in H0. destruct H0.
  - simpl. apply merge_fold_not_nil, merge_step_not_nil.
Qed.

Lemma emit_rec_has_mark (t : jsstring) (merged : list span) (li : Z) :
  merged <> [] -> existsb highlighted (emit_rec t li merged) = true.
Proof.
  destruct merged as [|[s e] r]; [congruence|]. intros _. simpl.
  rewrite existsb_app. simpl. apply orb_true_r.
Qed.

(** Either there is something to highlight, or the resolver returns the
    text as one plain segment. *)
Lemma resolver_cases
    (t : jsstring) (matches : option (list FuseResultMatch)) (k : jsstring) :
  (t <> [] /\ exists ms fm, matches = Some ms
                /\ find (match_has_key k) ms = Some fm
                /\ indices fm <> [])
  \/ (getHighlightSegments t matches k = [seg t false]
      /\ ~ (t <> [] /\ exists ms fm, matches = Some ms
                /\ find (match_has_key k) ms = Some fm
                /\ indices fm <> [])).
Proof.
  destruct matches as [ms|].
  2:{ right. split; [reflexivity|]. intros (_ & ms & fm & E & _). discriminate. }
  destruct t as [|c t'] eqn:Et.
  { right. split; [|intros (X & _); congruence].
    unfold getHighlightSegments. simpl Nat.eqb. now rewrite orb_true_r. }
  rewrite <- Et. assert (Ht : t <> []) by congruence.
  destruct (find (match_has_key k) ms) as [fm|] eqn:Hf.
  2:{ right. split.
      - unfold getHighlightSegments. rewrite Hf. now destruct (_ || _)%bool.
      - intros (_ & ms' & fm' & E & F & _). injection E as <-. congruence. }
  destruct (indices fm) as [|i0 ix'] eqn:Eix.
  { right. split.
    - unfold getHighlightSegments. rewrite Hf, Eix. now destruct (_ || _)%bool.
    - intros (_ & ms' & fm' & E & F & G). injection E as <-.
      rewrite Hf in F. injection F as <-. congruence. }
  left. split; [exact Ht|]. exists ms, fm.
  split; [reflexivity|]. split; [exact Hf|]. rewrite Eix. discriminate.
Qed.

Lemma marked_when_matched
    (t : jsstring) (ms : list FuseResultMatch) (k : jsstring)
    (fm : FuseResultMatch) :
  t <> [] -> find (match_has_key k) ms = Some fm -> indices fm <> [] ->
  existsb highlighted (getHighlightSegments t (Some ms) k) = true.
Proof.
  intros Ht Hf Hix.
  rewrite getHighlightSegments_found with (fm := fm); [|exact Hf|exact Hix|exact Ht].
  rewrite existsb_app, emit_rec_has_mark; [reflexivity|].
  now apply mergeIndices_not_nil.
Qed.

(** X7. Whatever the spans, the resolver returns a highlighted segment
    exactly when the text is non-empty and the first match carrying the
    requested key has at least one span; in every other case (no
    matches, empty text, no match for the key, no span) it returns the
    whole text as one plain segment. *)
Theorem has_highlight_iff
    (t : jsstring) (matches : option (list FuseResultMatch)) (k : jsstring) :
  (existsb highlighted (getHighlightSegments t matches k) = true
   <-> t <> [] /\ exists ms fm, matches = Some ms
                    /\ find (match_has_key k) ms = Some fm
                    /\ indices fm <> [])
  /\ (existsb highlighted (getHighlightSegments t matches k) = false ->
      getHighlightSegments t matches k = [seg t false]).
Proof.
  destruct (resolver_cases t matches k) as [Yes|[Plain No]].
  - destruct Yes as (Ht & ms & fm & -> & Hf & Hix).
    pose proof (marked_when_matched t ms k fm Ht Hf Hix) as M.
    split.
    + split; [intros _; split; [exact Ht | eauto] | intros _; exact M].
    + rewrite M. discriminate.
  - split; [|intros _; exact Plain].
    rewrite Plain. simpl. split; [discriminate | intros H; now apply No in H].
Qed.


End HighlightMore.

(** * Properties of the highlighted-text component *)

Module SearchViewFacts.

Import Highlight.
Import HighlightFacts.
Import HighlightMore.
Import SearchView.

(** The segments of a text with valid spans make up the text. *)
Lemma segments_joined
    (t : jsstring) (ms : list FuseResultMatch) (k : jsstring)
    (fm : FuseResultMatch) :
  t <> [] -> find (match_has_key k) ms = Some fm -> indices fm <> [] ->
  Forall (valid_span t) (indices fm) ->
  joined (getHighlightSegments t (Some ms) k) = t.
Proof.
  intros Ht Hf Hix Hv.
  rewrite getHighlightSegments_found with (fm := fm); [|exact Hf|exact Hix|exact Ht].
  pose proof (mergeIndices_separated t _ Hv) as Hsep.
  pose proof (mergeIndices_bound t _ Hv) as Hb.
  assert (H0 : 0 <= 0 <= len t) by (unfold len; lia).
  destruct (emit_rec_joined t _ 0 H0 Hsep Hb) as [Hr Hj].
  simpl in Hj. rewrite joined_app, Hj.
  destruct (_ <? _) eqn:C.
  - unfold joined at 1. simpl. rewrite app_nil_r. apply prefix_slice_from; lia.
  - apply Z.ltb_ge in C. unfold joined at 1. simpl. rewrite app_nil_r.
    replace (last_index 0 (mergeIndices (indices fm))) with (len t) by lia.
    unfold len. rewrite Nat2Z.id. apply firstn_all.
Qed.

Section Render.

Variable cn : string -> option string -> string.

Lemma render_segment_text (hc : option string) (i : nat) (sg : HighlightSegment) :
  textContent (render_segment cn hc i sg) = Highlight.text sg.
Proof. unfold render_segment. destruct (highlighted sg); simpl; apply app_nil_r. Qed.

Lemma render_segment_mark (hc : option string) (i : nat) (sg : HighlightSegment) :
  is_mark (render_segment cn hc i sg) = highlighted sg.
Proof. unfold render_segment. destruct (highlighted sg); reflexivity. Qed.

Lemma textContent_segments (hc : option string) (segs : list HighlightSegment) :
  forall i,
    concat (map textContent (mapi_from i (render_segment cn hc) segs)) = joined segs.
Proof.
  unfold joined. induction segs as [|sg r IH]; intros i; [reflexivity|].
  cbn [mapi_from map concat]. now rewrite IH, render_segment_text.
Qed.

Lemma marks_of_segments (hc : option string) (segs : list HighlightSegment) :
  forall i,
    map textContent (filter is_mark (mapi_from i (render_segment cn hc) segs))
    = map Highlight.text (filter highlighted segs).
Proof.
  induction segs as [|sg r IH]; intros i; [reflexivity|].
  cbn [mapi_from filter]. rewrite render_segment_mark.
  destruct (highlighted sg); [|apply IH].
  cbn [map]. now rewrite IH, render_segment_text.
Qed.

(** X8. With valid spans, the text content of what [SearchHighlight]
    renders is the text it was given, whether it renders marks or the
    plain span. *)
Theorem SearchHighlight_textContent (p : SearchHighlightProps) :
  (forall ms, matches p = Some ms -> valid_spans (text p) ms (fieldKey p)) ->
  textContent (SearchHighlight cn p) = text p.
Proof.
  intros Hvalid. unfold SearchHighlight.
  destruct (resolver_cases (text p) (matches p) (fieldKey p))
    as [(Ht & ms & fm & E & Hf & Hix)|[Plain _]].
  - rewrite E. rewrite (marked_when_matched _ ms _ fm Ht Hf Hix).
    cbn [negb textContent].
    rewrite textContent_segments. apply segments_joined with (fm := fm); trivial.
    destruct (find_field_match _ _ _ Hf) as [Hin Hk]. now apply (Hvalid ms E).
  - rewrite Plain. simpl. apply app_nil_r.
Qed.

(** X9. When the text is non-empty and the field has spans,
    [SearchHighlight] renders one [mark] per merged span, in order,
    each holding the slice of its span. *)
Theorem SearchHighlight_marks (p : SearchHighlightProps)
    (ms : list FuseResultMatch) (fm : FuseResultMatch) :
  text p <> [] -> matches p = Some ms ->
  find (match_has_key (fieldKey p)) ms = Some fm -> indices fm <> [] ->
  map textContent (filter is_mark (children (SearchHighlight cn p)))
  = map (fun m => slice (text p) (fst m) (snd m + 1)) (mergeIndices (indices fm)).
Proof.
  intros Ht E Hf Hix. unfold SearchHighlight. rewrite E.
  rewrite (marked_when_matched _ ms _ fm Ht Hf Hix). cbn [negb children].
  rewrite marks_of_segments.
  rewrite getHighlightSegments_found with (fm := fm); [|exact Hf|exact Hix|exact Ht].
  rewrite filter_app, map_app, emit_rec_highlighted.
  replace (filter highlighted _) with (@nil HighlightSegment);
    [simpl; apply app_nil_r|].
  destruct (_ <? _); reflexivity.
Qed.

(** X10. [SearchHighlight] renders the plain span around the text, with
    no [mark] and no inner span, exactly when there is nothing to
    highlight: no matches, an empty text, no match for the field, or a
    match without spans. *)
Theorem SearchHighlight_plain_iff (p : SearchHighlightProps) :
  SearchHighlight cn p = Element "span" None (className p) [Text (text p)]
  <-> ~ (text p <> []
         /\ exists ms fm, matches p = Some ms
              /\ find (match_has_key (fieldKey p)) ms = Some fm
              /\ indices fm <> []).
Proof.
  unfold SearchHighlight.
  destruct (resolver_cases (text p) (matches p) (fieldKey p))
    as [(Ht & ms & fm & E & Hf & Hix)|[Plain No]].
  - pose proof (marked_when_matched _ ms _ fm Ht Hf Hix) as M.
    rewrite E at 1. rewrite M. simpl negb. cbv iota. split.
    + intros H. exfalso. injection H as H.
      destruct (getHighlightSegments (text p) (matches p) (fieldKey p)) as [|sg r];
        [discriminate|].
      simpl in H. unfold render_segment in H.
      destruct (highlighted sg); discriminate.
    + intros H. exfalso. apply H. split; [exact Ht|]. exists ms, fm. auto.
  - rewrite Plain. simpl. split; [intros _; exact No | reflexivity].
Qed.

End Render.

Lemma SearchHighlight_textContent_witness :
  textContent
    (SearchHighlight (fun a _ => a)
       (mkSearchHighlightProps (lit "EFFERALGAN") (lit "name")
          (Some [field_match (lit "name") [(0, 3)]]) None None))
  = lit "EFFERALGAN".
Proof.
  apply (SearchHighlight_textContent (fun a _ => a)
           (mkSearchHighlightProps (lit "EFFERALGAN") (lit "name")
              (Some [field_match (lit "name") [(0, 3)]]) None None)).
  intros ms E m Hin _. injection E as <-. destruct Hin as [<-|[]]. simpl.
  repeat constructor; simpl; unfold len; simpl; lia.
Defined.

Lemma SearchHighlight_marks_witness :
  map textContent
    (filter is_mark
       (children
          (SearchHighlight (fun a _ => a)
             (mkSearchHighlightProps (lit "EFFERALGAN") (lit "name")
                (Some [field_match (lit "name") [(0, 1); (2, 3); (6, 7)]]) None None))))
  = [lit "EFFE"; lit "LG"].
Proof.
  apply (SearchHighlight_marks (fun a _ => a)
           (mkSearchHighlightProps (lit "EFFERALGAN") (lit "name")
              (Some [field_match (lit "name") [(0, 1); (2, 3); (6, 7)]]) None None)
           [field_match (lit "name") [(0, 1); (2, 3); (6, 7)]]
           (field_match (lit "name") [(0, 1); (2, 3); (6, 7)])).
  - discriminate.
  - reflexivity.
  - reflexivity.
  - discriminate.
Defined.

End SearchViewFacts.

(** * Properties of the carousel *)

Module CarouselFacts.

Import Carousel.

Section Slides.

Variable images : list string.
Hypothesis some_image : images <> [].

Lemma count_pos : 0 < count images.
Proof.
  unfold count. destruct images; [congruence | simpl length; lia].
Qed.

Lemma next_cases (c : Z) :
  0 <= c < count images ->
  next images c = if c + 1 <? count images then c + 1 else 0.
Proof.
  intros H. unfold next. rewrite Z.rem_mod_nonneg by lia.
  destruct (c + 1 <? count images) eqn:E.
  - apply Z.ltb_lt in E. apply Z.mod_small. lia.
  - apply Z.ltb_ge in E. replace (c + 1) with (count images) by lia.
    apply Z.mod_same. lia.
Qed.

Lemma prev_cases (c : Z) :
  0 <= c < count images ->
  prev images c = if c =? 0 then count images - 1 else c - 1.
Proof.
  intros H. unfold prev. rewrite Z.rem_mod_nonneg by lia.
  destruct (c =? 0) eqn:E.
  - apply Z.eqb_eq in E. subst c.
    replace (0 - 1 + count images) with (count images - 1) by lia.
    apply Z.mod_small. lia.
  - apply Z.eqb_neq in E.
    replace (c - 1 + count images) with (c - 1 + 1 * count images) by lia.
    rewrite Z.mod_add by lia. apply Z.mod_small. lia.
Qed.

Lemma update_in_range (c : Z) (a : Action) :
  possible images a -> 0 <= c < count images ->
  0 <= update images c a < count images.
Proof.
  intros Hp Hc. destruct a as [| |i|]; simpl in *.
  - rewrite next_cases by exact Hc. destruct (_ <? _) eqn:E; [apply Z.ltb_lt in E|]; lia.
  - rewrite prev_cases by exact Hc. destruct (_ =? _) eqn:E; [|apply Z.eqb_neq in E]; lia.
  - unfold count. lia.
  - rewrite next_cases by exact Hc. destruct (_ <? _) eqn:E; [apply Z.ltb_lt in E|]; lia.
Qed.

Lemma shown_count (c : Z) (a len : nat) :
  count_occ bool_dec (map (fun i => Z.of_nat i =? c) (seq a len)) true
  = if ((Z.of_nat a <=? c) && (c <? Z.of_nat (a + len)))%bool then 1%nat else 0%nat.
Proof.
  revert a. induction len as [|len IH]; intros a.
  - simpl. destruct (Z.of_nat a <=? c) eqn:E1; [|reflexivity].
    destruct (c <? Z.of_nat (a + 0)) eqn:E2; [|reflexivity].
    apply Z.leb_le in E1. apply Z.ltb_lt in E2. lia.
  - cbn [seq map count_occ]. rewrite IH.
    destruct (Z.of_nat a =? c) eqn:E.
    + apply Z.eqb_eq in E. destruct (bool_dec true true) as [_|X]; [|congruence].
      replace (Z.of_nat (S a) <=? c) with false by (symmetry; apply Z.leb_gt; lia).
      replace (Z.of_nat a <=? c) with true by (symmetry; apply Z.leb_le; lia).
      replace (c <? Z.of_nat (a + S len)) with true by (symmetry; apply Z.ltb_lt; lia).
      reflexivity.
    + apply Z.eqb_neq in E. destruct (bool_dec false true) as [X|_]; [discriminate|].
      replace (a + S len)%nat with (S a + len)%nat by lia.
      destruct (Z.of_nat (S a) <=? c) eqn:E1.
      * apply Z.leb_le in E1.
        replace (Z.of_nat a <=? c) with true by (symmetry; apply Z.leb_le; lia).
        reflexivity.
      * apply Z.leb_gt in E1.
        replace (Z.of_nat a <=? c) with false by (symmetry; apply Z.leb_gt; lia).
        reflexivity.
Qed.

(** X11. Whatever buttons are pressed and however often the interval
    fires, [current] stays an index of [images], and exactly one image
    is shown. *)
Theorem carousel_in_range (acts : list Action) :
  Forall (possible images) acts ->
  0 <= current_after images acts < count images
  /\ count_occ bool_dec (shown images (current_after images acts)) true = 1%nat.
Proof.
  intros Hacts. pose proof count_pos as Hpos.
  assert (R : forall c, 0 <= c < count images ->
                0 <= fold_left (update images) acts c < count images).
  { induction Hacts as [|a r Ha _ IH]; intros c Hc; simpl; [exact Hc|].
    apply IH. now apply update_in_range. }
  specialize (R 0 (conj (Z.le_refl 0) Hpos)). split; [exact R|].
  unfold shown. rewrite shown_count. fold (current_after images acts).
  unfold current_after, count in *.
  replace (_ && _)%bool with true; [reflexivity|].
  symmetry. apply andb_true_iff. split; [apply Z.leb_le | apply Z.ltb_lt]; simpl; lia.
Qed.

(** X12. On an index of [images], the two arrows undo each other, also
    across the wrap-around at the first and the last image. *)
Theorem carousel_prev_next (c : Z) :
  0 <= c < count images ->
  prev images (next images c) = c /\ next images (prev images c) = c.
Proof.
  intros Hc. split.
  - rewrite (next_cases c Hc). destruct (c + 1 <? count images) eqn:E.
    + apply Z.ltb_lt in E. rewrite prev_cases by lia.
      destruct (c + 1 =? 0) eqn:E0; [apply Z.eqb_eq in E0|]; lia.
    + apply Z.ltb_ge in E. rewrite prev_cases by lia. simpl. lia.
  - rewrite (prev_cases c Hc). destruct (c =? 0) eqn:E.
    + apply Z.eqb_eq in E. rewrite next_cases by lia.
      destruct (_ <? _) eqn:E1; [apply Z.ltb_lt in E1|]; lia.
    + apply Z.eqb_neq in E. rewrite next_cases by lia.
      destruct (_ <? _) eqn:E1; [|apply Z.ltb_ge in E1]; lia.
Qed.

(** X13. After [k] firings of the interval from an index [c], the
    current image is [(c + k) mod images.length]; after as many firings
    as there are images the carousel is back where it was. *)
Theorem carousel_interval (c : Z) (k : nat) :
  0 <= c < count images ->
  fold_left (update images) (repeat Interval k) c = (c + Z.of_nat k) mod count images
  /\ fold_left (update images) (repeat Interval (length images)) c = c.
Proof.
  intros Hc. pose proof count_pos as Hpos.
  assert (G : forall k c, 0 <= c < count images ->
                fold_left (update images) (repeat Interval k) c
                = (c + Z.of_nat k) mod count images).
  { clear c k Hc. induction k as [|k IH]; intros c Hc.
    - simpl. rewrite Z.add_0_r. symmetry. apply Z.mod_small. exact Hc.
    - cbn [repeat fold_left update]. rewrite IH.
      + unfold next. rewrite Z.rem_mod_nonneg by lia.
        rewrite Zplus_mod_idemp_l. f_equal. lia.
      + apply (update_in_range c Interval I Hc). }
  split; [now apply G|]. rewrite G by exact Hc. fold (count images).
  replace (c + count images) with (c + 1 * count images) by lia.
  rewrite Z.mod_add by lia. apply Z.mod_small. exact Hc.
Qed.

End Slides.

Lemma carousel_in_range_witness :
  0 <= current_after hero_images [ClickPrev; Interval; ClickDot 2; ClickNext]
     < count hero_images
  /\ count_occ bool_dec
       (shown hero_images
          (current_after hero_images [ClickPrev; Interval; ClickDot 2; ClickNext]))
       true = 1%nat.
Proof.
  apply carousel_in_range.
  - discriminate.
  - repeat constructor.
Defined.

Lemma carousel_prev_next_witness :
  prev hero_images (next hero_images 2) = 2
  /\ next hero_images (prev hero_images 0) = 0.
Proof.
  assert (R2 : 0 <= 2 < count hero_images) by (unfold count; simpl; lia).
  assert (R0 : 0 <= 0 < count hero_images) by (unfold count; simpl; lia).
  split.
  - exact (proj1 (carousel_prev_next hero_images 2 R2)).
  - exact (proj2 (carousel_prev_next hero_images 0 R0)).
Defined.

Lemma carousel_interval_witness :
  fold_left (update hero_images) (repeat Interval 4) 1 = (1 + 4) mod count hero_images
  /\ fold_left (update hero_images) (repeat Interval (length hero_images)) 1 = 1.
Proof.
  assert (H : hero_images <> []) by discriminate.
  assert (R1 : 0 <= 1 < count hero_images) by (unfold count; simpl; lia).
  exact (carousel_interval hero_images H 1 4 R1).
Defined.

End CarouselFacts.

(** * Further properties of the hook *)

Module FuzzyMore.

Import Fuzzy.
Import HighlightFacts.
Import FuzzyFacts.

(** ** [trim] *)

Lemma trim_start_head (l : jsstring) : head_ok (trim_start l).
Proof.
  induction l as [|c r IH]; simpl; [exact I|].
  destruct (is_space c) eqn:E; [exact IH | exact E].
Qed.

Lemma trim_start_id (l : jsstring) : head_ok l -> trim_start l = l.
Proof. destruct l as [|c r]; simpl; [reflexivity|]. now intros ->. Qed.

Lemma trim_start_suffix (l : jsstring) : exists pre, l = pre ++ trim_start l.
Proof.
  induction l as [|c r (pre & IH)]; simpl.
  - now exists [].
  - destruct (is_space c).
    + exists (c :: pre). simpl. now f_equal.
    + now exists [].
Qed.

Lemma trim_idempotent (x : jsstring) : trim (trim x) = trim x.
Proof.
  unfold trim. set (y := trim_start x). set (z := trim_start (rev y)).
  assert (Hy : head_ok y) by apply trim_start_head.
  assert (Hz : head_ok z) by apply trim_start_head.
  assert (Hrz : head_ok (rev z)).
  { destruct (trim_start_suffix (rev y)) as (pre & E). fold z in E.
    apply (f_equal (@rev N)) in E. rewrite rev_involutive, rev_app_distr in E.
    destruct (rev z) as [|c w]; [exact I|].
    rewrite E in Hy. exact Hy. }
  rewrite (trim_start_id (rev z) Hrz), rev_involutive.
  now rewrite (trim_start_id z Hz).
Qed.

Section More.

Context {T : Type} {engine : FuseEngine T}.

Local Abbreviation State := (@State T engine).
Local Abbreviation FuseInst := (@FuseInst T engine).
Local Abbreviation FuseDeps := (@FuseDeps T).
Local Abbreviation ResultsDeps := (@ResultsDeps T engine).
Local Abbreviation Event := (@Event T).

(** ** Induction over what the machine is made of *)

Lemma fire_fired (tm : Timer) (s : State) : fire tm s = rerender (fired tm s).
Proof. reflexivity. Qed.

Section Prim.

(** A property of states, for calls whose arguments satisfy [okp]. *)
Variable okp : Props T -> Prop.
Variable P : State -> Prop.
Hypothesis P_props : forall s p, P s -> props s = Some p -> okp p.
Hypothesis P_body :
  forall s p s' out, P s -> okp p -> useFuzzySearch s p = Ok (s', out) -> P s'.
Hypothesis P_effect : forall p s, P s -> P (useEffect_debounce p s).
Hypothesis P_fired : forall tm s, P s -> P (fired tm s).
Hypothesis P_now : forall t s, P s -> P (set_now t s).

Lemma prim_render_once (p : Props T) (s s' : State) :
  P s -> okp p -> render_once p s = Ok s' -> P s'.
Proof.
  intros HP Hok H. unfold render_once in H.
  apply bind_ok in H as ([sa oa] & Ha & Hb). simpl in Hb. injection Hb as <-.
  apply P_effect. eapply P_body; eassumption.
Qed.

Lemma prim_rerender (s s' : State) : P s -> rerender s = Ok s' -> P s'.
Proof.
  intros HP H. unfold rerender in H. destruct (props s) as [p|] eqn:E.
  - eapply prim_render_once; [exact HP | | exact H]. eapply P_props; eassumption.
  - now injection H as <-.
Qed.

Lemma prim_run_timers (fuel : nat) (target : Z) :
  forall s s', P s -> run_timers fuel target s = Ok s' -> P s'.
Proof.
  induction fuel as [|fuel IH]; intros s s' HP H; simpl in H.
  - now injection H as <-.
  - destruct (next_due target (timers s)) as [tm|].
    + apply bind_ok in H as (s1 & H1 & H2). eapply IH; [|exact H2].
      rewrite fire_fired in H1. eapply prim_rerender; [|exact H1]. now apply P_fired.
    + now injection H as <-.
Qed.

Lemma prim_step (ev : Event) (s s' : State) :
  P s -> event_ok okp ev -> step ev s = Ok s' -> P s'.
Proof.
  intros HP Hok H. destruct ev as [p|dt]; simpl in H.
  - apply bind_ok in H as (s1 & H1 & H2).
    eapply prim_rerender; [|exact H2]. eapply prim_render_once; eassumption.
  - unfold advance in H. apply bind_ok in H as (s1 & H1 & H2).
    injection H2 as <-. apply P_now. eapply prim_run_timers; eassumption.
Qed.

Lemma prim_run (evs : list Event) :
  Forall (event_ok okp) evs -> forall s s', P s -> run evs s = Ok s' -> P s'.
Proof.
  induction 1 as [|ev r Hev _ IH]; intros s s' HP H; simpl in H.
  - now injection H as <-.
  - apply bind_ok in H as (s1 & H1 & H2). eapply IH; [|exact H2].
    eapply prim_step; eassumption.
Qed.

End Prim.

Lemma prim_reachable (P : State -> Prop) :
  (forall s p s' out, P s -> useFuzzySearch s p = Ok (s', out) -> P s') ->
  (forall p s, P s -> P (useEffect_debounce p s)) ->
  (forall tm s, P s -> P (fired tm s)) ->
  (forall t s, P s -> P (set_now t s)) ->
  forall s, P init -> reachable s -> P s.
Proof.
  intros Hb He Hf Hn s H0. induction 1 as [|ev s s' _ IH H]; [exact H0|].
  apply (prim_step (fun _ => True) P) with (ev := ev) (s := s); auto.
  - intros s0 p s1 out HP _ Hbody. eapply Hb; eassumption.
  - destruct ev; exact I.
Qed.

(** ** The two memo cells, case by case *)

Lemma fuse_memo_cases (s : State) (p : Props T) fc f nb :
  fuse_memo s p = Ok (fc, f, nb) ->
  (exists d, fuseMemo s = Some (d, f) /\ same_fuse_deps d (fuse_deps_of p) = true
             /\ fc = fuseMemo s /\ nb = builds s)
  \/ (exists obj,
        useMemo same_fuse_deps (fuseMemo s) (fuse_deps_of p) = None
        /\ Fuse_new (elems (items p))
             (BASE_FUSE_OPTIONS (elems (keys p)) (threshold_of (options p))) = Ok obj
        /\ f = mkInst (S (builds s)) obj
        /\ fc = Some (fuse_deps_of p, f) /\ nb = S (builds s)).
Proof.
  unfold fuse_memo. intros H.
  destruct (useMemo same_fuse_deps (fuseMemo s) (fuse_deps_of p)) as [v|] eqn:U.
  - injection H as <- <- <-. left. unfold useMemo in U.
    destruct (fuseMemo s) as [[d f0]|]; [|discriminate].
    destruct (same_fuse_deps d (fuse_deps_of p)) eqn:S0; [|discriminate].
    injection U as <-. exists d. auto.
  - destruct (Fuse_new _ _) as [obj|e] eqn:N; [|discriminate].
    simpl in H. injection H as <- <- <-. right. exists obj. auto.
Qed.

Lemma results_memo_cases (s : State) (rdeps : ResultsDeps) rc frs ns :
  fuzzyResults_memo s rdeps = (rc, frs, ns) ->
  (exists rd, resultsMemo s = Some (rd, frs) /\ same_results_deps rd rdeps = true
              /\ rc = resultsMemo s /\ ns = searches s)
  \/ (useMemo same_results_deps (resultsMemo s) rdeps = None
      /\ rc = Some (rdeps, fst (fuzzyResults_factory rdeps))
      /\ frs = fst (fuzzyResults_factory rdeps)
      /\ ns = searches s ++ snd (fuzzyResults_factory rdeps)).
Proof.
  intros H.
  destruct (useMemo same_results_deps (resultsMemo s) rdeps) as [v|] eqn:U.
  - unfold fuzzyResults_memo in H. rewrite U in H. injection H as <- <- <-.
    left. unfold useMemo in U.
    destruct (resultsMemo s) as [[rd frs0]|]; [|discriminate].
    destruct (same_results_deps rd rdeps) eqn:S0; [|discriminate].
    injection U as <-. exists rd. auto.
  - rewrite fuzzyResults_memo_miss in H by exact U. injection H as <- <- <-.
    right. auto.
Qed.

Lemma same_results_deps_fuse (a b : ResultsDeps) :
  same_results_deps a b = true ->
  fuse_id (results_fuse a) = fuse_id (results_fuse b)
  /\ snd (fst (fst a)) = snd (fst (fst b)) /\ snd a = snd b.
Proof.
  destruct a as [[[fa qa] ia] ma], b as [[[fb qb] ib] mb]. simpl. intros H.
  apply andb_true_iff in H as [H Hm]. apply andb_true_iff in H as [H _].
  apply andb_true_iff in H as [Hf Hq].
  apply Nat.eqb_eq in Hf. apply eqb_eq in Hq. apply Z.eqb_eq in Hm. auto.
Qed.

(** ** Texts sent to the index *)

Lemma factory_sent (rd : ResultsDeps) :
  Forall sent_ok (snd (fuzzyResults_factory rd)).
Proof.
  destruct rd as [[[f dq] its] mc]. unfold fuzzyResults_factory.
  destruct (Nat.eqb (length (trim dq)) 0) eqn:E; [constructor|].
  destruct (len (trim dq) <? mc); [constructor|]. simpl.
  constructor; [|constructor]. split.
  - intros X. rewrite X in E. discriminate.
  - apply trim_idempotent.
Qed.

(** X14. Every text the hook ever sends to [fuse.search] is non-empty
    and has no leading or trailing whitespace: the index is never
    queried with an empty, blank or untrimmed text. *)
Theorem searches_trimmed (s : State) :
  reachable s -> Forall sent_ok (searches s).
Proof.
  apply (prim_reachable (fun s => Forall sent_ok (searches s))).
  - intros s0 p s' out HP H.
    apply useFuzzySearch_inv in H as (fc & f & nb & rc & frs & ns & _ & R & _ & ->).
    simpl. apply results_memo_cases in R as [(rd & _ & _ & _ & ->)|(_ & _ & _ & ->)].
    + exact HP.
    + apply Forall_app. split; [exact HP | apply factory_sent].
  - intros p s0 HP. now destruct (effect_frame p s0) as (_ & _ & _ & _ & _ & _ & _ & -> & _).
  - intros tm s0 HP. exact HP.
  - intros t s0 HP. exact HP.
  - constructor.
Qed.

(** ** Coherence of the memo cells *)

Lemma memo_coherent_reachable (s : State) : reachable s -> memo_coherent s.
Proof.
  apply (prim_reachable memo_coherent).
  - intros s0 p s' out [H1 H2] H.
    apply useFuzzySearch_inv in H as (fc & f & nb & rc & frs & ns & F & R & _ & ->).
    unfold memo_coherent. simpl.
    apply fuse_memo_cases in F
      as [(d & Hf & Sd & -> & ->)|(obj & Hu & Hn & -> & -> & ->)];
    apply results_memo_cases in R
      as [(rd & Hr & Sr & -> & _)|(_ & -> & _ & _)].
    + split; [exact H1 | exact H2].
    + split; [exact H1|]. intros rd' frs' E. injection E as <- <-.
      exists d, f. split; [exact Hf | now left].
    + (* a new instance cannot meet an old cached list *)
      exfalso. destruct (H2 rd frs Hr) as (d0 & f0 & Hf0 & Hdis).
      destruct (H1 d0 f0 Hf0) as [Hle _].
      apply same_results_deps_fuse in Sr as [Hid _].
      unfold results_fuse, results_deps_of in *. simpl in Hid.
      destruct Hdis as [E|L]; [rewrite E in Hid|]; lia.
    + split.
      * intros d f E. injection E as <- <-. simpl. split; [lia | exact Hn].
      * intros rd' frs' E. injection E as <- <-.
        eexists. eexists. split; [reflexivity | now left].
  - intros p s0 HP. unfold memo_coherent.
    destruct (effect_frame p s0) as (_ & _ & -> & -> & _ & _ & -> & _). exact HP.
  - intros tm s0 HP. exact HP.
  - intros t s0 HP. exact HP.
  - split; intros; discriminate.
Qed.

(** X15. In every reachable state whose committed query, trimmed, is
    non-empty and has at least [minChars] code units, the returned list
    is the engine's answer to that trimmed text, item by item and in
    the engine's order, on the memoised index; and that index is the
    one constructed from the arrays and threshold of the last call
    (compared by identity). The hook neither filters nor reorders, and
    never shows the answer of an outdated index. *)
Theorem results_from_current_index (s : State) (p : Props T) (out : Output T) :
  reachable s -> props s = Some p -> output s = Some out ->
  trim (debouncedQuery out) <> [] ->
  minChars_of (options p) <= len (trim (debouncedQuery out)) ->
  exists d f,
    fuseMemo s = Some (d, f)
    /\ same_fuse_deps d (fuse_deps_of p) = true
    /\ Fuse_new (elems (fst (fst d)))
         (BASE_FUSE_OPTIONS (elems (snd (fst d))) (snd d)) = Ok (fuse_obj f)
    /\ fuzzyResults out
       = map ranked (Fuse_search (fuse_obj f) (trim (debouncedQuery out)))
    /\ results out
       = map r_item (Fuse_search (fuse_obj f) (trim (debouncedQuery out))).
Proof.
  intros Hr Hp Ho Hne Hlen.
  pose proof (reachable_Inv s Hr) as HI. unfold Inv in HI. rewrite Hp in HI.
  destruct HI as [_ (d & f & rd & frs & Hf & Sd & Hrm & Sr & Hv & Hout)].
  destruct (memo_coherent_reachable s Hr) as [C1 C2].
  destruct (C1 d f Hf) as [_ Hbuilt].
  destruct (C2 rd frs Hrm) as (d' & f' & Hf' & Hdis).
  rewrite Hf in Hf'. injection Hf' as <- <-.
  rewrite Ho in Hout. injection Hout as ->. simpl in Hne, Hlen. simpl.
  pose proof (same_results_deps_fuse _ _ Sr) as (Hid & Hdq & Hmc).
  destruct rd as [[[frd dq] its] mc]. unfold results_fuse, results_deps_of in *.
  simpl in Hid, Hdq, Hmc, Hdis. subst dq mc.
  assert (frd = f) by (destruct Hdis as [E|L]; [exact E | lia]). subst frd.
  rewrite factory_search in Hv by assumption. simpl in Hv. subst frs.
  exists d, f. repeat split; try assumption.
  rewrite map_map. reflexivity.
Qed.

(** ** Pending delays and the flag *)

(** X16. In every reachable state at most one delay is pending; while
    one is pending, [isSearching] is true in the cell and in the
    returned object, the raw query of the last call passed the
    [minChars] guard, and the delay carries its trimmed value. *)
Theorem pending_sets_flag (s : State) :
  reachable s ->
  (length (timers s) <= 1)%nat
  /\ forall tm, In tm (timers s) ->
       cell_isSearching s = true
       /\ exists p out, props s = Some p /\ output s = Some out
            /\ isSearching out = true
            /\ guarded p = false
            /\ commit_value tm = trim (query p).
Proof.
  intros Hr. pose proof (reachable_Inv s Hr) as HI. split.
  - destruct (Inv_timers s HI) as [->|(tm & ->)]; simpl; lia.
  - intros tm Hin. unfold Inv in HI. destruct (props s) as [p|] eqn:Hp.
    + destruct HI as [(_ & _ & Hg) (d & f & rd & frs & _ & _ & _ & _ & _ & Hout)].
      destruct (guarded p) eqn:G.
      * destruct Hg as [Ht _]. rewrite Ht in Hin. destruct Hin.
      * destruct Hg as (_ & id & _ & _ & [Ht|(Hs & d0 & Ht)]).
        -- rewrite Ht in Hin. destruct Hin.
        -- rewrite Ht in Hin. destruct Hin as [<-|[]]. split; [exact Hs|].
           exists p. eexists. split; [reflexivity|]. split; [exact Hout|].
           simpl. auto.
    + rewrite HI in Hin. destruct Hin.
Qed.

(** X17. A delay never fires early: with [debounceMs] within the range
    of [setTimeout], after an update that passes the
    guard, as long as less than [debounceMs] has passed, nothing is
    committed, the committed query is the old one, the flag is set and
    the delay of that update is the one pending. *)
Theorem no_early_commit (s : State) (p : Props T) (q : jsstring) (dt : Z) :
  reachable s -> props s = Some p ->
  q <> query p -> guarded (with_query p q) = false ->
  debounceMs_of (options p) <= TIMEOUT_MAX ->
  0 <= dt < debounceMs_of (options p) ->
  exists s', run [Render (with_query p q); Tick dt] s = Ok s'
    /\ commits s' = commits s
    /\ cell_debouncedQuery s' = cell_debouncedQuery s
    /\ cell_isSearching s' = true
    /\ now s' = now s + dt
    /\ timers s' = [mkTimer (nextTimer s) (now s + debounceMs_of (options p)) (trim q)].
Proof.
  intros Hr Hp Hq Hg _ Hdt. pose proof (reachable_Inv s Hr) as HI.
  destruct (Render_query s p q HI Hp)
    as (s1 & H1 & HI1 & Hp1 & Hdq & Hco & Hnow & _ & _ & _ & _ & Hun).
  destruct (Hun Hg Hq) as [Ht Hs].
  rewrite Z.max_r in Ht by lia.
  exists (set_now (now s1 + Z.max 0 dt) s1). split.
  - cbn [run]. rewrite H1. cbn [bind]. rewrite Tick_idle; [reflexivity|].
    right. eexists. split; [exact Ht|]. simpl. lia.
  - simpl. rewrite Hco, Hdq, Hs, Ht, Hnow. repeat split. lia.
Qed.

(** ** Calls that change the items only *)

(** X18. A call that changes neither the raw query nor [debounceMs]
    nor [minChars] (new items, keys or threshold only) leaves the
    debounce machinery alone: a pending delay is neither cancelled nor
    restarted, nothing is committed, and the flag keeps its value. *)
Theorem items_change_keeps_delay (s : State) (p0 p : Props T) s' :
  reachable s -> props s = Some p0 ->
  effect_deps_of p = effect_deps_of p0 ->
  step (Render p) s = Ok s' ->
  timers s' = timers s
  /\ timerRef s' = timerRef s
  /\ cell_isSearching s' = cell_isSearching s
  /\ cell_debouncedQuery s' = cell_debouncedQuery s
  /\ commits s' = commits s.
Proof.
  intros Hr Hp He H. pose proof (reachable_Inv s Hr) as HI.
  apply step_Render_inv in H as (sa & oa & sc & oc & Ha & Hc & ->).
  destruct (body_facts s p sa oa (Inv_memo_val s HI) Ha)
    as (Hpa & Hma & _ & Hdqa & Hsa & Hra & Hea & _ & Hta & _ & _ & Hcoa).
  unfold read_debouncedQuery in Hdqa. unfold read_isSearching in Hsa.
  unfold read_timerRef in Hra. rewrite Hp in Hdqa, Hsa, Hra.
  assert (Hdeps : effectDeps sa = Some (effect_deps_of p)).
  { rewrite Hea, He. unfold Inv in HI. rewrite Hp in HI. now destruct HI as [[E _] _]. }
  rewrite (effect_unchanged p sa Hdeps) in Hc.
  destruct (body_facts sa p sc oc (memo_ok_val sa p Hma) Hc)
    as (_ & _ & _ & Hdqc & Hsc & Hrc & Hec & _ & Htc & _ & _ & Hcoc).
  unfold read_debouncedQuery in Hdqc. unfold read_isSearching in Hsc.
  unfold read_timerRef in Hrc. rewrite Hpa in Hdqc, Hsc, Hrc.
  rewrite effect_unchanged by congruence.
  repeat split; congruence.
Qed.

(** ** Reconstruction of the index *)

Lemma same_fuse_deps_left (a b c : FuseDeps) :
  same_fuse_deps a b = true -> same_fuse_deps a c = true ->
  same_fuse_deps b c = true.
Proof.
  destruct a as [[ia ka] ta], b as [[ib kb] tb], c as [[ic kc] tc]. simpl.
  unfold same_ref. intros H1 H2.
  apply andb_true_iff in H1 as [H1 Q1]. apply andb_true_iff in H1 as [I1 K1].
  apply andb_true_iff in H2 as [H2 Q2]. apply andb_true_iff in H2 as [I2 K2].
  apply Nat.eqb_eq in I1, K1, I2, K2.
  rewrite <- I1, <- K1, I2, K2, !Nat.eqb_refl. simpl.
  apply Qeq_bool_iff in Q1, Q2. apply Qeq_bool_iff. now rewrite <- Q1.
Qed.

(** X19. A call whose items array, keys array or threshold differs
    from the previous call's (arrays compared by identity, so also a
    new array with the same elements) constructs the index again,
    exactly once, from the new items, keys and threshold. *)
Theorem index_rebuilt_on_change (s : State) (p0 p : Props T) s' :
  reachable s -> props s = Some p0 ->
  same_index_inputs p0 p = false ->
  step (Render p) s = Ok s' ->
  builds s' = S (builds s)
  /\ exists obj,
       Fuse_new (elems (items p))
         (BASE_FUSE_OPTIONS (elems (keys p)) (threshold_of (options p))) = Ok obj
       /\ fuseMemo s' = Some (fuse_deps_of p, mkInst (S (builds s)) obj).
Proof.
  intros Hr Hp Hne H. pose proof (reachable_Inv s Hr) as HI.
  unfold Inv in HI. rewrite Hp in HI.
  destruct HI as [_ (d & f & rd & frs & Hf & Sd & _)].
  apply step_Render_inv in H as (sa & oa & sc & oc & Ha & Hc & ->).
  apply useFuzzySearch_inv in Ha as (fc & fa & nb & rc & frsa & ns & Fa & _ & _ & ->).
  apply fuse_memo_cases in Fa
    as [(d1 & Hf1 & Sd1 & _ & _)|(obj & _ & Hn & -> & -> & ->)].
  { exfalso. rewrite Hf in Hf1. injection Hf1 as <- <-.
    unfold same_index_inputs in Hne.
    now rewrite (same_fuse_deps_left _ _ _ Sd Sd1) in Hne. }
  match type of Hc with useFuzzySearch ?x p = _ => set (sb := x) in * end.
  assert (Hfb : fuseMemo sb = Some (fuse_deps_of p, mkInst (S (builds s)) obj)).
  { unfold sb. now destruct (effect_frame p
      {| props := Some p; cell_debouncedQuery := read_debouncedQuery s p;
         cell_isSearching := read_isSearching s; timerRef := read_timerRef s;
         effectDeps := effectDeps s; effectCleanup := effectCleanup s;
         fuseMemo := Some (fuse_deps_of p, mkInst (S (builds s)) obj);
         resultsMemo := rc; output := Some oa; now := now s; timers := timers s;
         nextTimer := nextTimer s; builds := S (builds s); searches := ns;
         commits := commits s |}) as (_ & _ & -> & _). }
  assert (Hbb : builds sb = S (builds s)).
  { unfold sb. now destruct (effect_frame p
      {| props := Some p; cell_debouncedQuery := read_debouncedQuery s p;
         cell_isSearching := read_isSearching s; timerRef := read_timerRef s;
         effectDeps := effectDeps s; effectCleanup := effectCleanup s;
         fuseMemo := Some (fuse_deps_of p, mkInst (S (builds s)) obj);
         resultsMemo := rc; output := Some oa; now := now s; timers := timers s;
         nextTimer := nextTimer s; builds := S (builds s); searches := ns;
         commits := commits s |}) as (_ & _ & _ & _ & _ & _ & -> & _). }
  apply useFuzzySearch_inv in Hc as (fc2 & f2 & nb2 & rc2 & frs2 & ns2 & F2 & _ & _ & ->).
  apply fuse_memo_cases in F2
    as [(d2 & Hf2 & _ & -> & ->)|(obj2 & Hu & _)].
  - destruct (effect_frame p
      {| props := Some p; cell_debouncedQuery := read_debouncedQuery sb p;
         cell_isSearching := read_isSearching sb; timerRef := read_timerRef sb;
         effectDeps := effectDeps sb; effectCleanup := effectCleanup sb;
         fuseMemo := fuseMemo sb; resultsMemo := rc2; output := Some oc;
         now := now sb; timers := timers sb; nextTimer := nextTimer sb;
         builds := builds sb; searches := ns2; commits := commits sb |})
      as (_ & _ & -> & _ & _ & _ & -> & _).
    simpl. split; [exact Hbb|]. exists obj. split; [exact Hn | exact Hfb].
  - exfalso. unfold useMemo in Hu. rewrite Hfb in Hu.
    now rewrite same_fuse_deps_refl in Hu.
Qed.


(** ** Mounting *)


(** ** Clearing the query *)

Lemma unmutated_run (p : Props T) (evs : list Event) (s s' : State) :
  props s = Some p -> items_unmutated s p ->
  Forall (event_ok (fun p1 => items p1 = items p)) evs ->
  run evs s = Ok s' -> items_unmutated s' p.
Proof.
  intros Hp Hm Hev H.
  apply (prim_run (fun p1 => items p1 = items p)
           (fun s1 => items_unmutated s1 p
                      /\ forall p1, props s1 = Some p1 -> items p1 = items p))
    with (evs := evs) (s := s); auto.
  - intros s0 p1 [_ A] E. auto.
  - intros s0 p1 s1 out [A B] Hok Hb.
    apply useFuzzySearch_inv in Hb as (fc & f & nb & rc & frs & ns & _ & R & _ & ->).
    simpl. split; [|intros p2 E; now injection E as <-].
    apply results_memo_cases in R as [(rd & Hh & _ & -> & _)|(_ & -> & _)].
    + exact A.
    + intros f0 dq its mc frs0 E Href. unfold results_deps_of in E.
      injection E as _ _ <- _ _. now rewrite Hok.
  - intros p1 s0 [A B].
    destruct (effect_frame p1 s0) as (Hpp & _ & _ & Hrr & _).
    split.
    + intros f0 dq its mc frs0 E. rewrite Hrr in E. eapply A; eassumption.
    + intros p2 E. rewrite Hpp in E. auto.
  - split.
    + exact Hm.
    + intros p1 E. rewrite Hp in E. now injection E as <-.
Qed.

(** X21. Clearing the search box restores the list. From any state of
    a mounted instance, an update of the raw query to an empty or
    blank text, followed by at least [debounceMs] of quiet, commits
    the empty query: the flag is down, fuzzy mode is off, nothing is
    pending, and the hook returns the items as passed, in order. The
    items array is taken not to have been mutated in place. *)
Theorem clear_restores_list (s : State) (p : Props T) (q : jsstring) (dt : Z) :
  reachable s -> props s = Some p -> items_unmutated s p ->
  trim q = [] -> q <> query p ->
  debounceMs_of (options p) <= dt ->
  exists s' out,
    run [Render (with_query p q); Tick dt] s = Ok s'
    /\ output s' = Some out
    /\ debouncedQuery out = []
    /\ isSearching out = false
    /\ isFuzzyMode out = false
    /\ results out = elems (items p)
    /\ timers s' = [].
Proof.
  intros Hr Hp Hm Hq Hne Hdt. pose proof (reachable_Inv s Hr) as HI.
  assert (Hg : guarded (with_query p q) = false).
  { unfold guarded. simpl. rewrite Hq. reflexivity. }
  destruct (Render_query s p q HI Hp)
    as (s1 & H1 & HI1 & Hp1 & _ & _ & Hnow & _ & _ & _ & _ & Hun).
  destruct (Hun Hg Hne) as [Ht _].
  destruct (Tick_fire s1 (with_query p q) _ dt HI1 Hp1 Ht)
    as (s2 & H2 & HI2 & Hp2 & Hdq2 & Hs2 & Ht2 & _).
  { simpl. lia. }
  simpl in Hdq2. rewrite Hq in Hdq2.
  assert (Hrun : run [Render (with_query p q); Tick dt] s = Ok s2).
  { cbn [run]. rewrite H1. cbn [bind]. rewrite H2. reflexivity. }
  assert (Hm2 : items_unmutated s2 p).
  { apply (unmutated_run p [Render (with_query p q); Tick dt] s s2 Hp Hm);
      [|exact Hrun].
    repeat constructor. }
  unfold Inv in HI2. rewrite Hp2 in HI2.
  destruct HI2 as [_ (d & f & rd & frs & _ & _ & Hrm & Sr & Hv & Hout)].
  assert (Hfac : frs = map unranked (elems (items p))).
  { destruct rd as [[[f0 dq0] its0] mc0]. unfold results_deps_of in Sr. simpl in Sr.
    apply andb_true_iff in Sr as [Sr _]. apply andb_true_iff in Sr as [Sr Hits].
    apply andb_true_iff in Sr as [_ Hdq].
    apply eqb_eq in Hdq. apply Nat.eqb_eq in Hits. rewrite Hdq2 in Hdq. subst dq0.
    rewrite factory_bypass in Hv by (left; reflexivity). simpl in Hv.
    now rewrite (Hm2 _ _ _ _ _ Hrm Hits) in Hv. }
  clear Hv. subst frs. rewrite Hdq2, Hs2 in Hout.
  exists s2. eexists. split; [exact Hrun|]. split; [exact Hout|]. simpl.
  split; [reflexivity|]. split; [reflexivity|]. split; [|split].
  - unfold fuzzyMode. rewrite existsb_unranked. apply andb_false_r.
  - apply map_item_unranked.
  - exact Ht2.
Qed.

(** ** Committed values *)

(** X22. Every value the hook ever commits through [setDebouncedQuery]
    is a trimmed text: only the initial committed query (the raw query
    of the first call) can carry leading or trailing whitespace. *)
Theorem commits_trimmed (s : State) :
  reachable s -> Forall (fun c => trim c = c) (commits s).
Proof.
  induction 1 as [|ev s s' Hr IH H]; [constructor|].
  pose proof (reachable_Inv s Hr) as HI.
  destruct ev as [p|dt].
  - now rewrite (Render_commits s p s' H).
  - destruct (Inv_timers s HI) as [Ht|(tm & Ht)].
    + rewrite Tick_idle in H by auto. injection H as <-. exact IH.
    + destruct (Z_lt_le_dec (now s + Z.max 0 dt) (due tm)) as [L|L].
      * rewrite Tick_idle in H by eauto. injection H as <-. exact IH.
      * destruct (props s) as [p|] eqn:Hp.
        -- destruct (Tick_fire s p tm dt HI Hp Ht L)
             as (s1 & Hs & _ & _ & _ & _ & _ & Hco & _).
           rewrite Hs in H. injection H as <-. rewrite Hco.
           apply Forall_app. split; [exact IH|]. constructor; [|constructor].
           unfold Inv in HI. rewrite Hp in HI. destruct HI as [(_ & _ & Hg) _].
           destruct (guarded p).
           ++ destruct Hg as [E _]. rewrite E in Ht. discriminate.
           ++ destruct Hg as (_ & id & _ & _ & [E|(_ & d & E)]);
                rewrite E in Ht; [discriminate|].
              injection Ht as <-. simpl. apply trim_idempotent.
        -- unfold Inv in HI. rewrite Hp in HI. rewrite HI in Ht. discriminate.
Qed.


End More.

Lemma no_early_commit_witness :
  exists s',
    run [Render (with_query (demo []) (lit "ef")); Tick 199] settled_empty = Ok s'
    /\ commits s' = commits settled_empty
    /\ cell_isSearching s' = true.
Proof.
  destruct (no_early_commit settled_empty (demo []) (lit "ef") 199)
    as (s' & H1 & H2 & _ & H3 & _).
  - apply reachable_state_after.
  - vm_compute. reflexivity.
  - discriminate.
  - vm_compute. reflexivity.
  - vm_compute. discriminate.
  - vm_compute. split; [discriminate | reflexivity].
  - exists s'. auto.
Defined.

Lemma items_change_keeps_delay_witness :
  exists s',
    step (Render (mkProps (mkArray 7 [lit "doliprane"]) (lit "ef") demo_keys no_options))
         typing_ef = Ok s'
    /\ timers s' = timers typing_ef
    /\ cell_isSearching s' = cell_isSearching typing_ef.
Proof.
  assert (E : exists s',
    step (Render (mkProps (mkArray 7 [lit "doliprane"]) (lit "ef") demo_keys no_options))
         typing_ef = Ok s').
  { vm_compute. eexists. reflexivity. }
  destruct E as (s' & E). exists s'. split; [exact E|].
  destruct (items_change_keeps_delay typing_ef (demo (lit "ef"))
              (mkProps (mkArray 7 [lit "doliprane"]) (lit "ef") demo_keys no_options) s'
              (reachable_state_after _)) as (H1 & _ & H2 & _);
    [vm_compute; reflexivity | reflexivity | exact E |].
  split; [exact H1 | exact H2].
Defined.

Lemma index_rebuilt_on_change_witness :
  exists s',
    step (Render (mkProps (mkArray 7 (elems demo_items)) [] demo_keys no_options))
         settled_empty = Ok s'
    /\ builds s' = S (builds settled_empty).
Proof.
  assert (E : exists s',
    step (Render (mkProps (mkArray 7 (elems demo_items)) [] demo_keys no_options))
         settled_empty = Ok s').
  { vm_compute. eexists. reflexivity. }
  destruct E as (s' & E). exists s'. split; [exact E|].
  destruct (index_rebuilt_on_change settled_empty (demo [])
              (mkProps (mkArray 7 (elems demo_items)) [] demo_keys no_options) s'
              (reachable_state_after _)) as (H1 & _);
    [vm_compute; reflexivity | vm_compute; reflexivity | exact E |].
  exact H1.
Defined.


Lemma searches_trimmed_witness :
  searches committed_ef <> [] /\ Forall sent_ok (searches committed_ef).
Proof.
  split.
  - vm_compute. discriminate.
  - apply (searches_trimmed committed_ef). apply reachable_state_after.
Defined.

Lemma results_from_current_index_witness :
  exists out f,
    output committed_ef = Some out
    /\ results out = map r_item (Fuse_search (fuse_obj f) (lit "ef")).
Proof.
  assert (E : exists out, output committed_ef = Some out
                          /\ debouncedQuery out = lit "ef").
  { vm_compute. eexists. split; reflexivity. }
  destruct E as (out & Eo & Edq).
  destruct (results_from_current_index committed_ef (demo (lit "ef")) out)
    as (d & f & _ & _ & _ & _ & Hres).
  - apply reachable_state_after.
  - vm_compute. reflexivity.
  - exact Eo.
  - rewrite Edq. vm_compute. discriminate.
  - rewrite Edq. vm_compute. discriminate.
  - exists out, f. split; [exact Eo|]. rewrite Edq in Hres. exact Hres.
Defined.

Lemma pending_sets_flag_witness :
  timers typing_ef <> [] /\ cell_isSearching typing_ef = true.
Proof.
  assert (E : exists tm, timers typing_ef = [tm]).
  { vm_compute. eexists. reflexivity. }
  destruct E as (tm & E). split; [rewrite E; discriminate|].
  destruct (pending_sets_flag typing_ef (reachable_state_after _)) as [_ H].
  destruct (H tm) as [Hs _]; [rewrite E; left; reflexivity | exact Hs].
Defined.


Lemma clear_restores_list_witness :
  exists s' out,
    run [Render (with_query (demo (lit "ef")) []); Tick 200] committed_ef = Ok s'
    /\ output s' = Some out
    /\ results out = elems demo_items.
Proof.
  destruct (clear_restores_list committed_ef (demo (lit "ef")) [] 200)
    as (s' & out & H1 & H2 & _ & _ & _ & H3 & _).
  - apply reachable_state_after.
  - vm_compute. reflexivity.
  - intros f dq its mc frs H _.
    assert (E : exists f0 dq0 mc0 frs0,
              resultsMemo committed_ef = Some ((f0, dq0, demo_items, mc0), frs0)).
    { vm_compute. do 4 eexists. reflexivity. }
    destruct E as (f0 & dq0 & mc0 & frs0 & E). rewrite E in H.
    injection H as _ _ <- _ _. reflexivity.
  - reflexivity.
  - discriminate.
  - vm_compute. discriminate.
  - exists s', out. split; [exact H1|]. split; [exact H2 | exact H3].
Defined.

Lemma commits_trimmed_witness :
  commits committed_ef <> []
  /\ Forall (fun c => trim c = c) (commits committed_ef).
Proof.
  split.
  - vm_compute. discriminate.
  - apply (commits_trimmed committed_ef). apply reachable_state_after.
Defined.


End FuzzyMore.
